(** * run-command-mcp: the [CommandRunner] process engine

    A shallow embedding of the class [CommandRunner] (the 384 lines of
    JavaScript that export it, src/unnamed/part_002) and proofs about its
    process registry, its callbacks and its blocking runner. Two smaller
    models follow it: the port argument of src/http-server.js and the HTTP
    session table of the server class (src/unnamed/part_001).

    - JavaScript strings are sequences of UTF-16 code units ([list N]).
    - The object handed to [JSON.stringify] is a [json] value; a property
      whose value is [undefined] is left out, as [JSON.stringify] does.
    - [processInfo] objects live in a heap: the registry ([this.processes])
      and the callbacks of a child both point to the same object.
    - What the environment decides (the uuid, the clock, the pid of the
      spawned child, whether [process.kill] throws, which callback the event
      loop delivers next) is an explicit input of the operation or an
      [Action] of the trace. *)

From Stdlib Require Import ZArith NArith List String Ascii Bool Lia DecimalString DecimalNat.
From stdpp Require Import base decidable option list.
Import ListNotations.

Local Open Scope Z_scope.
Set Warnings "-register-all".

(* ===================================================================== *)
(** ** JavaScript strings and arrays *)
(* ===================================================================== *)

Module Js.

(** A JavaScript string: its UTF-16 code units. *)
Definition str := list N.

(** A source-text literal (ASCII) as a JavaScript string. *)
Definition lit (s : string) : str :=
  List.map N_of_ascii (list_ascii_of_string s).

(** The newline code unit, the separator of [split('\n')] and [join('\n')]. *)
Definition LF : N := 10%N.

(** ECMAScript WhiteSpace and LineTerminator code units: what
    [String.prototype.trim] strips. *)
Definition is_white (c : N) : bool :=
  ((c =? 9) || (c =? 10) || (c =? 11) || (c =? 12) || (c =? 13) || (c =? 32)
   || (c =? 160) || (c =? 5760)
   || ((8192 <=? c) && (c <=? 8202))
   || (c =? 8232) || (c =? 8233) || (c =? 8239) || (c =? 8287)
   || (c =? 12288) || (c =? 65279))%N.

Fixpoint drop_while {A} (p : A -> bool) (l : list A) : list A :=
  match l with
  | [] => []
  | x :: l' => if p x then drop_while p l' else l
  end.

Definition trimStart (s : str) : str := drop_while is_white s.

Definition trimEnd (s : str) : str := rev (drop_while is_white (rev s)).

(** [s.trim()] *)
Definition trim (s : str) : str := trimEnd (trimStart s).

(** [s.split(sep)] for a one-code-unit separator; [''.split(sep)] is [['']]. *)
Fixpoint split (sep : N) (s : str) : list str :=
  match s with
  | [] => [[]]
  | c :: s' =>
      if (c =? sep)%N then [] :: split sep s'
      else match split sep s' with
           | [] => [[c]]
           | p :: ps => (c :: p) :: ps
           end
  end.

(** [a.join(sep)] *)
Fixpoint join (sep : N) (a : list str) : str :=
  match a with
  | [] => []
  | [p] => p
  | p :: ps => p ++ sep :: join sep ps
  end.

(** [a.slice(start)]: a negative start counts from the end, and both ends
    are clamped to the array. *)
Definition slice {A} (start : Z) (a : list A) : list A :=
  let len := Z.of_nat (length a) in
  let k := if start <? 0 then Z.max (len + start) 0 else Z.min start len in
  skipn (Z.to_nat k) a.

(** [String(n)] for a non-negative integer. *)
Definition of_nat (n : nat) : str :=
  lit (NilEmpty.string_of_uint (Nat.to_uint n)).

(** Number of lines of a text: the length of [s.split('\n')]. *)
Definition lines (s : str) : nat := length (split LF s).

End Js.

(* ===================================================================== *)
(** ** JSON payloads *)
(* ===================================================================== *)

(** The argument of [JSON.stringify]. Every operation answers
    [{content: [{type: 'text', text: JSON.stringify(payload, null, 2)}]}];
    the model keeps the payload. *)
Inductive json : Type :=
| JNull
| JBool (b : bool)
| JNum (z : Z)
| JStr (s : Js.str)
| JArr (items : list json)
| JObj (fields : list (string * json)).

Definition object := list (string * json).

(** [o[key]], [None] when the property is absent. *)
Fixpoint get_field (key : string) (o : object) : option json :=
  match o with
  | [] => None
  | (k, v) :: o' => if String.eqb key k then Some v else get_field key o'
  end.


Definition keys (o : object) : list string := List.map fst o.

(** A property that is always written. *)
Definition prop (key : string) (v : json) : object := [(key, v)].

(** A numeric property that may be [undefined], hence left out. *)
Definition prop_undef (key : string) (v : option Z) : object :=
  match v with
  | Some z => [(key, JNum z)]
  | None => []
  end.

(** [null] or a number. *)
Definition num_or_null (v : option Z) : json :=
  match v with Some z => JNum z | None => JNull end.

(** [null] or a string. *)
Definition str_or_null (v : option Js.str) : json :=
  match v with Some s => JStr s | None => JNull end.

(* ===================================================================== *)
(** ** The data model *)
(* ===================================================================== *)

(** The six values of [processInfo.status]. *)
Inductive Status : Type :=
| Running
| Completed
| Failed
| Killed
| Error
| TimedOut.

Definition Status_eqb (a b : Status) : bool :=
  match a, b with
  | Running, Running | Completed, Completed | Failed, Failed
  | Killed, Killed | Error, Error | TimedOut, TimedOut => true
  | _, _ => false
  end.

(** The string each status is stored and reported as. *)
Definition status_str (s : Status) : Js.str :=
  Js.lit match s with
         | Running => "running"
         | Completed => "completed"
         | Failed => "failed"
         | Killed => "killed"
         | Error => "error"
         | TimedOut => "timed_out"
         end.

(** The [processInfo] object of [startCommand]. [pid] is [undefined] until the
    child is spawned and stays so when the spawn fails. *)
Record ProcessInfo : Type := mkProcessInfo {
  id : Js.str;
  command : Js.str;
  status : Status;
  stdout : Js.str;
  stderr : Js.str;
  exit_code : option Z;
  error : option Js.str;
  started_at : Js.str;
  finished_at : option Js.str;
  timed_out : bool;
  pid : option Z
}.

(** What the callbacks of one [startCommand] call close over: the
    [processInfo] object and whether the timer behind [timeoutId] is still
    pending (armed, neither fired nor cleared). *)
Record Child : Type := mkChild {
  processInfo : ProcessInfo;
  timer_pending : bool
}.

(** A SIGTERM the engine asked for. *)
Inductive Signal : Type :=
| ChildKill (ref : nat)              (* child.kill('SIGTERM') of a timer *)
| ProcessKill (target : option Z).   (* process.kill(pid, 'SIGTERM') *)

(** The engine: the heap of children, the [Map] [this.processes] in
    insertion order (process id to heap address), and the log of signals. *)
Record World : Type := mkWorld {
  heap : list Child;
  processes : list (Js.str * nat);
  signals : list Signal
}.

(** [new CommandRunner()] *)
Definition new_runner : World :=
  {| heap := []; processes := []; signals := [] |}.

(* ===================================================================== *)
(** ** [Map] operations on [this.processes] *)
(* ===================================================================== *)

Definition key_eqb (a b : Js.str) : bool := bool_decide (a = b).

(** [m.get(key)] *)
Fixpoint map_get {V} (key : Js.str) (m : list (Js.str * V)) : option V :=
  match m with
  | [] => None
  | (k, v) :: m' => if key_eqb key k then Some v else map_get key m'
  end.

(** [m.set(key, v)]: an existing key keeps its place, a new one goes last. *)
Fixpoint map_set {V} (key : Js.str) (v : V) (m : list (Js.str * V))
  : list (Js.str * V) :=
  match m with
  | [] => [(key, v)]
  | (k, v') :: m' =>
      if key_eqb key k then (k, v) :: m' else (k, v') :: map_set key v m'
  end.

(** [m.delete(key)] *)
Definition map_delete {V} (key : Js.str) (m : list (Js.str * V))
  : list (Js.str * V) :=
  List.filter (fun e => negb (key_eqb key (fst e))) m.

(** A string used as a condition: [null] and [''] are falsy. *)
Definition truthy (s : option Js.str) : bool :=
  match s with
  | Some (_ :: _) => true
  | _ => false
  end.

(* ===================================================================== *)
(** ** Field updates of [processInfo] *)
(* ===================================================================== *)

Definition set_status (s : Status) (p : ProcessInfo) : ProcessInfo :=
  {| id := id p; command := command p; status := s; stdout := stdout p;
     stderr := stderr p; exit_code := exit_code p; error := error p;
     started_at := started_at p; finished_at := finished_at p;
     timed_out := timed_out p; pid := pid p |}.

Definition set_stdout (s : Js.str) (p : ProcessInfo) : ProcessInfo :=
  {| id := id p; command := command p; status := status p; stdout := s;
     stderr := stderr p; exit_code := exit_code p; error := error p;
     started_at := started_at p; finished_at := finished_at p;
     timed_out := timed_out p; pid := pid p |}.

Definition set_stderr (s : Js.str) (p : ProcessInfo) : ProcessInfo :=
  {| id := id p; command := command p; status := status p; stdout := stdout p;
     stderr := s; exit_code := exit_code p; error := error p;
     started_at := started_at p; finished_at := finished_at p;
     timed_out := timed_out p; pid := pid p |}.

Definition set_exit_code (c : option Z) (p : ProcessInfo) : ProcessInfo :=
  {| id := id p; command := command p; status := status p; stdout := stdout p;
     stderr := stderr p; exit_code := c; error := error p;
     started_at := started_at p; finished_at := finished_at p;
     timed_out := timed_out p; pid := pid p |}.

Definition set_error (e : option Js.str) (p : ProcessInfo) : ProcessInfo :=
  {| id := id p; command := command p; status := status p; stdout := stdout p;
     stderr := stderr p; exit_code := exit_code p; error := e;
     started_at := started_at p; finished_at := finished_at p;
     timed_out := timed_out p; pid := pid p |}.

Definition set_finished_at (t : option Js.str) (p : ProcessInfo) : ProcessInfo :=
  {| id := id p; command := command p; status := status p; stdout := stdout p;
     stderr := stderr p; exit_code := exit_code p; error := error p;
     started_at := started_at p; finished_at := t;
     timed_out := timed_out p; pid := pid p |}.

Definition set_timed_out (b : bool) (p : ProcessInfo) : ProcessInfo :=
  {| id := id p; command := command p; status := status p; stdout := stdout p;
     stderr := stderr p; exit_code := exit_code p; error := error p;
     started_at := started_at p; finished_at := finished_at p;
     timed_out := b; pid := pid p |}.

Definition set_pid (v : option Z) (p : ProcessInfo) : ProcessInfo :=
  {| id := id p; command := command p; status := status p; stdout := stdout p;
     stderr := stderr p; exit_code := exit_code p; error := error p;
     started_at := started_at p; finished_at := finished_at p;
     timed_out := timed_out p; pid := v |}.

(** Write through a reference: the child at [ref] becomes [c]. *)
Definition store (ref : nat) (c : Child) (w : World) : World :=
  {| heap := <[ref := c]> (heap w);
     processes := processes w;
     signals := signals w |}.

Definition send (s : Signal) (w : World) : World :=
  {| heap := heap w; processes := processes w; signals := signals w ++ [s] |}.

(** Assignments to the fields of the object at [ref]: the object becomes
    [p], the timer of the child is not touched. *)
Definition assign (ref : nat) (p : ProcessInfo) (w : World) : World :=
  {| heap := alter (fun c => mkChild p (timer_pending c)) ref (heap w);
     processes := processes w;
     signals := signals w |}.

(** The object a reference points to. *)
Definition deref (w : World) (ref : nat) : option ProcessInfo :=
  processInfo <$> heap w !! ref.

(** [this.processes.get(processId)], followed to the object. *)
Definition lookup_process (processId : Js.str) (w : World)
  : option (nat * ProcessInfo) :=
  match map_get processId (processes w) with
  | Some ref =>
      match deref w ref with
      | Some info => Some (ref, info)
      | None => None
      end
  | None => None
  end.

(* ===================================================================== *)
(** ** [startCommand] and the callbacks it registers *)
(* ===================================================================== *)

Local Open Scope string_scope.
Local Open Scope list_scope.
Local Open Scope Z_scope.

(** [startCommand(command, timeout)]. [uuid] is what [uuidv4()] returns,
    [child_pid] is [child.pid] of the spawned child ([undefined] when the
    launch failed) and [now] is [new Date().toISOString()]. This is the
    call on which [spawn] returns a child handle: a failed launch is
    delivered later, through the child's 'error' callback. The call on
    which [spawn] throws is [Launch.startCommand]. *)
Definition startCommand (command : Js.str) (timeout : Z)
    (uuid : Js.str) (child_pid : option Z) (now : Js.str) (w : World)
  : object * World :=
  let processId := uuid in
  let info :=
    {| id := processId; command := command; status := Running;
       stdout := []; stderr := []; exit_code := None; error := None;
       started_at := now; finished_at := None; timed_out := false;
       pid := None |} in
  let ref := length (heap w) in
  (* this.processes.set(processId, processInfo) *)
  let w1 :=
    {| heap := heap w ++ [mkChild info false];
       processes := map_set processId ref (processes w);
       signals := signals w |} in
  (* const child = spawn(...); processInfo.pid = child.pid *)
  let info := set_pid child_pid info in
  (* if (timeout > 0) timeoutId = setTimeout(...) *)
  let timeoutId := 0 <? timeout in
  (prop "success" (JBool true)
   ++ prop "process_id" (JStr processId)
   ++ prop_undef "pid" child_pid
   ++ prop "command" (JStr command)
   ++ prop "status" (JStr (Js.lit "running"))
   ++ prop "message" (JStr (Js.lit
        "Command started. Use get_output with this process_id to check status and logs.")),
   store ref (mkChild info timeoutId) w1).

(** The body of the timer callback: two assignments, then
    [child.kill('SIGTERM')] (logged by [on_timeout]). Once it has run the
    timer is no longer pending. *)
Definition timeout_callback (c : Child) : Child :=
  let p := processInfo c in
  let p := set_timed_out true p in
  let p := set_status TimedOut p in
  mkChild p false.

(** [child.stdout.on('data', ...)] *)
Definition stdout_callback (data : Js.str) (c : Child) : Child :=
  let p := processInfo c in
  mkChild (set_stdout (stdout p ++ data) p) (timer_pending c).

(** [child.stderr.on('data', ...)] *)
Definition stderr_callback (data : Js.str) (c : Child) : Child :=
  let p := processInfo c in
  mkChild (set_stderr (stderr p ++ data) p) (timer_pending c).

(** [code === 0 ? 'completed' : 'failed']; [code] is [null] when the child
    was ended by a signal. *)
Definition exit_status (code : option Z) : Status :=
  match code with
  | Some 0 => Completed
  | _ => Failed
  end.

(** [child.on('close', (code) => ...)]: the timer is cleared, the exit code
    and the finish time are written, and the status only when it is still
    'running'. *)
Definition close_callback (code : option Z) (now : Js.str) (c : Child) : Child :=
  let p := processInfo c in
  let p := set_exit_code code p in
  let p := set_finished_at (Some now) p in
  let p := if Status_eqb (status p) Running
           then set_status (exit_status code) p else p in
  mkChild p false.

(** [child.on('error', (error) => ...)]; [message] is [error.message]. *)
Definition error_callback (message : Js.str) (now : Js.str) (c : Child) : Child :=
  let p := processInfo c in
  let p := set_error (Some message) p in
  let p := set_status Error p in
  let p := set_finished_at (Some now) p in
  mkChild p false.

(** The timer of the child at [ref] fires; it can do so only while it is
    pending. *)
Definition on_timeout (ref : nat) (w : World) : option World :=
  match heap w !! ref with
  | Some c =>
      if timer_pending c
      then Some (send (ChildKill ref) (store ref (timeout_callback c) w))
      else None
  | None => None
  end.

Definition on_stdout (ref : nat) (data : Js.str) (w : World) : option World :=
  match heap w !! ref with
  | Some c => Some (store ref (stdout_callback data c) w)
  | None => None
  end.

Definition on_stderr (ref : nat) (data : Js.str) (w : World) : option World :=
  match heap w !! ref with
  | Some c => Some (store ref (stderr_callback data c) w)
  | None => None
  end.

Definition on_close (ref : nat) (code : option Z) (now : Js.str) (w : World)
  : option World :=
  match heap w !! ref with
  | Some c => Some (store ref (close_callback code now c) w)
  | None => None
  end.

Definition on_error (ref : nat) (message : Js.str) (now : Js.str) (w : World)
  : option World :=
  match heap w !! ref with
  | Some c => Some (store ref (error_callback message now c) w)
  | None => None
  end.

(* ===================================================================== *)
(** ** The registry operations *)
(* ===================================================================== *)

(** The answer shared by [getOutput], [killProcess] and [clearProcesses]
    for an unknown identifier. *)
Definition not_found (processId : Js.str) : object :=
  prop "success" (JBool false)
  ++ prop "error" (JStr (Js.lit "Process not found"))
  ++ prop "process_id" (JStr processId).

(** The tail projection of [getOutput]: the last [tail] lines when
    [tail > 0], the whole buffer otherwise. *)
Definition tail_lines (tail : Z) (buffer : Js.str) : Js.str :=
  if 0 <? tail
  then Js.join Js.LF (Js.slice (- tail) (Js.split Js.LF buffer))
  else buffer.

(** [getOutput(processId, tail)] *)
Definition getOutput (processId : Js.str) (tail : Z) (w : World)
  : object * World :=
  match lookup_process processId w with
  | None => (not_found processId, w)
  | Some (_, info) =>
      let stdout := tail_lines tail (stdout info) in
      let stderr := tail_lines tail (stderr info) in
      (prop "success" (JBool true)
       ++ prop "process_id" (JStr processId)
       ++ prop_undef "pid" (pid info)
       ++ prop "command" (JStr (command info))
       ++ prop "status" (JStr (status_str (status info)))
       ++ prop "exit_code" (num_or_null (exit_code info))
       ++ prop "stdout" (JStr (Js.trim stdout))
       ++ prop "stderr" (JStr (Js.trim stderr))
       ++ prop "error" (str_or_null (error info))
       ++ prop "started_at" (JStr (started_at info))
       ++ prop "finished_at" (str_or_null (finished_at info))
       ++ prop "timed_out" (JBool (timed_out info)),
       w)
  end.

(** One row of [listProcesses]. *)
Definition summary (p : ProcessInfo) : object :=
  prop "process_id" (JStr (id p))
  ++ prop_undef "pid" (pid p)
  ++ prop "command" (JStr (command p))
  ++ prop "status" (JStr (status_str (status p)))
  ++ prop "started_at" (JStr (started_at p))
  ++ prop "finished_at" (str_or_null (finished_at p)).

(** [Array.from(this.processes.values())] *)
Fixpoint values (w : World) (entries : list (Js.str * nat)) : list ProcessInfo :=
  match entries with
  | [] => []
  | (_, ref) :: rest =>
      match deref w ref with
      | Some info => info :: values w rest
      | None => values w rest
      end
  end.

(** [listProcesses(status)] *)
Definition listProcesses (filter : option Js.str) (w : World) : object * World :=
  let all := values w (processes w) in
  let selected :=
    match (if truthy filter then filter else None) with
    | Some f => List.filter (fun p => key_eqb (status_str (status p)) f) all
    | None => all
    end in
  (prop "success" (JBool true)
   ++ prop "total" (JNum (Z.of_nat (length selected)))
   ++ prop "processes" (JArr (List.map (fun p => JObj (summary p)) selected)),
   w).

(** [killProcess(processId)]. [thrown] is the message of the error
    [process.kill] throws, [None] when the signal is delivered; [now] is the
    clock. *)
Definition killProcess (processId : Js.str)
    (thrown : option Js.str) (now : Js.str) (w : World) : object * World :=
  match lookup_process processId w with
  | None => (not_found processId, w)
  | Some (ref, info) =>
      if negb (Status_eqb (status info) Running) then
        (prop "success" (JBool false)
         ++ prop "error" (JStr (Js.lit "Process is not running"))
         ++ prop "process_id" (JStr processId)
         ++ prop "status" (JStr (status_str (status info))),
         w)
      else
        (* try { process.kill(processInfo.pid, 'SIGTERM'); ... *)
        let w1 := send (ProcessKill (pid info)) w in
        match thrown with
        | None =>
            let p := set_status Killed info in
            let p := set_finished_at (Some now) p in
            (prop "success" (JBool true)
             ++ prop "process_id" (JStr processId)
             ++ prop "message" (JStr (Js.lit "Process killed")),
             assign ref p w1)
        | Some message =>
            (* ... } catch (error) { ... } *)
            (prop "success" (JBool false)
             ++ prop "error" (JStr message)
             ++ prop "process_id" (JStr processId),
             w1)
        end
  end.

Definition delete_process (processId : Js.str) (w : World) : World :=
  {| heap := heap w;
     processes := map_delete processId (processes w);
     signals := signals w |}.

(** The loop of [clearProcesses] over the entries of the map. Deleting the
    entry under the cursor leaves the entries still to come in place, so the
    loop is a pass over the entries as they were when it started. *)
Fixpoint clear_loop (entries : list (Js.str * nat)) (w : World) (cleared : nat)
  : World * nat :=
  match entries with
  | [] => (w, cleared)
  | (key, ref) :: rest =>
      match deref w ref with
      | Some info =>
          if negb (Status_eqb (status info) Running)
          then clear_loop rest (delete_process key w) (S cleared)
          else clear_loop rest w cleared
      | None => clear_loop rest w cleared
      end
  end.

(** [clearProcesses(processId)]: with a truthy identifier that one entry is
    deleted, otherwise ([null], or the empty string) every entry that is not
    running. *)
Definition clearProcesses (processId : option Js.str) (w : World)
  : object * World :=
  match (if truthy processId then processId else None) with
  | Some key =>
      match lookup_process key w with
      | None => (not_found key, w)
      | Some _ =>
          (prop "success" (JBool true)
           ++ prop "message" (JStr (Js.lit "Process cleared"))
           ++ prop "process_id" (JStr key),
           delete_process key w)
      end
  | None =>
      let '(w', cleared) := clear_loop (processes w) w 0%nat in
      (prop "success" (JBool true)
       ++ prop "message"
            (JStr (Js.lit "Cleared " ++ Js.of_nat cleared
                   ++ Js.lit " finished processes")),
       w')
  end.

(* ===================================================================== *)
(** ** The event loop: calls of the adapter and callbacks of the children *)
(* ===================================================================== *)

(** One turn of the event loop. A call carries what the environment
    contributes to it; a callback names the child it belongs to. *)
Inductive Action : Type :=
| StartCommand (command : Js.str) (timeout : Z)
               (uuid : Js.str) (child_pid : option Z) (now : Js.str)
| GetOutput (processId : Js.str) (tail : Z)
| ListProcesses (filter : option Js.str)
| KillProcess (processId : Js.str) (thrown : option Js.str) (now : Js.str)
| ClearProcesses (processId : option Js.str)
| OnTimeout (ref : nat)
| OnStdout (ref : nat) (data : Js.str)
| OnStderr (ref : nat) (data : Js.str)
| OnClose (ref : nat) (code : option Z) (now : Js.str)
| OnError (ref : nat) (message : Js.str) (now : Js.str).

(** The engine after one turn; [None] when the turn cannot happen (a
    callback of a child that was never started, a timer that is not
    pending). *)
Definition step (a : Action) (w : World) : option World :=
  match a with
  | StartCommand command timeout uuid child_pid now =>
      Some (snd (startCommand command timeout uuid child_pid now w))
  | GetOutput processId tail => Some (snd (getOutput processId tail w))
  | ListProcesses filter => Some (snd (listProcesses filter w))
  | KillProcess processId thrown now =>
      Some (snd (killProcess processId thrown now w))
  | ClearProcesses processId => Some (snd (clearProcesses processId w))
  | OnTimeout ref => on_timeout ref w
  | OnStdout ref data => on_stdout ref data w
  | OnStderr ref data => on_stderr ref data w
  | OnClose ref code now => on_close ref code now w
  | OnError ref message now => on_error ref message now w
  end.

(** The engine after a sequence of turns. *)
Fixpoint run (trace : list Action) (w : World) : option World :=
  match trace with
  | [] => Some w
  | a :: rest =>
      match step a w with
      | Some w' => run rest w'
      | None => None
      end
  end.

(** The states a [CommandRunner] can be in. *)
Definition reachable (w : World) : Prop :=
  exists trace, run trace new_runner = Some w.

(** A record is tracked when the registry holds it under some identifier. *)
Definition tracked (w : World) (info : ProcessInfo) : Prop :=
  exists processId ref, lookup_process processId w = Some (ref, info).

(** The callbacks of the child at [ref] that the finalization rule is
    about: exit, error and timeout. *)
Definition finalizer_of (ref : nat) (a : Action) : bool :=
  match a with
  | OnTimeout r | OnClose r _ _ | OnError r _ _ => Nat.eqb r ref
  | _ => false
  end.

(* ===================================================================== *)
(** ** [runCommand] *)
(* ===================================================================== *)

Module Blocking.

(** The locals of one [runCommand] call, the state of its timer, the
    signals its timer sent, and the value its promise resolved to. *)
Record Call : Type := mkCall {
  stdout : Js.str;
  stderr : Js.str;
  timedOut : bool;
  timer_pending : bool;
  sigterms : nat;
  resolved : option object
}.

(** What the event loop delivers to a [runCommand] call. *)
Inductive Event : Type :=
| Timeout
| Stdout (data : Js.str)
| Stderr (data : Js.str)
| Close (code : option Z)
| Error (message : Js.str).

(** [resolve(value)]: only the first call settles the promise. *)
Definition resolve (value : object) (c : Call) : Call :=
  match resolved c with
  | Some _ => c
  | None =>
      {| stdout := stdout c; stderr := stderr c; timedOut := timedOut c;
         timer_pending := timer_pending c; sigterms := sigterms c;
         resolved := Some value |}
  end.

Definition clearTimeout (c : Call) : Call :=
  {| stdout := stdout c; stderr := stderr c; timedOut := timedOut c;
     timer_pending := false; sigterms := sigterms c;
     resolved := resolved c |}.

(** [code === 0] *)
Definition is_zero (code : option Z) : bool :=
  match code with
  | Some 0 => true
  | _ => false
  end.

(** The value the 'close' callback resolves with. *)
Definition close_result (command : Js.str) (code : option Z) (c : Call)
  : object :=
  prop "success" (JBool (negb (timedOut c) && is_zero code))
  ++ prop "exit_code" (num_or_null code)
  ++ prop "stdout" (JStr (Js.trim (stdout c)))
  ++ prop "stderr" (JStr (Js.trim (stderr c)))
  ++ prop "timed_out" (JBool (timedOut c))
  ++ prop "command" (JStr command).

(** The value the 'error' callback resolves with. *)
Definition error_result (command : Js.str) (message : Js.str) (c : Call)
  : object :=
  prop "success" (JBool false)
  ++ prop "exit_code" JNull
  ++ prop "stdout" (JStr (Js.trim (stdout c)))
  ++ prop "stderr" (JStr (Js.trim (stderr c)))
  ++ prop "error" (JStr message)
  ++ prop "command" (JStr command).

(** One callback of the call; [None] when it cannot run (the timer fires
    only while it is pending). *)
Definition deliver (command : Js.str) (e : Event) (c : Call) : option Call :=
  match e with
  | Timeout =>
      if timer_pending c then
        Some {| stdout := stdout c; stderr := stderr c; timedOut := true;
                timer_pending := false; sigterms := S (sigterms c);
                resolved := resolved c |}
      else None
  | Stdout data =>
      Some {| stdout := stdout c ++ data; stderr := stderr c;
              timedOut := timedOut c; timer_pending := timer_pending c;
              sigterms := sigterms c; resolved := resolved c |}
  | Stderr data =>
      Some {| stdout := stdout c; stderr := stderr c ++ data;
              timedOut := timedOut c; timer_pending := timer_pending c;
              sigterms := sigterms c; resolved := resolved c |}
  | Close code =>
      let c1 := clearTimeout c in
      Some (resolve (close_result command code c1) c1)
  | Error message =>
      let c1 := clearTimeout c in
      Some (resolve (error_result command message c1) c1)
  end.

Fixpoint deliver_all (command : Js.str) (events : list Event) (c : Call)
  : option Call :=
  match events with
  | [] => Some c
  | e :: rest =>
      match deliver command e c with
      | Some c' => deliver_all command rest c'
      | None => None
      end
  end.

(** The call right after the synchronous part of the promise executor:
    empty buffers and a pending timer (the timer is armed for every
    [timeout]). *)
Definition started : Call :=
  {| stdout := []; stderr := []; timedOut := false; timer_pending := true;
     sigterms := 0%nat; resolved := None |}.

(** [runCommand(command, timeout)] under the callbacks [events], on a call
    on which [spawn] returned a child: the value the returned promise was
    resolved with, [None] when it has none ([Launch.runCommand] tells a
    pending promise from callbacks that cannot happen and adds the call on
    which [spawn] throws). [timeout] only sets when the event loop may
    deliver [Timeout]; the order of the callbacks is given by [events]. *)
Definition runCommand (command : Js.str) (timeout : Z) (events : list Event)
  : option object :=
  match deliver_all command events started with
  | Some c => resolved c
  | None => None
  end.

(** Everything the child wrote to its standard output in [events]. *)
Fixpoint captured_stdout (events : list Event) : Js.str :=
  match events with
  | [] => []
  | Stdout data :: rest => data ++ captured_stdout rest
  | _ :: rest => captured_stdout rest
  end.

(** Everything the child wrote to its standard error in [events]. *)
Fixpoint captured_stderr (events : list Event) : Js.str :=
  match events with
  | [] => []
  | Stderr data :: rest => data ++ captured_stderr rest
  | _ :: rest => captured_stderr rest
  end.

Definition is_timeout (e : Event) : bool :=
  match e with Timeout => true | _ => false end.

(** A callback that settles the promise. *)
Definition is_resolver (e : Event) : bool :=
  match e with Close _ | Error _ => true | _ => false end.

End Blocking.

(* ===================================================================== *)
(** ** Properties of records and registries *)
(* ===================================================================== *)

(** The finish time is set exactly when the record is no longer running. *)
Definition finished_iff_not_running (p : ProcessInfo) : Prop :=
  finished_at p <> None <-> status p <> Running.

(** The finish time is set only when the record is no longer running, and
    it is set in every status other than 'running' and 'timed_out'. *)
Definition finish_stamped (p : ProcessInfo) : Prop :=
  (finished_at p <> None -> status p <> Running)
  /\ (status p <> Running -> status p <> TimedOut -> finished_at p <> None).

(** A property of every [processInfo] object ever created, whether the
    registry still holds it or not. *)
Definition all_records (P : ProcessInfo -> Prop) (w : World) : Prop :=
  Forall (fun c => P (processInfo c)) (heap w).

(** A [Map] holds each key once. *)
Definition unique_keys (w : World) : Prop :=
  NoDup (List.map fst (processes w)).

(** The test of the loop of [clearProcesses], on an entry of the map. *)
Definition entry_running (w : World) (e : Js.str * nat) : bool :=
  match deref w (snd e) with
  | Some info => Status_eqb (status info) Running
  | None => true
  end.

(** Whether the loop of [clearProcesses] over [entries] deletes the key of
    [e]: some entry of [entries] has that key and is not running. *)
Definition deleted_by (w : World) (entries : list (Js.str * nat))
    (e : Js.str * nat) : bool :=
  existsb (fun e' => key_eqb (fst e') (fst e) && negb (entry_running w e'))
          entries.

(** The message of [clearProcesses] for a count. *)
Definition cleared_message (count : nat) : json :=
  JStr (Js.lit "Cleared " ++ Js.of_nat count ++ Js.lit " finished processes").

(* ===================================================================== *)
(** ** Scenarios *)
(* ===================================================================== *)

Module Scenario.

Definition p1 : Js.str := Js.lit "3f0c9a52-0001".
Definition p2 : Js.str := Js.lit "3f0c9a52-0002".

(** [start_command] of a long sleep with a one-second timeout. *)
Definition start_sleep : Action :=
  StartCommand (Js.lit "sleep 60") 1000 p1 (Some 4242)
               (Js.lit "2025-01-01T00:00:00.000Z").

(** The caller kills the process; the signal is delivered. *)
Definition kill_sleep : Action :=
  KillProcess p1 None (Js.lit "2025-01-01T00:00:00.500Z").

(** The process was started and killed by the caller, and has not closed
    yet. *)
Definition killed_world : option World :=
  run [start_sleep; kill_sleep] new_runner.

(** The timer of the process fires, the child has not closed yet. *)
Definition timed_out_world : option World :=
  run [start_sleep; OnTimeout 0] new_runner.

(** A second command that runs to completion, next to the first one, which
    keeps running. *)
Definition one_finished : list Action :=
  [ start_sleep;
    StartCommand (Js.lit "echo hi") 0 p2 (Some 4243)
                 (Js.lit "2025-01-01T00:00:01.000Z");
    OnStdout 1 (Js.lit "hi" ++ [Js.LF]);
    OnClose 1 (Some 0) (Js.lit "2025-01-01T00:00:01.020Z") ].

(** The engine after a trace ([new_runner] if the trace cannot happen). *)
Definition after (trace : list Action) : World :=
  default new_runner (run trace new_runner).

(** The record of the second command once it has closed. *)
Definition echo_info : ProcessInfo :=
  {| id := p2; command := Js.lit "echo hi"; status := Completed;
     stdout := Js.lit "hi" ++ [Js.LF]; stderr := [];
     exit_code := Some 0; error := None;
     started_at := Js.lit "2025-01-01T00:00:01.000Z";
     finished_at := Some (Js.lit "2025-01-01T00:00:01.020Z");
     timed_out := false; pid := Some 4243 |}.

(** The record of the first command while it runs. *)
Definition sleep_info : ProcessInfo :=
  {| id := p1; command := Js.lit "sleep 60"; status := Running;
     stdout := []; stderr := []; exit_code := None; error := None;
     started_at := Js.lit "2025-01-01T00:00:00.000Z";
     finished_at := None; timed_out := false; pid := Some 4242 |}.

(** A command whose shell cannot be launched. *)
Definition launch_error : list Blocking.Event :=
  [ Blocking.Error (Js.lit "spawn /bin/sh ENOENT") ].

End Scenario.

(* ===================================================================== *)
(** ** The life of a child, one turn at a time *)
(* ===================================================================== *)

(** The record [killProcess] leaves when the signal is delivered. *)
Definition killed_info (now : Js.str) (p : ProcessInfo) : ProcessInfo :=
  set_finished_at (Some now) (set_status Killed p).

(** What one turn can do to the child at [ref]: nothing, or the body of one
    of its own callbacks, or the two assignments of a delivered
    [killProcess]. *)
Inductive cell_step (ref : nat) : Action -> Child -> Child -> Prop :=
| cell_same a c :
    cell_step ref a c c
| cell_timeout c :
    timer_pending c = true ->
    cell_step ref (OnTimeout ref) c (timeout_callback c)
| cell_stdout data c :
    cell_step ref (OnStdout ref data) c (stdout_callback data c)
| cell_stderr data c :
    cell_step ref (OnStderr ref data) c (stderr_callback data c)
| cell_close code now c :
    cell_step ref (OnClose ref code now) c (close_callback code now c)
| cell_error message now c :
    cell_step ref (OnError ref message now) c (error_callback message now c)
| cell_kill processId now c :
    status (processInfo c) = Running ->
    cell_step ref (KillProcess processId None now) c
      (mkChild (killed_info now (processInfo c)) (timer_pending c)).

(** A callback of the child at [ref]. *)
Definition is_callback (ref : nat) (a : Action) : bool :=
  match a with
  | OnTimeout r | OnStdout r _ | OnStderr r _ | OnClose r _ _ | OnError r _ _ =>
      Nat.eqb r ref
  | _ => false
  end.

(** Every action of a trace is a callback of the child at [ref]. *)
Definition callbacks_of (ref : nat) (trace : list Action) : bool :=
  forallb (is_callback ref) trace.

(** What never changes in a record and what only grows: the identity
    fields stay, the buffers are extended at the end, a status that has left
    'running' does not return to it, a finish time stays set and a timer
    that is not pending stays so. *)
Definition evolves (c c' : Child) : Prop :=
  let p := processInfo c in
  let p' := processInfo c' in
  id p' = id p /\ command p' = command p /\ started_at p' = started_at p
  /\ pid p' = pid p
  /\ stdout p `prefix_of` stdout p'
  /\ stderr p `prefix_of` stderr p'
  /\ (status p <> Running -> status p' <> Running)
  /\ (finished_at p <> None -> finished_at p' <> None)
  /\ (timer_pending c = false -> timer_pending c' = false).

(** A child without a pending timer whose record shows no timeout. *)
Definition never_timed (c : Child) : Prop :=
  timer_pending c = false
  /\ timed_out (processInfo c) = false
  /\ status (processInfo c) <> TimedOut.

(** The [timed_out] flag and the status agree: status 'timed_out' has the
    flag, and the flag allows only status 'timed_out' or 'error'. *)
Definition flag_consistent (p : ProcessInfo) : Prop :=
  (status p = TimedOut -> timed_out p = true)
  /\ (timed_out p = true -> status p = TimedOut \/ status p = Error).

(** Every address in the registry is an address of the heap. *)
Definition refs_valid (w : World) : Prop :=
  List.Forall (fun e => (snd e < length (heap w))%nat) (processes w).

(** No two keys of the registry share a record. *)
Definition unique_refs (w : World) : Prop :=
  List.NoDup (List.map snd (processes w)).

Definition registry_sound (w : World) : Prop :=
  refs_valid w /\ unique_refs w.

(** The identifiers [uuidv4()] gave to the [startCommand] calls of a trace. *)
Fixpoint started_ids (trace : list Action) : list Js.str :=
  match trace with
  | [] => []
  | StartCommand _ _ uuid _ _ :: rest => uuid :: started_ids rest
  | _ :: rest => started_ids rest
  end.

(** How many times the child at [ref] reported 'close' in a trace. *)
Fixpoint closes (ref : nat) (trace : list Action) : nat :=
  match trace with
  | [] => 0
  | OnClose r _ _ :: rest =>
      ((if Nat.eqb r ref then 1 else 0) + closes ref rest)%nat
  | _ :: rest => closes ref rest
  end.

(** The exit code a record can hold after [n] 'close' callbacks: none
    before the first; after the first, 0 under 'completed' and anything but
    0 under 'failed'. *)
Definition code_consistent (n : nat) (p : ProcessInfo) : Prop :=
  match n with
  | O => exit_code p = None /\ status p <> Completed /\ status p <> Failed
  | S O => (status p = Completed -> exit_code p = Some 0)
           /\ (status p = Failed -> exit_code p <> Some 0)
  | _ => True
  end.

(** The six statuses, in the order of the tool description. *)
Definition all_statuses : list Status :=
  [Running; Completed; Failed; Killed; Error; TimedOut].

(** The [total] of a [listProcesses] answer. *)
Definition list_total (filter : option Js.str) (w : World) : Z :=
  match get_field "total" (fst (listProcesses filter w)) with
  | Some (JNum n) => n
  | _ => 0
  end.

(** The timer of a [runCommand] call is pending only while it has not
    fired, it has sent a signal exactly when it has fired, and it is not
    pending once a timeout, a 'close' or an 'error' was [seen]. *)
Definition timer_sound (seen : bool) (c : Blocking.Call) : Prop :=
  Blocking.sigterms c = (if Blocking.timedOut c then 1 else 0)%nat
  /\ (Blocking.timer_pending c = true -> Blocking.timedOut c = false)
  /\ (seen = true -> Blocking.timer_pending c = false).

(** A text that neither begins nor ends with a whitespace code unit. *)
Definition text_clean (s : Js.str) : Prop :=
  (forall c, head s = Some c -> Js.is_white c = false)
  /\ (forall c, last s = Some c -> Js.is_white c = false).

(** [out] is a contiguous piece of [buffer]. *)
Definition piece_of (out buffer : Js.str) : Prop :=
  exists before after, buffer = before ++ out ++ after.

(* ===================================================================== *)
(** ** The HTTP entry point: the port on the command line *)
(* ===================================================================== *)

(** The top of src/http-server.js: [PORT] starts at 8123, and every
    argument after the first two that starts with [--port=] sets it to
    [parseInt(arg.split('=')[1], 10)]; a value that is not a number ends
    the process with code 1. What [app.listen] does with the port is
    Express's and Node's business. *)
Module HttpServer.

(** A number as [parseInt] returns it. A magnitude above 2^53 is rounded to
    a double by JavaScript; the model does not follow it there ([Inexact]).
    Minus zero is zero. *)
Inductive number : Type :=
| NaN
| Int (z : Z)
| Inexact.

Definition max_exact : Z := 9007199254740992.

(** [s.startsWith(prefix)] *)
Fixpoint startsWith (prefix s : Js.str) : bool :=
  match prefix, s with
  | [], _ => true
  | p :: prefix', c :: s' => (p =? c)%N && startsWith prefix' s'
  | _ :: _, [] => false
  end.

(** A decimal digit, '0' to '9'. *)
Definition is_digit (c : N) : bool := ((48 <=? c) && (c <=? 57))%N.

Fixpoint take_while {A} (p : A -> bool) (l : list A) : list A :=
  match l with
  | [] => []
  | x :: l' => if p x then x :: take_while p l' else []
  end.

(** The value of a run of decimal digits. *)
Definition digits_value (digits : Js.str) : Z :=
  fold_left (fun acc c => 10 * acc + (Z.of_N c - 48)) digits 0.

(** [parseInt(s, 10)]: leading whitespace is skipped, one sign is read,
    then the longest run of decimal digits; without a digit the result is
    NaN. Radix 10 strips no [0x] prefix. *)
Definition parseInt (s : Js.str) : number :=
  let s := Js.trimStart s in
  let sign :=
    match s with
    | c :: _ => if (c =? 45)%N then -1 else 1
    | [] => 1
    end in
  let s :=
    match s with
    | c :: rest => if (c =? 45)%N || (c =? 43)%N then rest else s
    | [] => s
    end in
  match take_while is_digit s with
  | [] => NaN
  | digits =>
      let value := digits_value digits in
      if value <=? max_exact then Int (sign * value) else Inexact
  end.

(** [parseInt(arg.split('=')[1], 10)]; a missing second piece is
    [undefined], which parses to NaN. *)
Definition port_value (arg : Js.str) : number :=
  match nth_error (Js.split 61%N arg) 1 with
  | Some piece => parseInt piece
  | None => NaN
  end.

(** How the start of the server ends: [app.listen(PORT, ...)] or
    [process.exit(code)]. *)
Inductive Startup : Type :=
| Listen (PORT : number)
| Exit (code : Z).

(** The loop over [process.argv], from index 2 on. *)
Fixpoint scan (args : list Js.str) (PORT : number) : Startup :=
  match args with
  | [] => Listen PORT
  | arg :: rest =>
      if startsWith (Js.lit "--port=") arg then
        match port_value arg with
        | NaN => Exit 1
        | value => scan rest value
        end
      else scan rest PORT
  end.

Definition startup (argv : list Js.str) : Startup :=
  scan (skipn 2 argv) (Int 8123).

(** No code unit of a text is a decimal digit. *)
Definition no_digit (s : Js.str) : bool :=
  forallb (fun c => negb (is_digit c)) s.

(** A text that does not continue a run of digits. *)
Definition stops_digits (s : Js.str) : bool :=
  match s with
  | [] => true
  | c :: _ => negb (is_digit c)
  end.

(** No argument is a port argument. *)
Definition no_port_args (args : list Js.str) : bool :=
  forallb (fun arg => negb (startsWith (Js.lit "--port=") arg)) args.

End HttpServer.

(* ===================================================================== *)
(** ** The HTTP sessions of [MCPServer] *)
(* ===================================================================== *)

(** [handleGetRequest], [handlePostRequest] and [createErrorResponse] of
    the server class (src/unnamed/part_001, lines 203-300). The transports
    are the SDK's: the model names them by a number and takes from the
    environment what they do (whether [handleRequest] throws, which session
    id a new transport reports, what [isInitializeRequest] finds in the
    body). The table [this.transports] is a plain object, so a lookup also
    finds what [Object.prototype] provides. *)
Module Sessions.

(** What [this.transports[key]] finds: a transport stored under the key, or
    a member of [Object.prototype] (truthy, but no transport). *)
Inductive Slot : Type :=
| Own (transport : nat)
| Inherited.

(** The property names every plain object inherits. *)
Definition prototype_keys : list Js.str :=
  List.map Js.lit
    [ "constructor"; "__proto__"; "hasOwnProperty"; "isPrototypeOf";
      "propertyIsEnumerable"; "toLocaleString"; "toString"; "valueOf";
      "__defineGetter__"; "__defineSetter__"; "__lookupGetter__";
      "__lookupSetter__" ].

(** [this.transports[key]]; [None] is [undefined]. *)
Definition lookup (transports : list (Js.str * nat)) (key : Js.str)
  : option Slot :=
  match map_get key transports with
  | Some t => Some (Own t)
  | None =>
      if existsb (key_eqb key) prototype_keys then Some Inherited else None
  end.

(** [createErrorResponse(message)]; [uuid] is what [randomUUID()] returns. *)
Definition createErrorResponse (message : Js.str) (uuid : Js.str) : object :=
  prop "jsonrpc" (JStr (Js.lit "2.0"))
  ++ prop "error" (JObj (prop "code" (JNum (-32000))
                         ++ prop "message" (JStr message)))
  ++ prop "id" (JStr uuid).

Definition bad_request : Js.str :=
  Js.lit "Bad Request: invalid session ID or method.".

(** How a request ends: a transport takes it over, or the server answers
    with a status and a body, or an exception leaves the handler and nothing
    is answered. *)
Inductive Reply : Type :=
| Forward (transport : nat)
| Json (status : Z) (body : object)
| Unanswered.

(** What the environment contributes to a request: the value of the
    [mcp-session-id] header, whether a call into the SDK throws, what
    [isInitializeRequest(req.body)] says, the transport a [new
    StreamableHTTPServerTransport] would be and the session id it reports
    after the first request, and the next [randomUUID()]. *)
Record Request : Type := mkRequest {
  sessionId : option Js.str;
  throws : bool;
  is_initialize : bool;
  fresh_transport : nat;
  newSessionId : option Js.str;
  uuid : Js.str
}.

(** [handleGetRequest(req, res)] *)
Definition handleGetRequest (req : Request) (transports : list (Js.str * nat))
  : Reply * list (Js.str * nat) :=
  match (if truthy (sessionId req) then sessionId req else None) with
  | None => (Json 400 (createErrorResponse bad_request (uuid req)), transports)
  | Some key =>
      match lookup transports key with
      | None =>
          (Json 400 (createErrorResponse bad_request (uuid req)), transports)
      | Some (Own t) =>
          (if throws req then Unanswered else Forward t, transports)
      | Some Inherited => (Unanswered, transports)
      end
  end.

(** [handlePostRequest(req, res)]; everything thrown inside is caught and
    answered with status 500. A new session id is a [randomUUID()] (the
    [sessionIdGenerator] of the transport); it is stored as a key of the
    table, which is what the assignment does for every key but
    [__proto__]. *)
Definition handlePostRequest (req : Request) (transports : list (Js.str * nat))
  : Reply * list (Js.str * nat) :=
  let internal_error :=
    Json 500 (createErrorResponse (Js.lit "Internal server error.") (uuid req)) in
  let known :=
    match (if truthy (sessionId req) then sessionId req else None) with
    | Some key => lookup transports key
    | None => None
    end in
  match known with
  | Some (Own t) =>
      (if throws req then internal_error else Forward t, transports)
  | Some Inherited => (internal_error, transports)
  | None =>
      if negb (truthy (sessionId req)) && is_initialize req then
        if throws req then (internal_error, transports)
        else
          (Forward (fresh_transport req),
           match (if truthy (newSessionId req) then newSessionId req
                  else None) with
           | Some key => map_set key (fresh_transport req) transports
           | None => transports
           end)
      else (Json 400 (createErrorResponse bad_request (uuid req)), transports)
  end.

(** The two routes of src/http-server.js on [/mcp]. *)
Inductive Method : Type := GET | POST.

Definition route (m : Method) (req : Request)
    (transports : list (Js.str * nat)) : Reply * list (Js.str * nat) :=
  match m with
  | GET => handleGetRequest req transports
  | POST => handlePostRequest req transports
  end.

(** The table after a sequence of requests. *)
Fixpoint serve (requests : list (Method * Request))
    (transports : list (Js.str * nat)) : list (Js.str * nat) :=
  match requests with
  | [] => transports
  | (m, req) :: rest => serve rest (snd (route m req transports))
  end.

(** The session ids the new transports of a sequence of requests
    reported. *)
Fixpoint issued (requests : list (Method * Request)) : list Js.str :=
  match requests with
  | [] => []
  | (_, req) :: rest =>
      match newSessionId req with
      | Some key => key :: issued rest
      | None => issued rest
      end
  end.

(** No request of the sequence creates a session under [key]. *)
Definition never_reissued (key : Js.str) (requests : list (Method * Request))
  : bool :=
  forallb (fun r => match newSessionId (snd r) with
                    | Some k => negb (key_eqb k key)
                    | None => true
                    end) requests.

End Sessions.

(* ===================================================================== *)
(** ** Measures of a reported text *)
(* ===================================================================== *)

(** The number of lines of a text, counted on the text itself: one more
    than the number of its newline code units. *)
Definition line_count (s : Js.str) : nat :=
  S (count_occ N.eq_dec s Js.LF).

(** Every code unit of a text is whitespace. *)
Definition all_white (s : Js.str) : bool := forallb Js.is_white s.

(** What [getOutput] reports of a buffer, stated on the texts alone. The
    buffer is [dropped ++ before ++ out ++ after], where [before] and
    [after] are whitespace and [out] neither begins nor ends with a
    whitespace code unit. With [tail > 0] the part kept,
    [before ++ out ++ after], begins at a line of the buffer and has [tail]
    lines, or all the lines of the buffer when it has fewer; otherwise
    nothing is dropped. *)
Definition projects (tail : Z) (buffer out : Js.str) : Prop :=
  exists dropped before after,
    buffer = dropped ++ before ++ out ++ after
    /\ all_white before = true /\ all_white after = true
    /\ text_clean out
    /\ if 0 <? tail
       then (dropped = [] \/ last dropped = Some Js.LF)
            /\ line_count (before ++ out ++ after)
               = Nat.min (Z.to_nat tail) (line_count buffer)
       else dropped = [].

(** A turn that cannot change what [processId] finds, when it finds the
    record at [ref] and that record is not running: a [startCommand] under
    another identifier, a read, a [killProcess] (rejected for a record that
    is not running, and aimed at another record otherwise), a
    [clearProcesses] of another identifier, and the callbacks of other
    children. Left out: the callbacks of the child itself, a
    [startCommand] that reuses the identifier, a [clearProcesses] of the
    identifier or of everything that is finished. *)
Definition leaves_alone (processId : Js.str) (ref : nat) (a : Action) : bool :=
  match a with
  | StartCommand _ _ uuid _ _ => negb (key_eqb uuid processId)
  | GetOutput _ _ | ListProcesses _ | KillProcess _ _ _ => true
  | ClearProcesses (Some (c :: key)) => negb (key_eqb (c :: key) processId)
  | ClearProcesses _ => false
  | OnTimeout r | OnStdout r _ | OnStderr r _ | OnClose r _ _ | OnError r _ _ =>
      negb (Nat.eqb r ref)
  end.

(* ===================================================================== *)
(** ** The launch: when [spawn] throws *)
(* ===================================================================== *)

(** [startCommand] and [Blocking.runCommand] above follow the calls on
    which [spawn(command, [], { shell: true })] returns a child. [spawn] can
    also throw before anything is launched: Node refuses an empty command
    and a command with a NUL code unit, and the system can refuse the
    launch. Neither method catches it, so the promise the method returns is
    rejected with the error. This module adds that outcome. *)
Module Launch.

(** What [spawn] does: it returns a child ([child.pid] is [undefined] when
    the launch failed and the failure comes later, as the 'error' callback),
    or it throws an error with a message. *)
Inductive Spawn : Type :=
| Spawned (child_pid : option Z)
| SpawnThrew (message : Js.str).

(** The promise an [async] method returns, as its caller finds it. *)
Inductive Promise : Type :=
| Pending
| Fulfilled (value : object)
| Rejected (message : Js.str).



(** [startCommand(command, timeout)] with the outcome of [spawn]. When
    [spawn] throws, the identifier is already generated and the record is
    already registered (lines 20-36); the pid, the timer and the callbacks
    (lines 39-73) are never reached, and the caller gets a rejected
    promise. *)
Definition startCommand (command : Js.str) (timeout : Z) (uuid : Js.str)
    (spawn : Spawn) (now : Js.str) (w : World) : Promise * World :=
  match spawn with
  | Spawned child_pid =>
      (Fulfilled (fst (startCommand command timeout uuid child_pid now w)),
       snd (startCommand command timeout uuid child_pid now w))
  | SpawnThrew message =>
      let processId := uuid in
      let info :=
        {| id := processId; command := command; status := Running;
           stdout := []; stderr := []; exit_code := None; error := None;
           started_at := now; finished_at := None; timed_out := false;
           pid := None |} in
      (Rejected message,
       {| heap := heap w ++ [mkChild info false];
          processes := map_set processId (length (heap w)) (processes w);
          signals := signals w |})
  end.

(** [runCommand(command, timeout)] with the outcome of [spawn] and the
    callbacks that follow: the state of the returned promise, or [None] when
    the callbacks cannot happen (a timer that fires twice or after it was
    cleared; any callback at all when [spawn] threw, since the executor
    stops at line 326 and none is registered). *)
Definition runCommand (command : Js.str) (timeout : Z) (spawn : Spawn)
    (events : list Blocking.Event) : option Promise :=
  match spawn with
  | Spawned _ =>
      match Blocking.deliver_all command events Blocking.started with
      | Some c =>
          Some match Blocking.resolved c with
               | Some value => Fulfilled value
               | None => Pending
               end
      | None => None
      end
  | SpawnThrew message =>
      match events with
      | [] => Some (Rejected message)
      | _ :: _ => None
      end
  end.

End Launch.

(* ===================================================================== *)
(** ** More scenarios *)
(* ===================================================================== *)

Module Story.

(** The engine of [Scenario.one_finished]: the sleep runs (address 0, timer
    pending), the echo has closed (address 1). *)
Definition busy : World := Scenario.after Scenario.one_finished.

(** The sleep writes, then closes under SIGTERM, and the caller lists. *)
Definition sleep_ends : list Action :=
  [ OnStdout 0 (Js.lit "tick");
    OnClose 0 None (Js.lit "2025-01-01T00:00:03.000Z");
    ListProcesses None ].

Definition ended : World :=
  default new_runner (run sleep_ends busy).

(** The sleep closes under SIGTERM. *)
Definition close_sleep : Action :=
  OnClose 0 None (Js.lit "2025-01-01T00:00:03.000Z").

Definition closed : World :=
  default new_runner (step close_sleep busy).

(** Callbacks of the sleep that arrive after its entry was cleared. *)
Definition late_callbacks : list Action :=
  [ OnStdout 0 (Js.lit "late"); OnTimeout 0;
    OnClose 0 None (Js.lit "2025-01-01T00:00:03.000Z") ].

Definition sleep_cleared : World :=
  snd (clearProcesses (Some Scenario.p1) busy).

Definition sleep_cleared_late : World :=
  default new_runner (run late_callbacks sleep_cleared).

(** The caller kills the sleep at [now]. *)
Definition kill_time : Js.str := Js.lit "2025-01-01T00:00:02.000Z".

(** A command started without a timeout, on top of [busy]. *)
Definition start_server : Action :=
  StartCommand (Js.lit "node server.js") 0 (Js.lit "3f0c9a52-0003")
               (Some 4250) (Js.lit "2025-01-01T00:00:04.000Z").

(** The sleep was killed by the caller and has not closed yet. *)
Definition killed : World :=
  Scenario.after [Scenario.start_sleep; Scenario.kill_sleep].

Definition sleep_killed : ProcessInfo :=
  {| id := Scenario.p1; command := Js.lit "sleep 60"; status := Killed;
     stdout := []; stderr := []; exit_code := None; error := None;
     started_at := Js.lit "2025-01-01T00:00:00.000Z";
     finished_at := Some (Js.lit "2025-01-01T00:00:00.500Z");
     timed_out := false; pid := Some 4242 |}.

(** Before it dies the killed sleep still writes. *)
Definition late_output : Action := OnStdout 0 (Js.lit "late").

Definition killed_late : World :=
  default new_runner (step late_output killed).

(** The timer of the killed sleep fires before the child closes. *)
Definition flagged : World :=
  Scenario.after [Scenario.start_sleep; Scenario.kill_sleep; OnTimeout 0].

Definition sleep_flagged : ProcessInfo :=
  {| id := Scenario.p1; command := Js.lit "sleep 60"; status := TimedOut;
     stdout := []; stderr := []; exit_code := None; error := None;
     started_at := Js.lit "2025-01-01T00:00:00.000Z";
     finished_at := Some (Js.lit "2025-01-01T00:00:00.500Z");
     timed_out := true; pid := Some 4242 |}.

(** Turns that leave the finished echo alone: the sleep writes and closes,
    the caller tries to kill the echo, starts a third command and reads. *)
Definition around_echo : list Action :=
  [ OnStdout 0 (Js.lit "tick");
    KillProcess Scenario.p2 None (Js.lit "2025-01-01T00:00:02.000Z");
    StartCommand (Js.lit "node server.js") 0 (Js.lit "3f0c9a52-0003")
                 (Some 4250) (Js.lit "2025-01-01T00:00:04.000Z");
    OnClose 0 (Some 0) (Js.lit "2025-01-01T00:01:00.000Z");
    ListProcesses None ].

Definition after_around_echo : World :=
  default new_runner (run around_echo busy).


(** An initialize request without a session header; the new transport
    (number 0) reports a session id. *)
Definition session : Js.str := Js.lit "7c9e6679-7425-40de-944b-e07fc1f90ae7".

Definition init_post : Sessions.Request :=
  {| Sessions.sessionId := None; Sessions.throws := false;
     Sessions.is_initialize := true; Sessions.fresh_transport := 0;
     Sessions.newSessionId := Some session;
     Sessions.uuid := Js.lit "b2a6f1c0-0001" |}.

(** A later request that carries [header] as its session id. *)
Definition with_session (header : Js.str) : Sessions.Request :=
  {| Sessions.sessionId := Some header; Sessions.throws := false;
     Sessions.is_initialize := true; Sessions.fresh_transport := 1;
     Sessions.newSessionId := None;
     Sessions.uuid := Js.lit "b2a6f1c0-0002" |}.

End Story.

(* ===================================================================== *)
(** ** Facts about strings and arrays *)
(* ===================================================================== *)

Section JsFacts.
Variable sep : N.

Lemma split_length (s : Js.str) :
  length (Js.split sep s) = S (count_occ N.eq_dec s sep).
Proof.
  induction s as [|c s IH]; simpl; [reflexivity|].
  destruct (N.eqb_spec c sep) as [->|Hne].
  - simpl. rewrite IH. destruct (N.eq_dec sep sep); congruence.
  - destruct (N.eq_dec c sep); [contradiction|].
    destruct (Js.split sep s); simpl in *; [discriminate|exact IH].
Qed.

Lemma split_pieces (s : Js.str) :
  Forall (fun p => count_occ N.eq_dec p sep = 0%nat) (Js.split sep s).
Proof.
  induction s as [|c s IH]; simpl.
  - constructor; [reflexivity|constructor].
  - destruct (N.eqb_spec c sep) as [->|Hne].
    + constructor; [reflexivity|exact IH].
    + destruct (Js.split sep s) as [|p ps].
      * constructor; [|constructor]. simpl. destruct (N.eq_dec c sep); congruence.
      * inversion IH; subst. constructor; [|assumption].
        simpl. destruct (N.eq_dec c sep); congruence.
Qed.

Lemma join_count (ps : list Js.str) :
  Forall (fun p => count_occ N.eq_dec p sep = 0%nat) ps ->
  count_occ N.eq_dec (Js.join sep ps) sep = Nat.pred (length ps).
Proof.
  induction 1 as [|p ps Hp Hps IH]; [reflexivity|].
  destruct ps as [|q qs]; [exact Hp|].
  change (Js.join sep (p :: q :: qs)) with (p ++ sep :: Js.join sep (q :: qs)).
  rewrite count_occ_app, Hp, count_occ_cons_eq by reflexivity.
  rewrite IH. reflexivity.
Qed.

Lemma drop_while_count (p : N -> bool) (s : Js.str) :
  (count_occ N.eq_dec (Js.drop_while p s) sep <= count_occ N.eq_dec s sep)%nat.
Proof.
  induction s as [|c s IH]; simpl; [lia|].
  destruct (p c); simpl; [destruct (N.eq_dec c sep); lia | lia].
Qed.

Lemma trim_count (s : Js.str) :
  (count_occ N.eq_dec (Js.trim s) sep <= count_occ N.eq_dec s sep)%nat.
Proof.
  unfold Js.trim, Js.trimEnd, Js.trimStart.
  rewrite count_occ_rev.
  etransitivity; [apply drop_while_count|].
  rewrite count_occ_rev. apply drop_while_count.
Qed.
End JsFacts.

Lemma slice_last_length {A} (n : Z) (a : list A) :
  0 < n -> Z.of_nat (length (Js.slice (- n) a)) <= n.
Proof.
  intros Hn. unfold Js.slice.
  replace (- n <? 0) with true by (symmetry; apply Z.ltb_lt; lia).
  rewrite length_skipn. lia.
Qed.

Lemma slice_Forall {A} (P : A -> Prop) (k : Z) (a : list A) :
  Forall P a -> Forall P (Js.slice k a).
Proof. intros H. unfold Js.slice. apply Forall_drop. exact H. Qed.

Lemma tail_lines_bound (tail : Z) (buffer : Js.str) :
  0 < tail -> Z.of_nat (Js.lines (Js.trim (tail_lines tail buffer))) <= tail.
Proof.
  intros Hn. unfold Js.lines, tail_lines.
  replace (0 <? tail) with true by (symmetry; apply Z.ltb_lt; lia).
  rewrite split_length.
  pose proof (trim_count Js.LF
    (Js.join Js.LF (Js.slice (- tail) (Js.split Js.LF buffer)))) as Ht.
  rewrite join_count in Ht by (apply slice_Forall, split_pieces).
  pose proof (slice_last_length tail (Js.split Js.LF buffer) Hn). lia.
Qed.

(** The projection on small buffers: three lines cut to two, a final
    newline counted as an empty last line, and a tail larger than the
    buffer. *)
Example tail_two_of_three :
  Js.trim (tail_lines 2 (Js.lit "a" ++ [Js.LF] ++ Js.lit "b" ++ [Js.LF]
                         ++ Js.lit "c"))
  = Js.lit "b" ++ [Js.LF] ++ Js.lit "c".
Proof. reflexivity. Qed.

Example tail_one_after_newline :
  Js.trim (tail_lines 1 (Js.lit "hi" ++ [Js.LF])) = [].
Proof. reflexivity. Qed.

Example tail_larger_than_buffer :
  Js.trim (tail_lines 9 (Js.lit " a " ++ [Js.LF] ++ Js.lit "b "))
  = Js.lit "a " ++ [Js.LF] ++ Js.lit "b".
Proof. reflexivity. Qed.

(** [run("echo hi", 5000)] when the child prints and exits with code 0. *)
Example run_echo_hi :
  Blocking.runCommand (Js.lit "echo hi") 5000
    [Blocking.Stdout (Js.lit "hi" ++ [Js.LF]); Blocking.Close (Some 0)]
  = Some [ ("success", JBool true); ("exit_code", JNum 0);
           ("stdout", JStr (Js.lit "hi")); ("stderr", JStr []);
           ("timed_out", JBool false); ("command", JStr (Js.lit "echo hi")) ].
Proof. reflexivity. Qed.

(** [run("sleep 5", 100)] when the timer fires and the signal ends the
    child. *)
Example run_sleep_timeout :
  Blocking.runCommand (Js.lit "sleep 5") 100
    [Blocking.Timeout; Blocking.Close None]
  = Some [ ("success", JBool false); ("exit_code", JNull);
           ("stdout", JStr []); ("stderr", JStr []);
           ("timed_out", JBool true); ("command", JStr (Js.lit "sleep 5")) ].
Proof. reflexivity. Qed.

(* ===================================================================== *)
(** ** Facts about the registry and the event loop *)
(* ===================================================================== *)

(** *** The registry *)

Lemma key_eqb_eq (a b : Js.str) : key_eqb a b = true <-> a = b.
Proof. unfold key_eqb. apply bool_decide_eq_true. Qed.

Lemma key_eqb_refl (a : Js.str) : key_eqb a a = true.
Proof. apply key_eqb_eq. reflexivity. Qed.

Lemma map_get_set_same {V} (key : Js.str) (v : V) (m : list (Js.str * V)) :
  map_get key (map_set key v m) = Some v.
Proof.
  induction m as [|[k v'] m IH]; simpl.
  - rewrite key_eqb_refl. reflexivity.
  - destruct (key_eqb key k) eqn:E; simpl; rewrite E; [reflexivity|exact IH].
Qed.

Lemma map_set_keys {V} (key : Js.str) (v : V) (m : list (Js.str * V)) :
  List.map fst (map_set key v m)
  = if existsb (key_eqb key) (List.map fst m)
    then List.map fst m else List.map fst m ++ [key].
Proof.
  induction m as [|[k v'] m IH]; simpl; [reflexivity|].
  destruct (key_eqb key k) eqn:E; simpl; [reflexivity|].
  rewrite IH. destruct (existsb _ _); reflexivity.
Qed.

Lemma map_set_unique {V} (key : Js.str) (v : V) (m : list (Js.str * V)) :
  NoDup (List.map fst m) -> NoDup (List.map fst (map_set key v m)).
Proof.
  intros Hm. rewrite map_set_keys.
  destruct (existsb _ _) eqn:E; [exact Hm|].
  apply NoDup_app. split; [exact Hm|]. split.
  - intros k Hk Hin. apply list_elem_of_singleton in Hin. subst k.
    assert (existsb (key_eqb key) (List.map fst m) = true); [|congruence].
    apply existsb_exists. exists key. split.
    + apply list_elem_of_In. exact Hk.
    + apply key_eqb_refl.
  - apply NoDup_singleton.
Qed.

Lemma map_delete_keys {V} (key : Js.str) (m : list (Js.str * V)) :
  List.map fst (map_delete key m)
  = List.filter (fun k => negb (key_eqb key k)) (List.map fst m).
Proof.
  unfold map_delete. induction m as [|[k v] m IH]; simpl; [reflexivity|].
  destruct (key_eqb key k); simpl; rewrite IH; reflexivity.
Qed.

Lemma map_delete_unique {V} (key : Js.str) (m : list (Js.str * V)) :
  NoDup (List.map fst m) -> NoDup (List.map fst (map_delete key m)).
Proof.
  intros Hm. rewrite map_delete_keys.
  apply NoDup_ListNoDup. apply List.NoDup_filter. apply NoDup_ListNoDup. exact Hm.
Qed.

Lemma lookup_process_inv (processId : Js.str) (w : World) ref info :
  lookup_process processId w = Some (ref, info) ->
  map_get processId (processes w) = Some ref
  /\ exists c, heap w !! ref = Some c /\ processInfo c = info.
Proof.
  unfold lookup_process, deref.
  destruct (map_get processId (processes w)) as [r|]; [|discriminate].
  destruct (heap w !! r) as [c|] eqn:E; simpl; [|discriminate].
  intros [= <- <-]. split; [reflexivity|]. exists c. split; [exact E|reflexivity].
Qed.

(** *** The operations that only read *)

Lemma getOutput_world (processId : Js.str) (tail : Z) (w : World) :
  snd (getOutput processId tail w) = w.
Proof.
  unfold getOutput. destruct (lookup_process processId w) as [[ref info]|];
    reflexivity.
Qed.

Lemma listProcesses_world (filter : option Js.str) (w : World) :
  snd (listProcesses filter w) = w.
Proof. reflexivity. Qed.

(** *** The loop of [clearProcesses] *)

Lemma clear_loop_heap entries : forall w cleared,
  heap (fst (clear_loop entries w cleared)) = heap w
  /\ signals (fst (clear_loop entries w cleared)) = signals w.
Proof.
  induction entries as [|[key ref] rest IH]; intros w cleared; simpl;
    [split; reflexivity|].
  destruct (deref w ref) as [info|]; [|apply IH].
  destruct (negb _); [|apply IH].
  destruct (IH (delete_process key w) (S cleared)) as [H1 H2].
  rewrite H1, H2. split; reflexivity.
Qed.

Lemma clear_loop_unique entries : forall w cleared,
  unique_keys w -> unique_keys (fst (clear_loop entries w cleared)).
Proof.
  induction entries as [|[key ref] rest IH]; intros w cleared Hw; simpl;
    [exact Hw|].
  destruct (deref w ref) as [info|]; [|apply IH; exact Hw].
  destruct (negb _); [|apply IH; exact Hw].
  apply IH. unfold unique_keys, delete_process. simpl.
  apply map_delete_unique. exact Hw.
Qed.

Lemma clearProcesses_heap (processId : option Js.str) (w : World) :
  heap (snd (clearProcesses processId w)) = heap w
  /\ signals (snd (clearProcesses processId w)) = signals w.
Proof.
  unfold clearProcesses.
  destruct (if truthy processId then processId else None) as [key|].
  - destruct (lookup_process key w); split; reflexivity.
  - pose proof (clear_loop_heap (processes w) w 0%nat) as H.
    destruct (clear_loop (processes w) w 0%nat) as [w' n]. exact H.
Qed.

Lemma clearProcesses_unique (processId : option Js.str) (w : World) :
  unique_keys w -> unique_keys (snd (clearProcesses processId w)).
Proof.
  intros Hw. unfold clearProcesses.
  destruct (if truthy processId then processId else None) as [key|].
  - destruct (lookup_process key w); [|exact Hw].
    apply map_delete_unique. exact Hw.
  - pose proof (clear_loop_unique (processes w) w 0%nat Hw) as H.
    destruct (clear_loop (processes w) w 0%nat) as [w' n]. exact H.
Qed.

(** *** What a turn does to the registry and to the heap *)

Lemma killProcess_processes processId thrown now w :
  processes (snd (killProcess processId thrown now w)) = processes w.
Proof.
  unfold killProcess.
  destruct (lookup_process processId w) as [[ref info]|]; [|reflexivity].
  destruct (negb _); [reflexivity|]. destruct thrown; reflexivity.
Qed.

Lemma callback_processes a w w' :
  step a w = Some w' ->
  match a with
  | OnTimeout _ | OnStdout _ _ | OnStderr _ _ | OnClose _ _ _ | OnError _ _ _ =>
      processes w' = processes w
  | _ => True
  end.
Proof.
  destruct a; simpl; try (intros _; exact I);
    unfold on_timeout, on_stdout, on_stderr, on_close, on_error;
    destruct (heap w !! ref) as [c|]; try discriminate.
  - destruct (timer_pending c); [|discriminate]. intros [= <-]. reflexivity.
  - intros [= <-]. reflexivity.
  - intros [= <-]. reflexivity.
  - intros [= <-]. reflexivity.
  - intros [= <-]. reflexivity.
Qed.

Lemma step_unique a w w' :
  step a w = Some w' -> unique_keys w -> unique_keys w'.
Proof.
  intros Hs Hw. pose proof (callback_processes a w w' Hs) as Hc.
  destruct a; simpl in Hs; try (unfold unique_keys; rewrite Hc; exact Hw);
    injection Hs as <-.
  - unfold unique_keys. simpl. apply map_set_unique. exact Hw.
  - rewrite getOutput_world. exact Hw.
  - exact Hw.
  - unfold unique_keys. rewrite killProcess_processes. exact Hw.
  - apply clearProcesses_unique. exact Hw.
Qed.

Lemma run_unique trace : forall w w',
  run trace w = Some w' -> unique_keys w -> unique_keys w'.
Proof.
  induction trace as [|a rest IH]; intros w w' Hr Hw; simpl in Hr.
  - injection Hr as <-. exact Hw.
  - destruct (step a w) as [w1|] eqn:Hs; [|discriminate].
    eapply IH; [exact Hr|]. eapply step_unique; eauto.
Qed.

Lemma reachable_unique w : reachable w -> unique_keys w.
Proof.
  intros [trace Hr]. eapply run_unique; [exact Hr|]. constructor.
Qed.

(** *** The finish time along the event loop *)

Lemma status_eqb_eq (a b : Status) : Status_eqb a b = true <-> a = b.
Proof. destruct a, b; simpl; split; congruence. Qed.

Lemma exit_status_final (code : option Z) :
  exit_status code = Completed \/ exit_status code = Failed.
Proof. destruct code as [[| |]|]; simpl; auto. Qed.

Lemma close_callback_stamped code now c :
  finish_stamped (processInfo (close_callback code now c)).
Proof.
  unfold close_callback, finish_stamped. simpl.
  destruct (Status_eqb (status (processInfo c)) Running) eqn:E; simpl.
  - split; [|intros _ _; discriminate].
    intros _. destruct (exit_status_final code) as [-> | ->]; discriminate.
  - split; [|intros _ _; discriminate].
    intros _ H. apply status_eqb_eq in H. congruence.
Qed.

Lemma step_stamped a w w' :
  step a w = Some w' ->
  all_records finish_stamped w -> all_records finish_stamped w'.
Proof.
  unfold all_records. intros Hs Hw.
  destruct a; simpl in Hs.
  - injection Hs as <-. simpl. apply Forall_insert.
    + apply Forall_app. split; [exact Hw|].
      constructor; [|constructor]. split; simpl; congruence.
    + split; simpl; congruence.
  - injection Hs as <-. rewrite getOutput_world. exact Hw.
  - injection Hs as <-. exact Hw.
  - injection Hs as <-. unfold killProcess.
    destruct (lookup_process processId w) as [[ref info]|]; [|exact Hw].
    destruct (negb _); [exact Hw|]. destruct thrown; [exact Hw|]. simpl.
    apply Forall_alter; [exact Hw|]. intros c _ _. split; simpl; congruence.
  - injection Hs as <-.
    destruct (clearProcesses_heap processId w) as [-> _]. exact Hw.
  - unfold on_timeout in Hs. destruct (heap w !! ref) as [c|]; [|discriminate].
    destruct (timer_pending c); [|discriminate]. injection Hs as <-. simpl.
    apply Forall_insert; [exact Hw|]. split; simpl; congruence.
  - unfold on_stdout in Hs. destruct (heap w !! ref) as [c|] eqn:E; [|discriminate].
    injection Hs as <-. simpl. apply Forall_insert; [exact Hw|].
    exact (Forall_lookup_1 _ _ _ _ Hw E).
  - unfold on_stderr in Hs. destruct (heap w !! ref) as [c|] eqn:E; [|discriminate].
    injection Hs as <-. simpl. apply Forall_insert; [exact Hw|].
    exact (Forall_lookup_1 _ _ _ _ Hw E).
  - unfold on_close in Hs. destruct (heap w !! ref) as [c|]; [|discriminate].
    injection Hs as <-. simpl. apply Forall_insert; [exact Hw|].
    apply close_callback_stamped.
  - unfold on_error in Hs. destruct (heap w !! ref) as [c|]; [|discriminate].
    injection Hs as <-. simpl. apply Forall_insert; [exact Hw|].
    split; simpl; congruence.
Qed.

Lemma run_stamped trace : forall w w',
  run trace w = Some w' ->
  all_records finish_stamped w -> all_records finish_stamped w'.
Proof.
  induction trace as [|a rest IH]; intros w w' Hr Hw; simpl in Hr.
  - injection Hr as <-. exact Hw.
  - destruct (step a w) as [w1|] eqn:Hs; [|discriminate].
    eapply IH; [exact Hr|]. eapply step_stamped; eauto.
Qed.

Lemma tracked_in_heap w info :
  tracked w info -> exists ref c, heap w !! ref = Some c /\ processInfo c = info.
Proof.
  intros (processId & ref & H). apply lookup_process_inv in H.
  destruct H as [_ (c & Hc & Hi)]. eauto.
Qed.

(** *** [runCommand] *)

Module BlockingFacts.
Import Blocking.

Lemma deliver_all_app command (before rest : list Event) : forall c,
  deliver_all command (before ++ rest) c
  = match deliver_all command before c with
    | Some c' => deliver_all command rest c'
    | None => None
    end.
Proof.
  induction before as [|e before IH]; intros c; simpl; [reflexivity|].
  destruct (deliver command e c); [apply IH|reflexivity].
Qed.

Lemma resolve_locals value c :
  stdout (resolve value c) = stdout c
  /\ stderr (resolve value c) = stderr c
  /\ timedOut (resolve value c) = timedOut c.
Proof. unfold resolve. destruct (resolved c); simpl; auto. Qed.

(** What the locals of a call hold after a run of callbacks. *)
Lemma deliver_all_locals command (events : list Event) : forall c c',
  deliver_all command events c = Some c' ->
  stdout c' = stdout c ++ captured_stdout events
  /\ stderr c' = stderr c ++ captured_stderr events
  /\ timedOut c' = timedOut c || existsb is_timeout events.
Proof.
  induction events as [|e events IH]; intros c c' H; simpl in H.
  - injection H as <-. simpl. rewrite !app_nil_r, orb_false_r. auto.
  - destruct (deliver command e c) as [c1|] eqn:E; [|discriminate].
    destruct (IH _ _ H) as (H1 & H2 & H3). rewrite H1, H2, H3.
    destruct e; simpl in E.
    + destruct (timer_pending c); [|discriminate]. injection E as <-. simpl.
      rewrite orb_true_r. auto.
    + injection E as <-. simpl. rewrite <- app_assoc. auto.
    + injection E as <-. simpl. rewrite <- app_assoc. auto.
    + injection E as <-.
      destruct (resolve_locals (close_result command code (clearTimeout c))
                  (clearTimeout c)) as (-> & -> & ->). simpl. auto.
    + injection E as <-.
      destruct (resolve_locals (error_result command message (clearTimeout c))
                  (clearTimeout c)) as (-> & -> & ->). simpl. auto.
Qed.

(** The promise stays pending as long as neither 'close' nor 'error' ran. *)
Lemma deliver_all_pending command (events : list Event) : forall c c',
  deliver_all command events c = Some c' ->
  resolved c = None -> existsb is_resolver events = false ->
  resolved c' = None.
Proof.
  induction events as [|e events IH]; intros c c' H Hc He; simpl in H.
  - injection H as <-. exact Hc.
  - destruct (deliver command e c) as [c1|] eqn:E; [|discriminate].
    simpl in He. apply orb_false_iff in He. destruct He as [He1 He2].
    apply (IH c1 c' H); [|exact He2].
    destruct e; simpl in E, He1; try discriminate.
    + destruct (timer_pending c); [|discriminate]. injection E as <-. exact Hc.
    + injection E as <-. exact Hc.
    + injection E as <-. exact Hc.
Qed.

End BlockingFacts.

(** *** Reading back what was stored *)

Lemma lookup_process_store processId ref c c0 w :
  map_get processId (processes w) = Some ref ->
  heap w !! ref = Some c0 ->
  lookup_process processId (store ref c w) = Some (ref, processInfo c).
Proof.
  intros Hm Hh. unfold lookup_process, deref, store. simpl. rewrite Hm.
  rewrite list_lookup_insert_eq by (eapply lookup_lt_Some; exact Hh).
  reflexivity.
Qed.

Lemma startCommand_registered command timeout uuid child_pid now w :
  lookup_process uuid (snd (startCommand command timeout uuid child_pid now w))
  = Some (length (heap w),
          {| id := uuid; command := command; status := Running;
             stdout := []; stderr := []; exit_code := None; error := None;
             started_at := now; finished_at := None; timed_out := false;
             pid := child_pid |}).
Proof.
  unfold startCommand. simpl.
  erewrite lookup_process_store; [reflexivity| |].
  - simpl. apply map_get_set_same.
  - simpl. apply list_lookup_middle. reflexivity.
Qed.

(** *** [clearProcesses] without an identifier *)

Lemma filter_filter {A} (f g : A -> bool) (l : list A) :
  List.filter f (List.filter g l) = List.filter (fun x => g x && f x) l.
Proof.
  induction l as [|x l IH]; simpl; [reflexivity|].
  destruct (g x); simpl; [destruct (f x)|]; rewrite IH; reflexivity.
Qed.

Lemma filter_complement_length {A} (f : A -> bool) (l : list A) :
  (length l - length (List.filter f l))%nat
  = length (List.filter (fun x => negb (f x)) l).
Proof.
  induction l as [|x l IH]; simpl; [reflexivity|].
  pose proof (List.filter_length_le f l).
  destruct (f x); simpl; lia.
Qed.

Lemma clear_loop_spec entries : forall w cleared,
  processes (fst (clear_loop entries w cleared))
  = List.filter (fun e => negb (deleted_by w entries e)) (processes w)
  /\ snd (clear_loop entries w cleared)
     = (cleared
        + length (List.filter (fun e => negb (entry_running w e)) entries))%nat.
Proof.
  induction entries as [|[key ref] rest IH]; intros w cleared.
  - simpl. split; [|lia]. symmetry. apply forallb_filter_id.
    apply forallb_forall. reflexivity.
  - assert (forall (b : bool), entry_running w (key, ref) = b ->
            (if b then clear_loop rest w cleared
             else clear_loop rest (delete_process key w) (S cleared))
            = clear_loop ((key, ref) :: rest) w cleared) as Hstep.
    { intros b <-. simpl. unfold entry_running. simpl.
      destruct (deref w ref) as [info|]; [|reflexivity].
      destruct (Status_eqb (status info) Running); reflexivity. }
    rewrite <- (Hstep _ eq_refl).
    destruct (entry_running w (key, ref)) eqn:E.
    + destruct (IH w cleared) as [H1 H2]. rewrite H1, H2. split.
      * apply List.filter_ext. intros e. unfold deleted_by. simpl.
        rewrite E. simpl. rewrite andb_false_r. reflexivity.
      * simpl. rewrite E. reflexivity.
    + destruct (IH (delete_process key w) (S cleared)) as [H1 H2].
      rewrite H1, H2. split.
      * simpl. unfold map_delete. rewrite filter_filter.
        apply List.filter_ext. intros e. unfold deleted_by. simpl.
        rewrite E. simpl. rewrite andb_true_r, negb_orb. reflexivity.
      * simpl. rewrite E. simpl.
        change (fun e => negb (entry_running (delete_process key w) e))
          with (fun e => negb (entry_running w e)).
        lia.
Qed.

Lemma existsb_key_absent {V} (g : Js.str * V -> bool) key (m : list (Js.str * V)) :
  ~ In key (List.map fst m) ->
  existsb (fun e' => key_eqb (fst e') key && g e') m = false.
Proof.
  induction m as [|e m IH]; simpl; [reflexivity|]. intros Hn.
  rewrite IH by tauto.
  destruct (key_eqb (fst e) key) eqn:E; [|reflexivity].
  apply key_eqb_eq in E. tauto.
Qed.

Lemma existsb_key_unique {V} (g : Js.str * V -> bool) (m : list (Js.str * V)) :
  List.NoDup (List.map fst m) ->
  forall e, In e m ->
  existsb (fun e' => key_eqb (fst e') (fst e) && g e') m = g e.
Proof.
  induction m as [|e0 m IH]; simpl; [tauto|]. intros Hn e [->|Hin].
  - inversion Hn; subst. rewrite key_eqb_refl. simpl.
    rewrite existsb_key_absent by assumption. apply orb_false_r.
  - inversion Hn as [|? ? Hnot Hnd]; subst.
    rewrite IH by assumption.
    destruct (key_eqb (fst e0) (fst e)) eqn:E; [|reflexivity].
    apply key_eqb_eq in E. exfalso. apply Hnot. rewrite E.
    apply in_map. exact Hin.
Qed.

(* ===================================================================== *)
(** ** The callbacks and the status of a record *)
(* ===================================================================== *)

(** The 'close' callback writes the status only while it is 'running'. *)
Lemma close_callback_keeps_status code now c :
  status (processInfo c) <> Running ->
  status (processInfo (close_callback code now c)) = status (processInfo c).
Proof.
  intros H. unfold close_callback. simpl.
  destruct (Status_eqb (status (processInfo c)) Running) eqn:E; [|reflexivity].
  apply status_eqb_eq in E. contradiction.
Qed.

(** The 'error' callback writes the status whatever it was. *)
Lemma error_callback_status message now c :
  status (processInfo (error_callback message now c)) = Error.
Proof. reflexivity. Qed.

(** The timer callback writes the status whatever it was, and leaves the
    finish time as it was. *)
Lemma timeout_callback_status c :
  status (processInfo (timeout_callback c)) = TimedOut
  /\ finished_at (processInfo (timeout_callback c))
     = finished_at (processInfo c).
Proof. split; reflexivity. Qed.

(** C1. The claim: once the status of a tracked record has left 'running',
    no later exit, error or timeout callback changes it. The 'close'
    callback keeps it ([close_callback_keeps_status]); the timer and 'error'
    callbacks do not. A process started with a timeout and killed by the
    caller has status 'killed'; [killProcess] leaves the timer pending, so
    the timer can still fire, and the status becomes 'timed_out'; an 'error'
    callback after that makes it 'error'. *)
Theorem finalizers_overwrite_status :
  exists w info,
    Scenario.killed_world = Some w
    /\ lookup_process Scenario.p1 w = Some (0%nat, info)
    /\ status info = Killed
    /\ exists w1 info1,
         step (OnTimeout 0) w = Some w1
         /\ lookup_process Scenario.p1 w1 = Some (0%nat, info1)
         /\ status info1 = TimedOut
         /\ exists w2 info2,
              step (OnError 0 (Js.lit "kill EPERM")
                            (Js.lit "2025-01-01T00:00:01.000Z")) w1
              = Some w2
              /\ lookup_process Scenario.p1 w2 = Some (0%nat, info2)
              /\ status info2 = Error.
Proof.
  eexists. eexists. split; [vm_compute; reflexivity|].
  split; [vm_compute; reflexivity|]. split; [reflexivity|].
  eexists. eexists. split; [vm_compute; reflexivity|].
  split; [vm_compute; reflexivity|]. split; [reflexivity|].
  eexists. eexists. split; [vm_compute; reflexivity|].
  split; [vm_compute; reflexivity|]. reflexivity.
Qed.

(* ===================================================================== *)
(** ** The finish time *)
(* ===================================================================== *)

(** C2. The claim: the finish time of a tracked record is set exactly when
    its status is not 'running', every callback that moves the status out
    of 'running' stamping it in the same step. [killProcess] (lines 223-224)
    and the 'error' callback (lines 71-72) do stamp it with the status; the
    timer callback (lines 44-48) assigns the status and misses the stamp.
    After the timer of a running process has fired and before the child
    closes, the tracked record has status 'timed_out' and no finish
    time. *)
Lemma finished_at_null_after_timeout :
  exists w info,
    Scenario.timed_out_world = Some w
    /\ lookup_process Scenario.p1 w = Some (0%nat, info)
    /\ status info = TimedOut
    /\ finished_at info = None
    /\ ~ finished_iff_not_running info.
Proof.
  eexists. eexists. split; [vm_compute; reflexivity|].
  split; [vm_compute; reflexivity|]. split; [reflexivity|].
  split; [reflexivity|].
  unfold finished_iff_not_running. simpl. intros [_ H].
  apply H; [discriminate|reflexivity].
Qed.

(** X27. What the code does keep of the finish time: for every tracked
    record of every reachable engine, a finish time implies that the status
    is not 'running', and a status other than 'running' and 'timed_out'
    implies a finish time. *)
Theorem finished_at_stamped (w : World) (info : ProcessInfo) :
  reachable w -> tracked w info ->
  (finished_at info <> None -> status info <> Running)
  /\ (status info <> Running -> status info <> TimedOut ->
      finished_at info <> None).
Proof.
  intros [trace Hr] Ht.
  destruct (tracked_in_heap w info Ht) as (ref & c & Hc & <-).
  assert (all_records finish_stamped w) as Hall.
  { eapply run_stamped; [exact Hr|]. constructor. }
  exact (Forall_lookup_1 _ _ _ _ Hall Hc).
Qed.

Lemma finished_at_stamped_witness :
  reachable (Scenario.after Scenario.one_finished)
  /\ tracked (Scenario.after Scenario.one_finished) Scenario.echo_info
  /\ (status Scenario.echo_info <> Running ->
      status Scenario.echo_info <> TimedOut ->
      finished_at Scenario.echo_info <> None).
Proof.
  assert (reachable (Scenario.after Scenario.one_finished)) as Hr.
  { exists Scenario.one_finished. vm_compute. reflexivity. }
  assert (tracked (Scenario.after Scenario.one_finished) Scenario.echo_info)
    as Ht.
  { exists Scenario.p2, 1%nat. vm_compute. reflexivity. }
  split; [exact Hr|]. split; [exact Ht|].
  exact (proj2 (finished_at_stamped _ _ Hr Ht)).
Defined.

(* ===================================================================== *)
(** ** The results of [runCommand] *)
(* ===================================================================== *)

(** C3. When the 'close' callback is the one that settles the promise (no
    'close' or 'error' ran before it), the result has [success = true]
    exactly when the exit code is 0 and the timer did not fire before the
    close; [exit_code] is the reported code and [timed_out] tells whether
    the timer fired. In particular exit code 0 without a timeout gives
    [success = true], [exit_code = 0], [timed_out = false]. *)
Theorem runCommand_success_iff (command : Js.str) (timeout : Z)
    (before : list Blocking.Event) (code : option Z) (c : Blocking.Call) :
  Blocking.deliver_all command before Blocking.started = Some c ->
  existsb Blocking.is_resolver before = false ->
  exists result,
    Blocking.runCommand command timeout (before ++ [Blocking.Close code])
    = Some result
    /\ (get_field "success" result = Some (JBool true)
        <-> code = Some 0 /\ existsb Blocking.is_timeout before = false)
    /\ get_field "exit_code" result = Some (num_or_null code)
    /\ get_field "timed_out" result
       = Some (JBool (existsb Blocking.is_timeout before))
    /\ (code = Some 0 -> existsb Blocking.is_timeout before = false ->
        get_field "success" result = Some (JBool true)
        /\ get_field "exit_code" result = Some (JNum 0)
        /\ get_field "timed_out" result = Some (JBool false)).
Proof.
  intros Hrun Hres.
  pose proof (BlockingFacts.deliver_all_locals _ _ _ _ Hrun) as (_ & _ & Ht).
  pose proof (BlockingFacts.deliver_all_pending _ _ _ _ Hrun eq_refl Hres) as Hp.
  simpl in Ht.
  eexists. split.
  - unfold Blocking.runCommand. rewrite BlockingFacts.deliver_all_app, Hrun.
    simpl. unfold Blocking.resolve. simpl. rewrite Hp. simpl. reflexivity.
  - simpl. rewrite Ht.
    split; [|split; [reflexivity|split; [reflexivity|]]].
    + split.
      * intros Hs. injection Hs as Hs. apply andb_true_iff in Hs.
        destruct Hs as [H1 H2]. apply negb_true_iff in H1.
        destruct code as [[| |]|]; simpl in H2; try discriminate.
        split; [reflexivity|exact H1].
      * intros [-> ->]. reflexivity.
    + intros -> ->. repeat split.
Qed.

Lemma runCommand_success_iff_witness :
  Blocking.deliver_all (Js.lit "echo hi") [Blocking.Stdout (Js.lit "hi")]
     Blocking.started
  = Some {| Blocking.stdout := Js.lit "hi"; Blocking.stderr := [];
            Blocking.timedOut := false; Blocking.timer_pending := true;
            Blocking.sigterms := 0; Blocking.resolved := None |}
  /\ existsb Blocking.is_resolver [Blocking.Stdout (Js.lit "hi")] = false
  /\ exists result,
      Blocking.runCommand (Js.lit "echo hi") 5000
        ([Blocking.Stdout (Js.lit "hi")] ++ [Blocking.Close (Some 0)])
      = Some result
      /\ get_field "success" result = Some (JBool true).
Proof.
  split; [reflexivity|]. split; [reflexivity|].
  destruct (runCommand_success_iff (Js.lit "echo hi") 5000
              [Blocking.Stdout (Js.lit "hi")] (Some 0) _ eq_refl eq_refl)
    as (result & Hr & _ & _ & _ & Hok).
  exists result. split; [exact Hr|]. apply Hok; reflexivity.
Defined.




(* ===================================================================== *)
(** ** [getOutput] *)
(* ===================================================================== *)

(** C6. Whatever the engine holds and whatever the spawn gives, after
    [startCommand] the registry holds a record in state 'running' under the
    identifier the call answers, and [getOutput] with that identifier does
    not answer 'Process not found': it answers [success = true] with status
    'running'. *)
Theorem startCommand_then_getOutput (command : Js.str) (timeout : Z)
    (uuid : Js.str) (child_pid : option Z) (now : Js.str) (tail : Z)
    (w : World) :
  let started := startCommand command timeout uuid child_pid now w in
  let answer := fst (getOutput uuid tail (snd started)) in
  get_field "process_id" (fst started) = Some (JStr uuid)
  /\ (exists info,
        lookup_process uuid (snd started) = Some (length (heap w), info)
        /\ status info = Running)
  /\ answer <> not_found uuid
  /\ get_field "success" answer = Some (JBool true)
  /\ get_field "status" answer = Some (JStr (Js.lit "running")).
Proof.
  intros started answer. subst answer started.
  pose proof (startCommand_registered command timeout uuid child_pid now w) as Hl.
  split; [reflexivity|].
  split; [eexists; split; [exact Hl|reflexivity]|].
  unfold getOutput. rewrite Hl. simpl.
  split; [discriminate|]. split; [reflexivity|].
  destruct child_pid; reflexivity.
Qed.

(* ===================================================================== *)
(** ** [killProcess] *)
(* ===================================================================== *)

(** C7. When [process.kill] throws for a running tracked record,
    [killProcess] answers [success = false] with the message of the error,
    and the heap and the registry are what they were: the record keeps every
    field, status and finish time included. Only the log of signals grows,
    by the attempt. *)
Theorem killProcess_signal_failure (processId : Js.str) (message now : Js.str)
    (w : World) (ref : nat) (info : ProcessInfo) :
  lookup_process processId w = Some (ref, info) ->
  status info = Running ->
  let result := killProcess processId (Some message) now w in
  fst result = [ ("success", JBool false);
                 ("error", JStr message);
                 ("process_id", JStr processId) ]
  /\ heap (snd result) = heap w
  /\ processes (snd result) = processes w
  /\ lookup_process processId (snd result) = Some (ref, info)
  /\ signals (snd result) = signals w ++ [ProcessKill (pid info)].
Proof.
  intros Hl Hs result. subst result. unfold killProcess.
  rewrite Hl, Hs. simpl. repeat split. exact Hl.
Qed.

Lemma killProcess_signal_failure_witness :
  lookup_process Scenario.p1 (Scenario.after Scenario.one_finished)
  = Some (0%nat, Scenario.sleep_info)
  /\ status Scenario.sleep_info = Running
  /\ lookup_process Scenario.p1
       (snd (killProcess Scenario.p1 (Some (Js.lit "kill ESRCH"))
               (Js.lit "2025-01-01T00:00:02.000Z")
               (Scenario.after Scenario.one_finished)))
     = Some (0%nat, Scenario.sleep_info).
Proof.
  assert (lookup_process Scenario.p1 (Scenario.after Scenario.one_finished)
          = Some (0%nat, Scenario.sleep_info)) as Hl.
  { vm_compute. reflexivity. }
  split; [exact Hl|]. split; [reflexivity|].
  destruct (killProcess_signal_failure Scenario.p1 (Js.lit "kill ESRCH")
              (Js.lit "2025-01-01T00:00:02.000Z") _ _ _ Hl eq_refl)
    as (_ & _ & _ & Hsame & _).
  exact Hsame.
Defined.

(** C8. [killProcess] with an identifier the registry does not hold answers
    'Process not found'; with a tracked record that is not running it
    answers 'Process is not running'. In both cases the engine is unchanged:
    no signal is logged and no field of the record, the finish time
    included, is written. *)
Theorem killProcess_rejected (processId : Js.str) (thrown : option Js.str)
    (now : Js.str) (w : World) :
  (map_get processId (processes w) = None ->
   killProcess processId thrown now w = (not_found processId, w))
  /\ (forall ref info,
        lookup_process processId w = Some (ref, info) ->
        status info <> Running ->
        killProcess processId thrown now w
        = ([ ("success", JBool false);
             ("error", JStr (Js.lit "Process is not running"));
             ("process_id", JStr processId);
             ("status", JStr (status_str (status info))) ],
           w)).
Proof.
  split.
  - intros Hm. unfold killProcess, lookup_process. rewrite Hm. reflexivity.
  - intros ref info Hl Hs. unfold killProcess. rewrite Hl.
    destruct (Status_eqb (status info) Running) eqn:E; [|reflexivity].
    destruct (status info); simpl in E; congruence.
Qed.

Lemma killProcess_rejected_witness :
  map_get (Js.lit "no-such-id")
          (processes (Scenario.after Scenario.one_finished)) = None
  /\ lookup_process Scenario.p2 (Scenario.after Scenario.one_finished)
     = Some (1%nat, Scenario.echo_info)
  /\ status Scenario.echo_info <> Running
  /\ snd (killProcess (Js.lit "no-such-id") None (Js.lit "t")
            (Scenario.after Scenario.one_finished))
     = Scenario.after Scenario.one_finished
  /\ snd (killProcess Scenario.p2 None (Js.lit "t")
            (Scenario.after Scenario.one_finished))
     = Scenario.after Scenario.one_finished.
Proof.
  assert (map_get (Js.lit "no-such-id")
            (processes (Scenario.after Scenario.one_finished)) = None) as Hn.
  { vm_compute. reflexivity. }
  assert (lookup_process Scenario.p2 (Scenario.after Scenario.one_finished)
          = Some (1%nat, Scenario.echo_info)) as Hl.
  { vm_compute. reflexivity. }
  assert (status Scenario.echo_info <> Running) as Hs by discriminate.
  split; [exact Hn|]. split; [exact Hl|]. split; [exact Hs|]. split.
  - rewrite (proj1 (killProcess_rejected (Js.lit "no-such-id") None
                      (Js.lit "t") _) Hn). reflexivity.
  - rewrite (proj2 (killProcess_rejected Scenario.p2 None (Js.lit "t") _)
               _ _ Hl Hs). reflexivity.
Defined.

(* ===================================================================== *)
(** ** [clearProcesses] *)
(* ===================================================================== *)

(** C9. In a reachable engine, [clearProcesses] without an identifier leaves
    in the registry exactly the entries whose record is running, in their
    order, and touches no record; the count in its message is the number of
    entries removed, which is the number of entries that were not
    running. *)
Theorem clearProcesses_all (w : World) :
  reachable w ->
  let result := clearProcesses None w in
  processes (snd result) = List.filter (entry_running w) (processes w)
  /\ heap (snd result) = heap w
  /\ get_field "message" (fst result)
     = Some (cleared_message
               (length (processes w) - length (processes (snd result))))
  /\ (length (processes w) - length (processes (snd result)))%nat
     = length (List.filter (fun e => negb (entry_running w e)) (processes w)).
Proof.
  intros Hr result. subst result. apply reachable_unique in Hr.
  unfold clearProcesses. simpl.
  destruct (clear_loop_spec (processes w) w 0%nat) as [H1 H2].
  destruct (clear_loop_heap (processes w) w 0%nat) as [H3 _].
  destruct (clear_loop (processes w) w 0%nat) as [w' cleared]. simpl in *.
  assert (processes w' = List.filter (entry_running w) (processes w)) as Hp.
  { rewrite H1. apply List.filter_ext_in. intros e He. unfold deleted_by.
    rewrite existsb_key_unique; [apply negb_involutive| |exact He].
    apply NoDup_ListNoDup. exact Hr. }
  split; [exact Hp|]. split; [exact H3|].
  rewrite Hp, filter_complement_length, H2. split; reflexivity.
Qed.

Lemma clearProcesses_all_witness :
  reachable (Scenario.after Scenario.one_finished)
  /\ processes (snd (clearProcesses None (Scenario.after Scenario.one_finished)))
     = [(Scenario.p1, 0%nat)]
  /\ get_field "message"
       (fst (clearProcesses None (Scenario.after Scenario.one_finished)))
     = Some (JStr (Js.lit "Cleared 1 finished processes")).
Proof.
  assert (reachable (Scenario.after Scenario.one_finished)) as Hr.
  { exists Scenario.one_finished. vm_compute. reflexivity. }
  split; [exact Hr|].
  destruct (clearProcesses_all _ Hr) as (Hp & _ & Hm & _).
  split.
  - rewrite Hp. vm_compute. reflexivity.
  - rewrite Hm. vm_compute. reflexivity.
Defined.

(* ===================================================================== *)
(** ** The answer of [startCommand] *)
(* ===================================================================== *)



(** The engine a throwing [spawn] leaves is the engine of a start without
    timer whose child has no pid: the traces of [run] cover it, with
    [StartCommand command 0 uuid None now]. *)
Lemma spawn_threw_world (command : Js.str) (timeout : Z) (uuid : Js.str)
    (message : Js.str) (now : Js.str) (w : World) :
  snd (Launch.startCommand command timeout uuid (Launch.SpawnThrew message)
         now w)
  = snd (startCommand command 0 uuid None now w).
Proof.
  unfold startCommand, store. cbn [Launch.startCommand snd heap processes signals].
  f_equal. symmetry.
  rewrite insert_app_r_alt by reflexivity.
  rewrite Nat.sub_diag. reflexivity.
Qed.

(* ===================================================================== *)
(** ** One turn, seen from one child *)
(* ===================================================================== *)

Lemma store_cell ref ref' c c0 w :
  heap w !! ref' = Some c0 ->
  heap (store ref c w) !! ref'
  = Some (if decide (ref = ref') then c else c0).
Proof.
  intros Hc. unfold store. simpl. destruct (decide (ref = ref')) as [->|Hne].
  - apply list_lookup_insert_eq. eapply lookup_lt_Some. exact Hc.
  - rewrite list_lookup_insert_ne by exact Hne. exact Hc.
Qed.

Lemma killProcess_cell processId thrown now w ref c :
  heap w !! ref = Some c ->
  exists c', heap (snd (killProcess processId thrown now w)) !! ref = Some c'
             /\ cell_step ref (KillProcess processId thrown now) c c'.
Proof.
  intros Hc. unfold killProcess.
  destruct (lookup_process processId w) as [[r info]|] eqn:Hl;
    [|eexists; split; [exact Hc|constructor]].
  destruct (Status_eqb (status info) Running) eqn:Hs; simpl;
    [|eexists; split; [exact Hc|constructor]].
  destruct thrown; simpl; [eexists; split; [exact Hc|constructor]|].
  apply lookup_process_inv in Hl. destruct Hl as (_ & c0 & Hc0 & <-).
  apply status_eqb_eq in Hs.
  destruct (decide (r = ref)) as [->|Hne].
  - rewrite list_lookup_alter_eq, Hc. simpl. eexists. split; [reflexivity|].
    rewrite Hc in Hc0. injection Hc0 as ->. apply cell_kill. exact Hs.
  - rewrite list_lookup_alter_ne by exact Hne.
    eexists; split; [exact Hc|constructor].
Qed.

(** Every turn takes the child at an address to a child at the same
    address, by one of the cases of [cell_step]. *)
Lemma step_cell_cases a w w' ref c :
  step a w = Some w' -> heap w !! ref = Some c ->
  exists c', heap w' !! ref = Some c' /\ cell_step ref a c c'.
Proof.
  intros Hs Hc. destruct a; simpl in Hs.
  - injection Hs as <-. simpl.
    assert (ref < length (heap w))%nat as Hlt by (eapply lookup_lt_Some; eauto).
    rewrite list_lookup_insert_ne by lia.
    rewrite lookup_app_l by exact Hlt. eexists; split; [exact Hc|constructor].
  - injection Hs as <-. rewrite getOutput_world.
    eexists; split; [exact Hc|constructor].
  - injection Hs as <-. eexists; split; [exact Hc|constructor].
  - injection Hs as <-. apply killProcess_cell. exact Hc.
  - injection Hs as <-.
    destruct (clearProcesses_heap processId w) as [-> _].
    eexists; split; [exact Hc|constructor].
  - unfold on_timeout in Hs.
    destruct (heap w !! ref0) as [c0|] eqn:E; [|discriminate].
    destruct (timer_pending c0) eqn:Et; [|discriminate]. injection Hs as <-.
    change (heap (send (ChildKill ref0) (store ref0 (timeout_callback c0) w)))
      with (heap (store ref0 (timeout_callback c0) w)).
    rewrite (store_cell _ _ _ _ _ Hc). eexists. split; [reflexivity|].
    destruct (decide (ref0 = ref)) as [->|]; [|constructor].
    rewrite Hc in E. injection E as <-. apply cell_timeout. exact Et.
  - unfold on_stdout in Hs.
    destruct (heap w !! ref0) as [c0|] eqn:E; [|discriminate]. injection Hs as <-.
    rewrite (store_cell _ _ _ _ _ Hc). eexists. split; [reflexivity|].
    destruct (decide (ref0 = ref)) as [->|]; [|constructor].
    rewrite Hc in E. injection E as <-. constructor.
  - unfold on_stderr in Hs.
    destruct (heap w !! ref0) as [c0|] eqn:E; [|discriminate]. injection Hs as <-.
    rewrite (store_cell _ _ _ _ _ Hc). eexists. split; [reflexivity|].
    destruct (decide (ref0 = ref)) as [->|]; [|constructor].
    rewrite Hc in E. injection E as <-. constructor.
  - unfold on_close in Hs.
    destruct (heap w !! ref0) as [c0|] eqn:E; [|discriminate]. injection Hs as <-.
    rewrite (store_cell _ _ _ _ _ Hc). eexists. split; [reflexivity|].
    destruct (decide (ref0 = ref)) as [->|]; [|constructor].
    rewrite Hc in E. injection E as <-. constructor.
  - unfold on_error in Hs.
    destruct (heap w !! ref0) as [c0|] eqn:E; [|discriminate]. injection Hs as <-.
    rewrite (store_cell _ _ _ _ _ Hc). eexists. split; [reflexivity|].
    destruct (decide (ref0 = ref)) as [->|]; [|constructor].
    rewrite Hc in E. injection E as <-. constructor.
Qed.

(** A relation between the states of a child that every case of
    [cell_step] respects holds along every trace. *)
Section Cells.
Variable R : Child -> Child -> Prop.
Hypothesis R_refl : forall c, R c c.
Hypothesis R_trans : forall a b c, R a b -> R b c -> R a c.
Hypothesis R_timeout :
  forall c, timer_pending c = true -> R c (timeout_callback c).
Hypothesis R_stdout : forall data c, R c (stdout_callback data c).
Hypothesis R_stderr : forall data c, R c (stderr_callback data c).
Hypothesis R_close : forall code now c, R c (close_callback code now c).
Hypothesis R_error : forall message now c, R c (error_callback message now c).
Hypothesis R_kill : forall now c,
  status (processInfo c) = Running ->
  R c (mkChild (killed_info now (processInfo c)) (timer_pending c)).

Lemma cell_step_R ref a c c' : cell_step ref a c c' -> R c c'.
Proof. destruct 1; auto. Qed.

Lemma run_cell trace : forall w w' ref c,
  run trace w = Some w' -> heap w !! ref = Some c ->
  exists c', heap w' !! ref = Some c' /\ R c c'.
Proof.
  induction trace as [|a rest IH]; intros w w' ref c Hr Hc; simpl in Hr.
  - injection Hr as <-. eauto.
  - destruct (step a w) as [w1|] eqn:Hs; [|discriminate].
    destruct (step_cell_cases a w w1 ref c Hs Hc) as (c1 & Hc1 & H1).
    destruct (IH w1 w' ref c1 Hr Hc1) as (c' & Hc' & H2).
    exists c'. split; [exact Hc'|].
    eapply R_trans; [eapply cell_step_R; exact H1|exact H2].
Qed.
End Cells.

Lemma evolves_refl c : evolves c c.
Proof. unfold evolves. simpl. repeat split; auto. Qed.

Lemma evolves_trans a b c : evolves a b -> evolves b c -> evolves a c.
Proof.
  unfold evolves. simpl.
  intros (A1 & A2 & A3 & A4 & A5 & A6 & A7 & A8 & A9)
         (B1 & B2 & B3 & B4 & B5 & B6 & B7 & B8 & B9).
  repeat split; try congruence; auto.
  - etransitivity; eauto.
  - etransitivity; eauto.
Qed.

Lemma run_evolves trace w w' ref c :
  run trace w = Some w' -> heap w !! ref = Some c ->
  exists c', heap w' !! ref = Some c' /\ evolves c c'.
Proof.
  apply (run_cell evolves); try apply evolves_refl; try apply evolves_trans.
  - intros c0 Ht. unfold evolves. simpl. repeat split; auto; congruence.
  - intros data c0. unfold evolves. simpl. repeat split; auto.
    apply prefix_app_r. reflexivity.
  - intros data c0. unfold evolves. simpl. repeat split; auto.
    apply prefix_app_r. reflexivity.
  - intros code now c0. unfold evolves, close_callback. simpl.
    destruct (Status_eqb (status (processInfo c0)) Running) eqn:E; simpl;
      repeat split; auto; try congruence.
    intros H. apply status_eqb_eq in E. contradiction.
  - intros message now c0. unfold evolves. simpl.
    repeat split; auto; congruence.
  - intros now c0 Hs. unfold evolves. simpl. repeat split; auto; congruence.
Qed.

Lemma run_never_timed trace w w' ref c :
  run trace w = Some w' -> heap w !! ref = Some c -> never_timed c ->
  exists c', heap w' !! ref = Some c' /\ never_timed c'.
Proof.
  intros Hr Hc Hn.
  assert (exists c', heap w' !! ref = Some c'
                     /\ (never_timed c -> never_timed c')) as (c' & Hc' & H).
  { apply (run_cell (fun a b => never_timed a -> never_timed b))
      with (trace := trace) (w := w); try assumption.
    - intros c0 H. exact H.
    - intros x y z Hxy Hyz Hx. auto.
    - intros c0 Ht [Hp _]. congruence.
    - intros data c0 H. exact H.
    - intros data c0 H. exact H.
    - intros code now c0 (H1 & H2 & H3). unfold never_timed, close_callback.
      simpl.
      destruct (Status_eqb (status (processInfo c0)) Running) eqn:E; simpl;
        repeat split; auto;
        destruct code as [[| |]|]; simpl; discriminate.
    - intros message now c0 (H1 & H2 & H3). unfold never_timed. simpl.
      repeat split; auto; discriminate.
    - intros now c0 Hs (H1 & H2 & H3). unfold never_timed. simpl.
      repeat split; auto; discriminate. }
  eauto.
Qed.

Lemma on_timeout_disabled ref w c :
  heap w !! ref = Some c -> timer_pending c = false ->
  step (OnTimeout ref) w = None.
Proof. intros Hc Ht. simpl. unfold on_timeout. rewrite Hc, Ht. reflexivity. Qed.

Lemma finalizer_clears_timer a ref w w' :
  finalizer_of ref a = true -> step a w = Some w' ->
  exists c, heap w' !! ref = Some c /\ timer_pending c = false.
Proof.
  intros Hf Hs. destruct a; simpl in Hf; try discriminate;
    apply Nat.eqb_eq in Hf; subst ref0; simpl in Hs.
  - unfold on_timeout in Hs.
    destruct (heap w !! ref) as [c|] eqn:E; [|discriminate].
    destruct (timer_pending c); [|discriminate]. injection Hs as <-. simpl.
    rewrite list_lookup_insert_eq by (eapply lookup_lt_Some; eauto). eauto.
  - unfold on_close in Hs.
    destruct (heap w !! ref) as [c|] eqn:E; [|discriminate].
    injection Hs as <-. simpl.
    rewrite list_lookup_insert_eq by (eapply lookup_lt_Some; eauto). eauto.
  - unfold on_error in Hs.
    destruct (heap w !! ref) as [c|] eqn:E; [|discriminate].
    injection Hs as <-. simpl.
    rewrite list_lookup_insert_eq by (eapply lookup_lt_Some; eauto). eauto.
Qed.

(* ===================================================================== *)
(** ** Timers *)
(* ===================================================================== *)

(** X1. Once the timer of a child has fired, or the child has reported
    'close' or 'error', its timer callback cannot run again, whatever calls
    and callbacks follow: no SIGTERM is sent by a timer to a child that has
    closed, and a timer fires at most once. *)
Theorem timer_silent_after_finalizer (a : Action) (ref : nat)
    (trace : list Action) (w w1 w2 : World) :
  finalizer_of ref a = true ->
  step a w = Some w1 ->
  run trace w1 = Some w2 ->
  step (OnTimeout ref) w2 = None.
Proof.
  intros Hf Hs Hr.
  destruct (finalizer_clears_timer a ref w w1 Hf Hs) as (c & Hc & Ht).
  destruct (run_evolves trace w1 w2 ref c Hr Hc) as (c' & Hc' & He).
  apply (on_timeout_disabled ref w2 c' Hc').
  apply He. exact Ht.
Qed.

Lemma timer_silent_after_finalizer_witness :
  finalizer_of 0 Story.close_sleep = true
  /\ step Story.close_sleep Story.busy = Some Story.closed
  /\ run [GetOutput Scenario.p1 0] Story.closed = Some Story.closed
  /\ step (OnTimeout 0) Story.busy <> None
  /\ step (OnTimeout 0) Story.closed = None.
Proof.
  assert (step Story.close_sleep Story.busy = Some Story.closed) as Hs
    by (vm_compute; reflexivity).
  assert (run [GetOutput Scenario.p1 0] Story.closed = Some Story.closed) as Hr
    by (vm_compute; reflexivity).
  split; [reflexivity|]. split; [exact Hs|]. split; [exact Hr|].
  split; [vm_compute; discriminate|].
  exact (timer_silent_after_finalizer Story.close_sleep 0
           [GetOutput Scenario.p1 0] Story.busy Story.closed Story.closed
           eq_refl Hs Hr).
Defined.

(** X2. A command started with a timeout that is not positive never times
    out: after any calls and callbacks its timer callback cannot run, its
    [timed_out] flag is false and its status is not 'timed_out'. *)
Theorem no_timeout_never_timed_out (command : Js.str) (timeout : Z)
    (uuid : Js.str) (child_pid : option Z) (now : Js.str) (w : World)
    (trace : list Action) (w' : World) :
  timeout <= 0 ->
  run trace (snd (startCommand command timeout uuid child_pid now w)) = Some w' ->
  step (OnTimeout (length (heap w))) w' = None
  /\ exists info,
       deref w' (length (heap w)) = Some info
       /\ timed_out info = false
       /\ status info <> TimedOut.
Proof.
  intros Ht Hr.
  destruct (run_never_timed trace _ w' (length (heap w))
              (mkChild
                 {| id := uuid; command := command; status := Running;
                    stdout := []; stderr := []; exit_code := None;
                    error := None; started_at := now; finished_at := None;
                    timed_out := false; pid := child_pid |} false) Hr)
    as (c' & Hc' & (H1 & H2 & H3)).
  - unfold startCommand. simpl.
    replace (0 <? timeout) with false by (symmetry; apply Z.ltb_ge; exact Ht).
    rewrite list_lookup_insert_eq by (rewrite length_app; simpl; lia).
    reflexivity.
  - repeat split; simpl; auto; discriminate.
  - split; [exact (on_timeout_disabled _ _ _ Hc' H1)|].
    exists (processInfo c'). unfold deref. rewrite Hc'. simpl. auto.
Qed.

Lemma no_timeout_never_timed_out_witness :
  0 <= 0
  /\ run [OnStdout 2 (Js.lit "listening")]
       (snd (startCommand (Js.lit "node server.js") 0 (Js.lit "3f0c9a52-0003")
               (Some 4250) (Js.lit "2025-01-01T00:00:04.000Z") Story.busy))
     = Some (default new_runner
               (run [Story.start_server; OnStdout 2 (Js.lit "listening")]
                    Story.busy))
  /\ step (OnTimeout 2)
       (default new_runner
          (run [Story.start_server; OnStdout 2 (Js.lit "listening")]
               Story.busy))
     = None.
Proof.
  split; [lia|]. split; [vm_compute; reflexivity|].
  apply (no_timeout_never_timed_out (Js.lit "node server.js") 0
           (Js.lit "3f0c9a52-0003") (Some 4250)
           (Js.lit "2025-01-01T00:00:04.000Z") Story.busy
           [OnStdout 2 (Js.lit "listening")]).
  - lia.
  - vm_compute. reflexivity.
Defined.

(* ===================================================================== *)
(** ** What a record keeps *)
(* ===================================================================== *)

(** X3. Along any calls and callbacks a record keeps its [id], [command],
    [started_at] and [pid], and its two buffers only grow at the end: what
    was captured stays a prefix of what is stored. *)
Theorem record_history (trace : list Action) (w w' : World) (ref : nat)
    (p : ProcessInfo) :
  run trace w = Some w' ->
  deref w ref = Some p ->
  exists p',
    deref w' ref = Some p'
    /\ id p' = id p /\ command p' = command p
    /\ started_at p' = started_at p /\ pid p' = pid p
    /\ stdout p `prefix_of` stdout p'
    /\ stderr p `prefix_of` stderr p'.
Proof.
  intros Hr Hd. unfold deref in *.
  destruct (heap w !! ref) as [c|] eqn:Hc; [|discriminate].
  injection Hd as <-.
  destruct (run_evolves trace w w' ref c Hr Hc)
    as (c' & Hc' & (H1 & H2 & H3 & H4 & H5 & H6 & _)).
  exists (processInfo c'). rewrite Hc'. simpl. auto 10.
Qed.

Lemma record_history_witness :
  run Story.sleep_ends Story.busy = Some Story.ended
  /\ deref Story.busy 0 = Some Scenario.sleep_info
  /\ exists p',
       deref Story.ended 0 = Some p'
       /\ command p' = Js.lit "sleep 60"
       /\ stdout p' = Js.lit "tick".
Proof.
  assert (run Story.sleep_ends Story.busy = Some Story.ended) as Hr
    by (vm_compute; reflexivity).
  assert (deref Story.busy 0 = Some Scenario.sleep_info) as Hd
    by (vm_compute; reflexivity).
  split; [exact Hr|]. split; [exact Hd|].
  destruct (record_history _ _ _ _ _ Hr Hd)
    as (p' & Hp' & _ & Hc & _).
  exists p'. split; [exact Hp'|]. split; [exact Hc|].
  assert (deref Story.ended 0 = Some (set_stdout (Js.lit "tick")
            (set_status Failed
               (set_finished_at (Some (Js.lit "2025-01-01T00:00:03.000Z"))
                  Scenario.sleep_info)))) as Hv by (vm_compute; reflexivity).
  rewrite Hv in Hp'. injection Hp' as <-. reflexivity.
Defined.

(** X4. A record whose status has left 'running' never shows 'running'
    again, and a finish time that is set is never reset to null, whatever
    calls and callbacks follow. *)
Theorem left_running_for_good (trace : list Action) (w w' : World) (ref : nat)
    (p : ProcessInfo) :
  run trace w = Some w' ->
  deref w ref = Some p ->
  exists p',
    deref w' ref = Some p'
    /\ (status p <> Running -> status p' <> Running)
    /\ (finished_at p <> None -> finished_at p' <> None).
Proof.
  intros Hr Hd. unfold deref in *.
  destruct (heap w !! ref) as [c|] eqn:Hc; [|discriminate].
  injection Hd as <-.
  destruct (run_evolves trace w w' ref c Hr Hc)
    as (c' & Hc' & (_ & _ & _ & _ & _ & _ & H7 & H8 & _)).
  exists (processInfo c'). rewrite Hc'. simpl. auto.
Qed.

Lemma left_running_for_good_witness :
  run [OnError 1 (Js.lit "write EPIPE") (Js.lit "2025-01-01T00:00:05.000Z")]
      Story.busy
  = Some (default new_runner
            (run [OnError 1 (Js.lit "write EPIPE")
                            (Js.lit "2025-01-01T00:00:05.000Z")] Story.busy))
  /\ deref Story.busy 1 = Some Scenario.echo_info
  /\ exists p',
       deref (default new_runner
                (run [OnError 1 (Js.lit "write EPIPE")
                                (Js.lit "2025-01-01T00:00:05.000Z")]
                     Story.busy)) 1 = Some p'
       /\ status p' <> Running.
Proof.
  assert (run [OnError 1 (Js.lit "write EPIPE")
                 (Js.lit "2025-01-01T00:00:05.000Z")] Story.busy
          = Some (default new_runner
               (run [OnError 1 (Js.lit "write EPIPE")
                       (Js.lit "2025-01-01T00:00:05.000Z")] Story.busy)))
    as Hr by (vm_compute; reflexivity).
  assert (deref Story.busy 1 = Some Scenario.echo_info) as Hd
    by (vm_compute; reflexivity).
  split; [exact Hr|]. split; [exact Hd|].
  destruct (left_running_for_good _ _ _ _ _ Hr Hd) as (p' & Hp' & Hs & _).
  exists p'. split; [exact Hp'|]. apply Hs. discriminate.
Defined.

(* ===================================================================== *)
(** ** The keys and the references of the registry *)
(* ===================================================================== *)


Lemma map_set_refs {V} (key : Js.str) (v r : V) (m : list (Js.str * V)) :
  In r (List.map snd (map_set key v m)) -> r = v \/ In r (List.map snd m).
Proof.
  induction m as [|[k v'] m IH]; simpl.
  - intros [<-|[]]. auto.
  - destruct (key_eqb key k); simpl; intros [<-|H]; auto.
    destruct (IH H); auto.
Qed.

Lemma map_set_entries {V} (key : Js.str) (v : V) (e : Js.str * V)
    (m : list (Js.str * V)) :
  In e (map_set key v m) -> snd e = v \/ In e m.
Proof.
  induction m as [|[k v'] m IH]; simpl.
  - intros [<-|[]]. auto.
  - destruct (key_eqb key k); simpl; intros [<-|H]; auto.
    destruct (IH H); auto.
Qed.

Lemma map_set_key_in {V} (key k : Js.str) (v : V) (m : list (Js.str * V)) :
  In k (List.map fst (map_set key v m)) -> k = key \/ In k (List.map fst m).
Proof.
  rewrite map_set_keys. destruct (existsb _ _); [auto|].
  rewrite in_app_iff. simpl. intuition.
Qed.

Lemma map_set_unique_refs {V} (key : Js.str) (v : V) (m : list (Js.str * V)) :
  ~ In v (List.map snd m) ->
  List.NoDup (List.map snd m) ->
  List.NoDup (List.map snd (map_set key v m)).
Proof.
  induction m as [|[k v'] m IH]; simpl; intros Hv Hn.
  - constructor; [tauto|constructor].
  - inversion Hn as [|? ? Hnot Hnd]; subst.
    destruct (key_eqb key k); simpl.
    + constructor; [tauto|exact Hnd].
    + constructor; [|apply IH; tauto].
      intros Hin. apply map_set_refs in Hin. destruct Hin as [->|Hin]; tauto.
Qed.

Lemma filter_unique_refs {V} (f : Js.str * V -> bool) (m : list (Js.str * V)) :
  List.NoDup (List.map snd m) ->
  List.NoDup (List.map snd (List.filter f m)).
Proof.
  induction m as [|e m IH]; simpl; intros Hn; [constructor|].
  inversion Hn as [|? ? Hnot Hnd]; subst.
  destruct (f e); simpl; [|auto].
  constructor; [|auto]. intros Hin. apply Hnot.
  apply in_map_iff in Hin. destruct Hin as (e' & He & Hin).
  apply filter_In in Hin. apply in_map_iff. exists e'. tauto.
Qed.

Lemma killProcess_heap_length processId thrown now w :
  length (heap (snd (killProcess processId thrown now w))) = length (heap w).
Proof.
  unfold killProcess.
  destruct (lookup_process processId w) as [[ref info]|]; [|reflexivity].
  destruct (negb _); [reflexivity|]. destruct thrown; simpl; [reflexivity|].
  apply length_alter.
Qed.

(** What a turn does to the registry: a call of [startCommand] sets one key
    to the address of the new child; every other turn keeps or removes
    entries, and the heap keeps its size. *)
Lemma step_registry a w w' :
  step a w = Some w' ->
  (exists command timeout uuid child_pid now,
      a = StartCommand command timeout uuid child_pid now
      /\ processes w' = map_set uuid (length (heap w)) (processes w)
      /\ length (heap w') = S (length (heap w)))
  \/ ((exists f, processes w' = List.filter f (processes w))
      /\ length (heap w') = length (heap w)).
Proof.
  intros Hs.
  assert (processes w = List.filter (fun _ => true) (processes w)) as Hid.
  { symmetry. apply forallb_filter_id. apply forallb_forall. reflexivity. }
  destruct a; simpl in Hs.
  - left. injection Hs as <-. do 5 eexists. split; [reflexivity|]. simpl.
    split; [reflexivity|]. rewrite length_insert, length_app. simpl. lia.
  - right. injection Hs as <-. rewrite getOutput_world. eauto.
  - right. injection Hs as <-. eauto.
  - right. injection Hs as <-. rewrite killProcess_processes.
    split; [eauto|apply killProcess_heap_length].
  - right. injection Hs as <-.
    destruct (clearProcesses_heap processId w) as [-> _]. split; [|reflexivity].
    unfold clearProcesses.
    destruct (if truthy processId then processId else None) as [key|].
    + destruct (lookup_process key w); simpl; [|eauto].
      eexists. reflexivity.
    + destruct (clear_loop_spec (processes w) w 0%nat) as [H _].
      destruct (clear_loop (processes w) w 0%nat) as [w1 n]. simpl in *.
      eexists. exact H.
  - right. unfold on_timeout in Hs.
    destruct (heap w !! ref) as [c|]; [|discriminate].
    destruct (timer_pending c); [|discriminate]. injection Hs as <-. simpl.
    split; [eauto|apply length_insert].
  - right. unfold on_stdout in Hs.
    destruct (heap w !! ref) as [c|]; [|discriminate]. injection Hs as <-.
    simpl. split; [eauto|apply length_insert].
  - right. unfold on_stderr in Hs.
    destruct (heap w !! ref) as [c|]; [|discriminate]. injection Hs as <-.
    simpl. split; [eauto|apply length_insert].
  - right. unfold on_close in Hs.
    destruct (heap w !! ref) as [c|]; [|discriminate]. injection Hs as <-.
    simpl. split; [eauto|apply length_insert].
  - right. unfold on_error in Hs.
    destruct (heap w !! ref) as [c|]; [|discriminate]. injection Hs as <-.
    simpl. split; [eauto|apply length_insert].
Qed.

Lemma step_registry_sound a w w' :
  step a w = Some w' -> registry_sound w -> registry_sound w'.
Proof.
  intros Hs [Hv Hu]. unfold registry_sound, refs_valid, unique_refs in *.
  destruct (step_registry a w w' Hs)
    as [(command & timeout & uuid & child_pid & now & _ & Hp & Hl)
       |[(f & Hp) Hl]]; rewrite Hp, Hl.
  - split.
    + apply List.Forall_forall. intros e He.
      apply map_set_entries in He. destruct He as [->|He]; [lia|].
      rewrite List.Forall_forall in Hv. specialize (Hv e He). lia.
    + apply map_set_unique_refs; [|exact Hu].
      intros Hin. apply in_map_iff in Hin. destruct Hin as (e & He & Hin).
      rewrite List.Forall_forall in Hv. specialize (Hv e Hin). lia.
  - split.
    + apply List.Forall_forall. intros e He. apply filter_In in He.
      rewrite List.Forall_forall in Hv. apply Hv. tauto.
    + apply filter_unique_refs. exact Hu.
Qed.

Lemma run_registry_sound trace : forall w w',
  run trace w = Some w' -> registry_sound w -> registry_sound w'.
Proof.
  induction trace as [|a rest IH]; intros w w' Hr Hw; simpl in Hr.
  - injection Hr as <-. exact Hw.
  - destruct (step a w) as [w1|] eqn:Hs; [|discriminate].
    eapply IH; [exact Hr|]. eapply step_registry_sound; eauto.
Qed.

Lemma reachable_registry_sound w : reachable w -> registry_sound w.
Proof.
  intros [trace Hr]. eapply run_registry_sound; [exact Hr|].
  split; constructor.
Qed.


Lemma map_get_absent {V} (key : Js.str) (m : list (Js.str * V)) :
  ~ In key (List.map fst m) -> map_get key m = None.
Proof.
  induction m as [|[k v] m IH]; simpl; [reflexivity|]. intros Hn.
  destruct (key_eqb key k) eqn:E; [|apply IH; tauto].
  apply key_eqb_eq in E. subst k. tauto.
Qed.

Lemma map_get_in {V} (key : Js.str) (v : V) (m : list (Js.str * V)) :
  map_get key m = Some v -> In (key, v) m.
Proof.
  induction m as [|[k v'] m IH]; simpl; [discriminate|].
  destruct (key_eqb key k) eqn:E; [|auto].
  apply key_eqb_eq in E. subst k. intros [= ->]. auto.
Qed.

Lemma map_get_delete_same {V} (key : Js.str) (m : list (Js.str * V)) :
  map_get key (map_delete key m) = None.
Proof.
  apply map_get_absent. rewrite map_delete_keys. intros Hin.
  apply filter_In in Hin. destruct Hin as [_ Hin].
  rewrite key_eqb_refl in Hin. discriminate.
Qed.

Lemma map_get_delete_other {V} (key key' : Js.str) (m : list (Js.str * V)) :
  key' <> key -> map_get key' (map_delete key m) = map_get key' m.
Proof.
  intros Hne. unfold map_delete.
  induction m as [|[k v] m IH]; simpl; [reflexivity|].
  destruct (key_eqb key k) eqn:E; simpl.
  - apply key_eqb_eq in E. subst k.
    destruct (key_eqb key' key) eqn:E'; [|exact IH].
    apply key_eqb_eq in E'. contradiction.
  - destruct (key_eqb key' k); [reflexivity|exact IH].
Qed.

Lemma map_get_set_other {V} (key key' : Js.str) (v : V) (m : list (Js.str * V)) :
  key' <> key -> map_get key' (map_set key v m) = map_get key' m.
Proof.
  intros Hne. induction m as [|[k v'] m IH]; simpl.
  - destruct (key_eqb key' key) eqn:E; [|reflexivity].
    apply key_eqb_eq in E. contradiction.
  - destruct (key_eqb key k) eqn:E; simpl.
    + apply key_eqb_eq in E. subst k.
      destruct (key_eqb key' key) eqn:E'; [|reflexivity].
      apply key_eqb_eq in E'. contradiction.
    + destruct (key_eqb key' k); [reflexivity|exact IH].
Qed.

(** The answer of [getOutput] is a function of what the lookup finds. *)
Lemma getOutput_lookup processId tail w w' :
  lookup_process processId w' = lookup_process processId w ->
  fst (getOutput processId tail w') = fst (getOutput processId tail w).
Proof.
  intros H. unfold getOutput. rewrite H.
  destruct (lookup_process processId w) as [[ref info]|]; reflexivity.
Qed.

(** A callback of a child rewrites the child and nothing else. *)
Lemma callback_frame a ref w w' :
  is_callback ref a = true -> step a w = Some w' ->
  processes w' = processes w
  /\ forall ref', ref' <> ref -> heap w' !! ref' = heap w !! ref'.
Proof.
  intros Hc Hs. destruct a; simpl in Hc; try discriminate;
    apply Nat.eqb_eq in Hc; subst ref0; simpl in Hs.
  - unfold on_timeout in Hs. destruct (heap w !! ref) as [c|]; [|discriminate].
    destruct (timer_pending c); [|discriminate]. injection Hs as <-. simpl.
    split; [reflexivity|]. intros r Hr. apply list_lookup_insert_ne. auto.
  - unfold on_stdout in Hs. destruct (heap w !! ref) as [c|]; [|discriminate].
    injection Hs as <-. simpl.
    split; [reflexivity|]. intros r Hr. apply list_lookup_insert_ne. auto.
  - unfold on_stderr in Hs. destruct (heap w !! ref) as [c|]; [|discriminate].
    injection Hs as <-. simpl.
    split; [reflexivity|]. intros r Hr. apply list_lookup_insert_ne. auto.
  - unfold on_close in Hs. destruct (heap w !! ref) as [c|]; [|discriminate].
    injection Hs as <-. simpl.
    split; [reflexivity|]. intros r Hr. apply list_lookup_insert_ne. auto.
  - unfold on_error in Hs. destruct (heap w !! ref) as [c|]; [|discriminate].
    injection Hs as <-. simpl.
    split; [reflexivity|]. intros r Hr. apply list_lookup_insert_ne. auto.
Qed.

Lemma lookup_process_frame processId w w' :
  processes w' = processes w ->
  (forall ref, map_get processId (processes w) = Some ref ->
               heap w' !! ref = heap w !! ref) ->
  lookup_process processId w' = lookup_process processId w.
Proof.
  intros Hp Hh. unfold lookup_process, deref. rewrite Hp.
  destruct (map_get processId (processes w)) as [ref|] eqn:E; [|reflexivity].
  rewrite (Hh ref eq_refl). reflexivity.
Qed.

(* ===================================================================== *)
(** ** Identifiers *)
(* ===================================================================== *)

Lemma run_keys_started processId : forall trace w0 w1,
  run trace w0 = Some w1 ->
  In processId (List.map fst (processes w1)) ->
  In processId (List.map fst (processes w0)) \/ In processId (started_ids trace).
Proof.
  induction trace as [|a rest IH]; intros w0 w1 Hr Hin; simpl in Hr.
  - injection Hr as <-. auto.
  - destruct (step a w0) as [w'|] eqn:Hs; [|discriminate].
    destruct (IH w' w1 Hr Hin) as [Hk|Hk].
    + destruct (step_registry a w0 w' Hs)
        as [(command & timeout & uuid & child_pid & now & -> & Hp & _)
           |[(f & Hp) _]]; rewrite Hp in Hk.
      * apply map_set_key_in in Hk. simpl. destruct Hk as [->|Hk]; auto.
      * left. apply in_map_iff in Hk. destruct Hk as (e & He & Hk).
        apply filter_In in Hk. apply in_map_iff. exists e. tauto.
    + right. destruct a; simpl; auto.
Qed.

(** X5. The registry holds no identifier of its own making: an identifier
    that no [startCommand] call of the history was given by [uuidv4()] is
    unknown, so [getOutput], [killProcess] and [clearProcesses] answer
    'Process not found' for it and leave the engine as it is. *)
Theorem unknown_id_not_found (trace : list Action) (w : World)
    (processId : Js.str) (tail : Z) (thrown : option Js.str) (now : Js.str) :
  run trace new_runner = Some w ->
  ~ In processId (started_ids trace) ->
  processId <> [] ->
  getOutput processId tail w = (not_found processId, w)
  /\ killProcess processId thrown now w = (not_found processId, w)
  /\ clearProcesses (Some processId) w = (not_found processId, w).
Proof.
  intros Hr Hn Hne.
  assert (lookup_process processId w = None) as Hl.
  { unfold lookup_process. rewrite map_get_absent; [reflexivity|].
    intros Hin. destruct (run_keys_started processId trace _ _ Hr Hin) as [[]|H].
    contradiction. }
  unfold getOutput, killProcess, clearProcesses. rewrite Hl.
  destruct processId; [contradiction|]. simpl. rewrite Hl. auto.
Qed.

Lemma unknown_id_not_found_witness :
  run Scenario.one_finished new_runner = Some Story.busy
  /\ ~ In (Js.lit "3f0c9a52-0009") (started_ids Scenario.one_finished)
  /\ Js.lit "3f0c9a52-0009" <> []
  /\ getOutput (Js.lit "3f0c9a52-0009") 0 Story.busy
     = (not_found (Js.lit "3f0c9a52-0009"), Story.busy).
Proof.
  assert (run Scenario.one_finished new_runner = Some Story.busy) as Hr
    by (vm_compute; reflexivity).
  assert (~ In (Js.lit "3f0c9a52-0009") (started_ids Scenario.one_finished))
    as Hn.
  { vm_compute. intros [H|[H|[]]]; discriminate. }
  assert (Js.lit "3f0c9a52-0009" <> []) as Hne by (vm_compute; discriminate).
  split; [exact Hr|]. split; [exact Hn|]. split; [exact Hne|].
  exact (proj1 (unknown_id_not_found _ _ _ 0 None [] Hr Hn Hne)).
Defined.

(* ===================================================================== *)
(** ** [clearProcesses] with an identifier *)
(* ===================================================================== *)

Lemma lookup_process_delete_same processId w :
  lookup_process processId (delete_process processId w) = None.
Proof.
  unfold lookup_process, delete_process. simpl.
  rewrite map_get_delete_same. reflexivity.
Qed.

Lemma lookup_process_delete_other processId other w :
  other <> processId ->
  lookup_process other (delete_process processId w) = lookup_process other w.
Proof.
  intros Hne. unfold lookup_process, delete_process, deref. simpl.
  rewrite map_get_delete_other by exact Hne. reflexivity.
Qed.

Lemma clearProcesses_delete (processId : Js.str) (w : World) (ref : nat)
    (info : ProcessInfo) :
  processId <> [] ->
  lookup_process processId w = Some (ref, info) ->
  clearProcesses (Some processId) w
  = ([ ("success", JBool true);
       ("message", JStr (Js.lit "Process cleared"));
       ("process_id", JStr processId) ],
     delete_process processId w).
Proof.
  intros Hne Hl. unfold clearProcesses.
  destruct processId as [|ch rest]; [contradiction|]. simpl. rewrite Hl.
  reflexivity.
Qed.

(** X6. [clearProcesses] with the identifier of a tracked record removes
    that entry whatever its status, a running one included, and nothing
    else: afterwards the identifier is unknown to [getOutput], every other
    identifier finds what it found before, and no record and no signal is
    touched. *)
Theorem clearProcesses_one (processId : Js.str) (w : World) (ref : nat)
    (info : ProcessInfo) :
  processId <> [] ->
  lookup_process processId w = Some (ref, info) ->
  let result := clearProcesses (Some processId) w in
  fst result = [ ("success", JBool true);
                 ("message", JStr (Js.lit "Process cleared"));
                 ("process_id", JStr processId) ]
  /\ heap (snd result) = heap w
  /\ signals (snd result) = signals w
  /\ processes (snd result) = map_delete processId (processes w)
  /\ (forall tail,
        getOutput processId tail (snd result)
        = (not_found processId, snd result))
  /\ (forall other,
        other <> processId ->
        lookup_process other (snd result) = lookup_process other w).
Proof.
  intros Hne Hl result. subst result.
  rewrite (clearProcesses_delete processId w ref info Hne Hl). cbn [fst snd].
  split; [reflexivity|]. split; [reflexivity|]. split; [reflexivity|].
  split; [reflexivity|]. split.
  - intros tail. unfold getOutput.
    rewrite lookup_process_delete_same. reflexivity.
  - intros other Ho. apply lookup_process_delete_other. exact Ho.
Qed.

Lemma clearProcesses_one_witness :
  Scenario.p1 <> []
  /\ lookup_process Scenario.p1 Story.busy = Some (0%nat, Scenario.sleep_info)
  /\ status Scenario.sleep_info = Running
  /\ getOutput Scenario.p1 0 Story.sleep_cleared
     = (not_found Scenario.p1, Story.sleep_cleared).
Proof.
  assert (Scenario.p1 <> []) as Hne by (vm_compute; discriminate).
  assert (lookup_process Scenario.p1 Story.busy
          = Some (0%nat, Scenario.sleep_info)) as Hl
    by (vm_compute; reflexivity).
  split; [exact Hne|]. split; [exact Hl|]. split; [reflexivity|].
  destruct (clearProcesses_one Scenario.p1 Story.busy _ _ Hne Hl)
    as (_ & _ & _ & _ & Hg & _).
  exact (Hg 0).
Defined.

Lemma run_callbacks_frame ref : forall trace w w',
  callbacks_of ref trace = true -> run trace w = Some w' ->
  processes w' = processes w
  /\ forall ref', ref' <> ref -> heap w' !! ref' = heap w !! ref'.
Proof.
  induction trace as [|a rest IH]; intros w w' Hc Hr; simpl in Hr.
  - injection Hr as <-. auto.
  - simpl in Hc. apply andb_true_iff in Hc. destruct Hc as [Ha Hrest].
    destruct (step a w) as [w1|] eqn:Hs; [|discriminate].
    destruct (callback_frame a ref w w1 Ha Hs) as [Hp1 Hh1].
    destruct (IH w1 w' Hrest Hr) as [Hp2 Hh2].
    split; [congruence|]. intros r Hn. rewrite Hh2, Hh1; auto.
Qed.

Lemma values_frame w w' : forall entries,
  (forall e, In e entries -> heap w' !! snd e = heap w !! snd e) ->
  values w' entries = values w entries.
Proof.
  induction entries as [|[k r] rest IH]; intros H; simpl; [reflexivity|].
  pose proof (H (k, r) (or_introl eq_refl)) as Hk. simpl in Hk.
  unfold deref. rewrite Hk.
  rewrite IH by (intros e He; apply H; right; exact He). reflexivity.
Qed.

Lemma listProcesses_frame filter w w' :
  processes w' = processes w ->
  (forall e, In e (processes w) -> heap w' !! snd e = heap w !! snd e) ->
  fst (listProcesses filter w') = fst (listProcesses filter w).
Proof.
  intros Hp Hh. unfold listProcesses. rewrite Hp.
  rewrite (values_frame w w' (processes w) Hh). reflexivity.
Qed.

(** After the entry of [processId] was deleted, no entry of a reachable
    registry points to its record. *)
Lemma deleted_ref_unreferenced processId ref w :
  unique_refs w ->
  map_get processId (processes w) = Some ref ->
  forall e, In e (map_delete processId (processes w)) -> snd e <> ref.
Proof.
  unfold unique_refs. intros Hu Hm e He Href.
  apply map_get_in in Hm. unfold map_delete in He. apply filter_In in He.
  destruct He as [He Hk].
  assert (e = (processId, ref)) as ->.
  { revert Hu Hm He Href. generalize (processes w) as m.
    induction m as [|e0 m IH]; simpl; [tauto|].
    intros Hn. inversion Hn as [|? ? Hnot Hnd]; subst.
    intros [->|H1] [->|H2] Href; auto.
    - exfalso. apply Hnot. simpl. rewrite <- Href.
      apply in_map. exact H2.
    - exfalso. apply Hnot. rewrite Href.
      change ref with (snd (processId, ref)). apply in_map. exact H1. }
  simpl in Hk. rewrite key_eqb_refl in Hk. discriminate.
Qed.

(** X7. Clearing a record detaches it: the callbacks of its child still
    run, but they write to an object no identifier leads to. After
    [clearProcesses(id)] in a reachable engine, no sequence of callbacks of
    that child changes the answer of [getOutput] for any identifier or of
    [listProcesses] for any filter. *)
Theorem cleared_callbacks_are_invisible (w : World) (processId : Js.str)
    (ref : nat) (info : ProcessInfo) (trace : list Action) (w' : World) :
  reachable w ->
  processId <> [] ->
  lookup_process processId w = Some (ref, info) ->
  callbacks_of ref trace = true ->
  run trace (snd (clearProcesses (Some processId) w)) = Some w' ->
  (forall other tail,
     fst (getOutput other tail w')
     = fst (getOutput other tail (snd (clearProcesses (Some processId) w))))
  /\ (forall filter,
        fst (listProcesses filter w')
        = fst (listProcesses filter (snd (clearProcesses (Some processId) w)))).
Proof.
  intros Hreach Hne Hl Hcb Hr.
  rewrite (clearProcesses_delete processId w ref info Hne Hl) in *.
  cbn [snd] in *.
  assert (processes (delete_process processId w)
          = map_delete processId (processes w)) as Hp by reflexivity.
  destruct (run_callbacks_frame ref trace _ _ Hcb Hr) as [Hp' Hh'].
  destruct (reachable_registry_sound w Hreach) as [_ Hu].
  destruct (lookup_process_inv _ _ _ _ Hl) as [Hm _].
  pose proof (deleted_ref_unreferenced processId ref w Hu Hm) as Hfree.
  rewrite <- Hp in Hfree.
  split.
  - intros other tail. apply getOutput_lookup.
    apply lookup_process_frame; [exact Hp'|].
    intros r Hg. apply Hh'. apply map_get_in in Hg.
    exact (Hfree _ Hg).
  - intros filter. apply listProcesses_frame; [exact Hp'|].
    intros e He. apply Hh'. exact (Hfree e He).
Qed.

Lemma cleared_callbacks_are_invisible_witness :
  reachable Story.busy
  /\ Scenario.p1 <> []
  /\ lookup_process Scenario.p1 Story.busy = Some (0%nat, Scenario.sleep_info)
  /\ callbacks_of 0 Story.late_callbacks = true
  /\ run Story.late_callbacks Story.sleep_cleared
     = Some Story.sleep_cleared_late
  /\ fst (listProcesses None Story.sleep_cleared_late)
     = fst (listProcesses None Story.sleep_cleared).
Proof.
  assert (reachable Story.busy) as Hreach.
  { exists Scenario.one_finished. vm_compute. reflexivity. }
  assert (Scenario.p1 <> []) as Hne by (vm_compute; discriminate).
  assert (lookup_process Scenario.p1 Story.busy
          = Some (0%nat, Scenario.sleep_info)) as Hl
    by (vm_compute; reflexivity).
  assert (run Story.late_callbacks Story.sleep_cleared
          = Some Story.sleep_cleared_late) as Hr by (vm_compute; reflexivity).
  split; [exact Hreach|]. split; [exact Hne|]. split; [exact Hl|].
  split; [reflexivity|]. split; [exact Hr|].
  exact (proj2 (cleared_callbacks_are_invisible Story.busy Scenario.p1 0
                  Scenario.sleep_info Story.late_callbacks
                  Story.sleep_cleared_late Hreach Hne Hl eq_refl Hr) None).
Defined.

(** X8. A callback of one child never changes the record of another: an
    identifier that leads to a different record finds the same record,
    unchanged, after the callback. *)
Theorem callback_leaves_other_records (a : Action) (ref : nat) (w w' : World)
    (processId : Js.str) (ref' : nat) (info : ProcessInfo) :
  is_callback ref a = true ->
  step a w = Some w' ->
  lookup_process processId w = Some (ref', info) ->
  ref' <> ref ->
  lookup_process processId w' = Some (ref', info).
Proof.
  intros Hc Hs Hl Hne.
  destruct (callback_frame a ref w w' Hc Hs) as [Hp Hh].
  rewrite <- Hl. apply lookup_process_frame; [exact Hp|].
  intros r Hg. apply Hh.
  destruct (lookup_process_inv _ _ _ _ Hl) as [Hm _]. congruence.
Qed.

Lemma callback_leaves_other_records_witness :
  is_callback 0 Story.close_sleep = true
  /\ step Story.close_sleep Story.busy = Some Story.closed
  /\ lookup_process Scenario.p2 Story.busy = Some (1%nat, Scenario.echo_info)
  /\ 1%nat <> 0%nat
  /\ lookup_process Scenario.p2 Story.closed = Some (1%nat, Scenario.echo_info).
Proof.
  assert (step Story.close_sleep Story.busy = Some Story.closed) as Hs
    by (vm_compute; reflexivity).
  assert (lookup_process Scenario.p2 Story.busy
          = Some (1%nat, Scenario.echo_info)) as Hl
    by (vm_compute; reflexivity).
  assert (1%nat <> 0%nat) as Hne by discriminate.
  split; [reflexivity|]. split; [exact Hs|]. split; [exact Hl|].
  split; [exact Hne|].
  exact (callback_leaves_other_records Story.close_sleep 0 Story.busy
           Story.closed Scenario.p2 1 Scenario.echo_info eq_refl Hs Hl Hne).
Defined.

(* ===================================================================== *)
(** ** A delivered [killProcess] and the 'close' that follows *)
(* ===================================================================== *)

Lemma lookup_process_assign processId ref p c0 w :
  map_get processId (processes w) = Some ref ->
  heap w !! ref = Some c0 ->
  lookup_process processId (assign ref p w) = Some (ref, p).
Proof.
  intros Hm Hh. unfold lookup_process, deref, assign. simpl. rewrite Hm.
  rewrite list_lookup_alter_eq, Hh. reflexivity.
Qed.

(** X9. [killProcess] on a tracked running record, when the signal is
    delivered, answers 'Process killed', logs one SIGTERM to the pid of the
    record, and leaves the record with status 'killed' and the finish time
    of the call, every other field as it was. The registry is unchanged, and
    a second [killProcess] answers 'Process is not running' with status
    'killed' and sends nothing. *)
Theorem killProcess_delivered (processId : Js.str) (now : Js.str) (w : World)
    (ref : nat) (info : ProcessInfo) :
  lookup_process processId w = Some (ref, info) ->
  status info = Running ->
  let result := killProcess processId None now w in
  fst result = [ ("success", JBool true);
                 ("process_id", JStr processId);
                 ("message", JStr (Js.lit "Process killed")) ]
  /\ lookup_process processId (snd result)
     = Some (ref, killed_info now info)
  /\ processes (snd result) = processes w
  /\ signals (snd result) = signals w ++ [ProcessKill (pid info)]
  /\ (forall thrown now',
        killProcess processId thrown now' (snd result)
        = ([ ("success", JBool false);
             ("error", JStr (Js.lit "Process is not running"));
             ("process_id", JStr processId);
             ("status", JStr (Js.lit "killed")) ],
           snd result)).
Proof.
  intros Hl Hs result.
  destruct (lookup_process_inv _ _ _ _ Hl) as (Hm & c & Hc & Hi).
  assert (result = ([ ("success", JBool true);
                      ("process_id", JStr processId);
                      ("message", JStr (Js.lit "Process killed")) ],
                    assign ref (killed_info now info)
                      (send (ProcessKill (pid info)) w))) as ->.
  { subst result. unfold killProcess. rewrite Hl, Hs. reflexivity. }
  assert (lookup_process processId
            (assign ref (killed_info now info)
               (send (ProcessKill (pid info)) w))
          = Some (ref, killed_info now info)) as Hl'.
  { eapply lookup_process_assign; [exact Hm|exact Hc]. }
  cbn [fst snd].
  split; [reflexivity|]. split; [exact Hl'|]. split; [reflexivity|].
  split; [reflexivity|].
  intros thrown now'. unfold killProcess at 1. rewrite Hl'. reflexivity.
Qed.

Lemma killProcess_delivered_witness :
  lookup_process Scenario.p1 Story.busy = Some (0%nat, Scenario.sleep_info)
  /\ status Scenario.sleep_info = Running
  /\ signals (snd (killProcess Scenario.p1 None Story.kill_time Story.busy))
     = signals Story.busy ++ [ProcessKill (Some 4242)].
Proof.
  assert (lookup_process Scenario.p1 Story.busy
          = Some (0%nat, Scenario.sleep_info)) as Hl
    by (vm_compute; reflexivity).
  split; [exact Hl|]. split; [reflexivity|].
  destruct (killProcess_delivered Scenario.p1 Story.kill_time Story.busy _ _
              Hl eq_refl) as (_ & _ & _ & Hsig & _).
  exact Hsig.
Defined.

Lemma exit_status_completed code : exit_status code = Completed <-> code = Some 0.
Proof. destruct code as [[| |]|]; simpl; split; congruence. Qed.

Lemma exit_status_failed code : exit_status code = Failed <-> code <> Some 0.
Proof. destruct code as [[| |]|]; simpl; split; congruence. Qed.

(** X10. When the child of a tracked record reports 'close' with a code,
    the record takes the code and the time as exit code and finish time. A
    record that was 'running' becomes 'completed' exactly when the code is
    0 and 'failed' otherwise (a null code, from a signal, included); a
    record that had already left 'running' (killed, timed out, error) keeps
    its status, whatever the code. *)
Theorem close_outcome (processId : Js.str) (w : World) (ref : nat)
    (info : ProcessInfo) (code : option Z) (now : Js.str) :
  lookup_process processId w = Some (ref, info) ->
  exists w' info',
    step (OnClose ref code now) w = Some w'
    /\ lookup_process processId w' = Some (ref, info')
    /\ exit_code info' = code
    /\ finished_at info' = Some now
    /\ stdout info' = stdout info /\ stderr info' = stderr info
    /\ (status info = Running ->
        (status info' = Completed <-> code = Some 0)
        /\ (status info' = Failed <-> code <> Some 0))
    /\ (status info <> Running -> status info' = status info).
Proof.
  intros Hl. destruct (lookup_process_inv _ _ _ _ Hl) as (Hm & c & Hc & Hi).
  simpl. unfold on_close. rewrite Hc.
  eexists. eexists. split; [reflexivity|].
  split; [eapply lookup_process_store; [exact Hm|exact Hc]|].
  unfold close_callback. simpl. rewrite Hi.
  destruct (Status_eqb (status info) Running) eqn:E; simpl;
    (split; [reflexivity|]); (split; [reflexivity|]).
  - apply status_eqb_eq in E.
    split; [reflexivity|]. split; [reflexivity|]. split; [|congruence].
    intros _. split; [apply exit_status_completed|apply exit_status_failed].
  - split; [reflexivity|]. split; [reflexivity|]. split; [|reflexivity].
    intros H. apply status_eqb_eq in H. congruence.
Qed.

Lemma close_outcome_witness :
  lookup_process Scenario.p1 Story.busy = Some (0%nat, Scenario.sleep_info)
  /\ exists w' info',
       step (OnClose 0 (Some 0) (Js.lit "2025-01-01T00:01:00.000Z")) Story.busy
       = Some w'
       /\ lookup_process Scenario.p1 w' = Some (0%nat, info')
       /\ status info' = Completed.
Proof.
  assert (lookup_process Scenario.p1 Story.busy
          = Some (0%nat, Scenario.sleep_info)) as Hl
    by (vm_compute; reflexivity).
  split; [exact Hl|].
  destruct (close_outcome Scenario.p1 Story.busy 0 Scenario.sleep_info
              (Some 0) (Js.lit "2025-01-01T00:01:00.000Z") Hl)
    as (w' & info' & Hs & Hl' & _ & _ & _ & _ & Hrun & _).
  exists w', info'. split; [exact Hs|]. split; [exact Hl'|].
  apply (Hrun eq_refl). reflexivity.
Defined.

(* ===================================================================== *)
(** ** Invariants of every record *)
(* ===================================================================== *)

(** A property of records that the new record of [startCommand] has and
    that every case of [cell_step] keeps holds of every record of every
    engine a trace leads to. *)
Section Records.
Variable P : ProcessInfo -> Prop.
Hypothesis P_fresh : forall uuid command now child_pid,
  P {| id := uuid; command := command; status := Running;
       stdout := []; stderr := []; exit_code := None; error := None;
       started_at := now; finished_at := None; timed_out := false;
       pid := child_pid |}.
Hypothesis P_step : forall ref a c c',
  cell_step ref a c c' -> P (processInfo c) -> P (processInfo c').

Lemma step_all_records a w w' :
  step a w = Some w' -> all_records P w -> all_records P w'.
Proof.
  unfold all_records. intros Hs Hw.
  apply Forall_lookup. intros i c' Hc'.
  destruct (heap w !! i) as [c|] eqn:Hc.
  - destruct (step_cell_cases a w w' i c Hs Hc) as (c'' & Hc'' & Hstep).
    rewrite Hc' in Hc''. injection Hc'' as <-.
    eapply P_step; [exact Hstep|].
    exact (Forall_lookup_1 _ _ _ _ Hw Hc).
  - apply lookup_ge_None in Hc. pose proof (lookup_lt_Some _ _ _ Hc') as Hlt.
    destruct (step_registry a w w' Hs)
      as [(command & timeout & uuid & child_pid & now & -> & _ & Hl)
         |[_ Hl]]; [|lia].
    simpl in Hs. injection Hs as <-. simpl in Hc'.
    assert (i = length (heap w)) as -> by lia.
    unfold startCommand in Hc'. simpl in Hc'.
    rewrite list_lookup_insert_eq in Hc' by (rewrite length_app; simpl; lia).
    injection Hc' as <-. apply P_fresh.
Qed.

Lemma run_all_records trace : forall w w',
  run trace w = Some w' -> all_records P w -> all_records P w'.
Proof.
  induction trace as [|a rest IH]; intros w w' Hr Hw; simpl in Hr.
  - injection Hr as <-. exact Hw.
  - destruct (step a w) as [w1|] eqn:Hs; [|discriminate].
    eapply IH; [exact Hr|]. eapply step_all_records; eauto.
Qed.

Lemma reachable_tracked w info : reachable w -> tracked w info -> P info.
Proof.
  intros [trace Hr] Ht.
  destruct (tracked_in_heap w info Ht) as (ref & c & Hc & <-).
  assert (all_records P w) as Hall.
  { eapply run_all_records; [exact Hr|]. constructor. }
  exact (Forall_lookup_1 _ _ _ _ Hall Hc).
Qed.
End Records.

(** X11. In every reachable engine the [timed_out] flag of a tracked record
    agrees with its status: a record with status 'timed_out' has the flag,
    and a record with the flag has status 'timed_out' or (after a later
    'error' callback) 'error'. So a record that is running, completed,
    failed or killed never carries the flag. *)
Theorem timed_out_flag_consistent (w : World) (info : ProcessInfo) :
  reachable w -> tracked w info ->
  (status info = TimedOut -> timed_out info = true)
  /\ (timed_out info = true -> status info = TimedOut \/ status info = Error).
Proof.
  apply (reachable_tracked flag_consistent).
  - intros. split; simpl; [discriminate|discriminate].
  - intros ref a c c' Hstep [H1 H2].
    destruct Hstep; unfold flag_consistent; simpl.
    + auto.
    + auto.
    + auto.
    + auto.
    + unfold close_callback. simpl.
      destruct (Status_eqb (status (processInfo c)) Running) eqn:E; simpl;
        [|auto].
      apply status_eqb_eq in E. split.
      * destruct code as [[| |]|]; simpl; discriminate.
      * intros H. destruct (H2 H); congruence.
    + split; [discriminate|auto].
    + split; [discriminate|]. intros Hf. destruct (H2 Hf); congruence.
Qed.

Lemma timed_out_flag_consistent_witness :
  reachable Story.flagged
  /\ tracked Story.flagged Story.sleep_flagged
  /\ timed_out Story.sleep_flagged = true
  /\ (status Story.sleep_flagged = TimedOut
      \/ status Story.sleep_flagged = Error).
Proof.
  assert (reachable Story.flagged) as Hr.
  { exists [Scenario.start_sleep; Scenario.kill_sleep; OnTimeout 0].
    vm_compute. reflexivity. }
  assert (tracked Story.flagged Story.sleep_flagged) as Ht.
  { exists Scenario.p1, 0%nat. vm_compute. reflexivity. }
  split; [exact Hr|]. split; [exact Ht|]. split; [reflexivity|].
  exact (proj2 (timed_out_flag_consistent _ _ Hr Ht) eq_refl).
Defined.

(** *** Exit codes *)

Lemma closes_app ref pre post :
  closes ref (pre ++ post) = (closes ref pre + closes ref post)%nat.
Proof.
  induction pre as [|a pre IH]; simpl; [reflexivity|].
  destruct a; try exact IH. rewrite IH. lia.
Qed.

Lemma code_consistent_later n k p :
  code_consistent n p -> code_consistent (n + k) p.
Proof.
  destruct n as [|[|n]]; simpl.
  - intros (H1 & H2 & H3). destruct k as [|[|k]]; simpl; auto.
    split; intros; contradiction.
  - intros H. destruct k; simpl; [exact H|exact I].
  - intros _. exact I.
Qed.

Lemma cell_step_code ref a c c' n :
  cell_step ref a c c' ->
  code_consistent n (processInfo c) ->
  code_consistent (n + closes ref [a]) (processInfo c').
Proof.
  intros Hstep Hn. destruct Hstep.
  - apply code_consistent_later. exact Hn.
  - simpl closes. rewrite Nat.add_0_r.
    destruct n as [|[|n]]; simpl in *; [|split; discriminate|exact I].
    destruct Hn as (H1 & _). repeat split; auto; discriminate.
  - simpl closes. rewrite Nat.add_0_r. exact Hn.
  - simpl closes. rewrite Nat.add_0_r. exact Hn.
  - simpl closes. rewrite Nat.eqb_refl.
    destruct n as [|n]; [|destruct n; simpl; exact I].
    destruct Hn as (H1 & H2 & H3). simpl. unfold close_callback. simpl.
    destruct (Status_eqb (status (processInfo c)) Running) eqn:E; simpl.
    + split; [apply exit_status_completed|apply exit_status_failed].
    + split; intros; contradiction.
  - simpl closes. rewrite Nat.add_0_r.
    destruct n as [|[|n]]; simpl in *; [|split; discriminate|exact I].
    destruct Hn as (H1 & _). repeat split; auto; discriminate.
  - simpl closes. rewrite Nat.add_0_r.
    destruct n as [|[|n]]; simpl in *; [|split; discriminate|exact I].
    destruct Hn as (H1 & _). repeat split; auto; discriminate.
Qed.

Lemma step_code_consistent a pre w w' :
  step a w = Some w' ->
  (forall r c, heap w !! r = Some c ->
               code_consistent (closes r pre) (processInfo c)) ->
  (forall r, (length (heap w) <= r)%nat -> closes r pre = 0%nat) ->
  (forall r c, heap w' !! r = Some c ->
               code_consistent (closes r (pre ++ [a])) (processInfo c))
  /\ (forall r, (length (heap w') <= r)%nat -> closes r (pre ++ [a]) = 0%nat).
Proof.
  intros Hs Hcells Hfree. split.
  - intros r c' Hc'. rewrite closes_app.
    destruct (heap w !! r) as [c|] eqn:Hc.
    + destruct (step_cell_cases a w w' r c Hs Hc) as (c'' & Hc'' & Hstep).
      rewrite Hc' in Hc''. injection Hc'' as <-.
      apply (cell_step_code r a c c' _ Hstep). exact (Hcells r c Hc).
    + apply lookup_ge_None in Hc. pose proof (lookup_lt_Some _ _ _ Hc') as Hlt.
      destruct (step_registry a w w' Hs)
        as [(command & timeout & uuid & child_pid & now & -> & _ & Hl)
           |[_ Hl]]; [|lia].
      simpl in Hs. injection Hs as <-.
      assert (r = length (heap w)) as -> by lia.
      unfold startCommand in Hc'. simpl in Hc'.
      rewrite list_lookup_insert_eq in Hc' by (rewrite length_app; simpl; lia).
      injection Hc' as <-. rewrite (Hfree _ (Nat.le_refl _)). simpl.
      repeat split; discriminate.
  - intros r Hr. rewrite closes_app.
    assert (length (heap w) <= length (heap w'))%nat as Hle.
    { destruct (step_registry a w w' Hs)
        as [(? & ? & ? & ? & ? & _ & _ & Hl)|[_ Hl]]; lia. }
    rewrite Hfree by lia. simpl.
    destruct a; simpl; try reflexivity.
    simpl in Hs. unfold on_close in Hs.
    destruct (heap w !! ref) as [c|] eqn:Hc; [|discriminate].
    apply lookup_lt_Some in Hc.
    destruct (Nat.eqb_spec ref r); [lia|reflexivity].
Qed.

Lemma run_code_consistent trace : forall pre w w',
  run trace w = Some w' ->
  (forall r c, heap w !! r = Some c ->
               code_consistent (closes r pre) (processInfo c)) ->
  (forall r, (length (heap w) <= r)%nat -> closes r pre = 0%nat) ->
  forall r c, heap w' !! r = Some c ->
              code_consistent (closes r (pre ++ trace)) (processInfo c).
Proof.
  induction trace as [|a rest IH]; intros pre w w' Hr Hcells Hfree; simpl in Hr.
  - injection Hr as <-. rewrite app_nil_r. exact Hcells.
  - destruct (step a w) as [w1|] eqn:Hs; [|discriminate].
    destruct (step_code_consistent a pre w w1 Hs Hcells Hfree) as [H1 H2].
    replace (pre ++ a :: rest) with ((pre ++ [a]) ++ rest)
      by (rewrite <- app_assoc; reflexivity).
    apply (IH (pre ++ [a]) w1 w' Hr H1 H2).
Qed.

(** X12. If the child of a tracked record has reported 'close' at most once
    in the history of the engine, the exit code and the status of the
    record agree: 'completed' comes with exit code 0, 'failed' with an exit
    code that is not 0 (a number, or null when a signal ended the child);
    and as long as the child has not closed, the exit code is null and the
    status is neither 'completed' nor 'failed'. *)
Theorem exit_code_matches_status (trace : list Action) (w : World)
    (processId : Js.str) (ref : nat) (info : ProcessInfo) :
  run trace new_runner = Some w ->
  (closes ref trace <= 1)%nat ->
  lookup_process processId w = Some (ref, info) ->
  (status info = Completed -> exit_code info = Some 0)
  /\ (status info = Failed -> exit_code info <> Some 0)
  /\ (closes ref trace = 0%nat ->
      exit_code info = None
      /\ status info <> Completed /\ status info <> Failed).
Proof.
  intros Hr Hle Hl.
  destruct (lookup_process_inv _ _ _ _ Hl) as (_ & c & Hc & <-).
  assert (code_consistent (closes ref ([] ++ trace)) (processInfo c)) as H.
  { apply (run_code_consistent trace [] new_runner w Hr) with (r := ref).
    - intros r c0 Hc0. simpl in Hc0. rewrite lookup_nil in Hc0. discriminate.
    - reflexivity.
    - exact Hc. }
  simpl in H.
  destruct (closes ref trace) as [|[|n]]; simpl in H; [| |lia].
  - destruct H as (H1 & H2 & H3). repeat split; auto; intros; contradiction.
  - destruct H as (H1 & H2). repeat split; auto; discriminate.
Qed.

Lemma exit_code_matches_status_witness :
  run Scenario.one_finished new_runner = Some Story.busy
  /\ (closes 1 Scenario.one_finished <= 1)%nat
  /\ lookup_process Scenario.p2 Story.busy = Some (1%nat, Scenario.echo_info)
  /\ (status Scenario.echo_info = Completed ->
      exit_code Scenario.echo_info = Some 0).
Proof.
  assert (run Scenario.one_finished new_runner = Some Story.busy) as Hr
    by (vm_compute; reflexivity).
  assert (closes 1 Scenario.one_finished <= 1)%nat as Hle
    by (vm_compute; lia).
  assert (lookup_process Scenario.p2 Story.busy
          = Some (1%nat, Scenario.echo_info)) as Hl
    by (vm_compute; reflexivity).
  split; [exact Hr|]. split; [exact Hle|]. split; [exact Hl|].
  exact (proj1 (exit_code_matches_status _ _ _ _ _ Hr Hle Hl)).
Defined.

(* ===================================================================== *)
(** ** [listProcesses] *)
(* ===================================================================== *)

Lemma status_str_eqb (a b : Status) :
  key_eqb (status_str a) (status_str b) = Status_eqb a b.
Proof. destruct a, b; vm_compute; reflexivity. Qed.

Lemma status_str_truthy (s : Status) : truthy (Some (status_str s)) = true.
Proof. destruct s; reflexivity. Qed.


Lemma listProcesses_status (s : Status) (w : World) :
  listProcesses (Some (status_str s)) w
  = ([ ("success", JBool true);
       ("total",
        JNum (Z.of_nat (length
                (List.filter (fun p => Status_eqb (status p) s)
                             (values w (processes w))))));
       ("processes",
        JArr (List.map (fun p => JObj (summary p))
                (List.filter (fun p => Status_eqb (status p) s)
                             (values w (processes w))))) ],
     w).
Proof.
  unfold listProcesses. rewrite status_str_truthy.
  rewrite (List.filter_ext _ (fun p => Status_eqb (status p) s))
    by (intros p; apply status_str_eqb).
  reflexivity.
Qed.



Lemma values_length w : forall entries,
  List.Forall (fun e => (snd e < length (heap w))%nat) entries ->
  length (values w entries) = length entries.
Proof.
  induction entries as [|[k r] rest IH]; intros H; simpl; [reflexivity|].
  inversion H as [|? ? Hr Hrest]; subst. simpl in Hr. unfold deref.
  destruct (lookup_lt_is_Some_2 (heap w) r Hr) as [c ->]. simpl.
  rewrite IH by exact Hrest. reflexivity.
Qed.

Lemma status_partition (l : list ProcessInfo) :
  fold_right Z.add 0
    (List.map (fun s => Z.of_nat (length
                 (List.filter (fun p => Status_eqb (status p) s) l)))
              all_statuses)
  = Z.of_nat (length l).
Proof.
  unfold all_statuses. cbn [List.map fold_right].
  induction l as [|p l IH]; [reflexivity|].
  cbn [List.filter length]. destruct (status p); cbn [Status_eqb length]; lia.
Qed.

(** X14. In a reachable engine [listProcesses] without a filter counts
    every entry of the registry, and the six lists by status partition it:
    their totals add up to the total without a filter. *)
Theorem listProcesses_totals (w : World) :
  reachable w ->
  list_total None w = Z.of_nat (length (processes w))
  /\ fold_right Z.add 0
       (List.map (fun s => list_total (Some (status_str s)) w) all_statuses)
     = list_total None w.
Proof.
  intros Hr. destruct (reachable_registry_sound w Hr) as [Hv _].
  assert (list_total None w = Z.of_nat (length (values w (processes w))))
    as Hnone by reflexivity.
  split.
  - rewrite Hnone, values_length by exact Hv. reflexivity.
  - rewrite Hnone, <- status_partition. f_equal.
    apply List.map_ext. intros s. unfold list_total.
    rewrite (listProcesses_status s w). reflexivity.
Qed.

Lemma listProcesses_totals_witness :
  reachable Story.busy
  /\ list_total None Story.busy = 2.
Proof.
  assert (reachable Story.busy) as Hr.
  { exists Scenario.one_finished. vm_compute. reflexivity. }
  split; [exact Hr|].
  rewrite (proj1 (listProcesses_totals Story.busy Hr)). vm_compute. reflexivity.
Defined.

(* ===================================================================== *)
(** ** More about [runCommand] *)
(* ===================================================================== *)

Module BlockingMore.
Import Blocking.

Lemma deliver_resolved command e c c' r :
  deliver command e c = Some c' -> resolved c = Some r -> resolved c' = Some r.
Proof.
  intros H Hr. destruct e; simpl in H.
  - destruct (timer_pending c); [|discriminate]. injection H as <-. exact Hr.
  - injection H as <-. exact Hr.
  - injection H as <-. exact Hr.
  - injection H as <-. unfold resolve. simpl. rewrite Hr. exact Hr.
  - injection H as <-. unfold resolve. simpl. rewrite Hr. exact Hr.
Qed.

Lemma deliver_all_resolved command events : forall c c' r,
  deliver_all command events c = Some c' ->
  resolved c = Some r -> resolved c' = Some r.
Proof.
  induction events as [|e events IH]; intros c c' r H Hr; simpl in H.
  - injection H as <-. exact Hr.
  - destruct (deliver command e c) as [c1|] eqn:E; [|discriminate].
    eapply IH; [exact H|]. eapply deliver_resolved; eauto.
Qed.

Lemma deliver_timer_sound command e c c' seen :
  deliver command e c = Some c' -> timer_sound seen c ->
  timer_sound (seen || is_timeout e || is_resolver e) c'.
Proof.
  intros H (H1 & H2 & H3). destruct e; simpl in H.
  - destruct (timer_pending c) eqn:Et; [|discriminate]. injection H as <-.
    unfold timer_sound. simpl. rewrite H1, (H2 eq_refl).
    repeat split; auto; discriminate.
  - injection H as <-. unfold timer_sound. simpl.
    rewrite !orb_false_r. auto.
  - injection H as <-. unfold timer_sound. simpl.
    rewrite !orb_false_r. auto.
  - injection H as <-. unfold timer_sound, resolve. simpl.
    destruct (resolved c); simpl; repeat split; auto; discriminate.
  - injection H as <-. unfold timer_sound, resolve. simpl.
    destruct (resolved c); simpl; repeat split; auto; discriminate.
Qed.

Lemma deliver_all_timer_sound command events : forall c c' seen,
  deliver_all command events c = Some c' -> timer_sound seen c ->
  timer_sound (seen || existsb is_timeout events || existsb is_resolver events)
              c'.
Proof.
  induction events as [|e events IH]; intros c c' seen H Hc; simpl in H.
  - injection H as <-. simpl. rewrite !orb_false_r. exact Hc.
  - destruct (deliver command e c) as [c1|] eqn:E; [|discriminate].
    pose proof (IH c1 c' _ H (deliver_timer_sound _ _ _ _ _ E Hc)) as Hs.
    simpl.
    replace (seen || (is_timeout e || existsb is_timeout events)
             || (is_resolver e || existsb is_resolver events))
      with (seen || is_timeout e || is_resolver e
            || existsb is_timeout events || existsb is_resolver events)
      by (destruct seen, (is_timeout e), (is_resolver e),
            (existsb is_timeout events); reflexivity).
    exact Hs.
Qed.

End BlockingMore.

(** X15. The promise of [runCommand] settles once: when the callbacks so
    far have settled it with a result, the callbacks that follow (a late
    'close' after an 'error', more output) leave that result in place. *)
Theorem runCommand_settles_once (command : Js.str) (timeout : Z)
    (before after : list Blocking.Event) (result : object) (c : Blocking.Call) :
  Blocking.runCommand command timeout before = Some result ->
  Blocking.deliver_all command (before ++ after) Blocking.started = Some c ->
  Blocking.runCommand command timeout (before ++ after) = Some result.
Proof.
  unfold Blocking.runCommand. intros Hb Ha. rewrite Ha.
  rewrite BlockingFacts.deliver_all_app in Ha.
  destruct (Blocking.deliver_all command before Blocking.started) as [c1|];
    [|discriminate].
  exact (BlockingMore.deliver_all_resolved _ _ _ _ _ Ha Hb).
Qed.

Lemma runCommand_settles_once_witness :
  Blocking.runCommand (Js.lit "ls") 30000 Scenario.launch_error
  = Some [ ("success", JBool false); ("exit_code", JNull);
           ("stdout", JStr []); ("stderr", JStr []);
           ("error", JStr (Js.lit "spawn /bin/sh ENOENT"));
           ("command", JStr (Js.lit "ls")) ]
  /\ Blocking.deliver_all (Js.lit "ls")
       (Scenario.launch_error ++ [Blocking.Close (Some (-2))])
       Blocking.started <> None
  /\ Blocking.runCommand (Js.lit "ls") 30000
       (Scenario.launch_error ++ [Blocking.Close (Some (-2))])
     = Blocking.runCommand (Js.lit "ls") 30000 Scenario.launch_error.
Proof.
  split; [reflexivity|]. split; [vm_compute; discriminate|].
  destruct (Blocking.deliver_all (Js.lit "ls")
              (Scenario.launch_error ++ [Blocking.Close (Some (-2))])
              Blocking.started) as [c|] eqn:E; [|vm_compute in E; discriminate].
  exact (runCommand_settles_once (Js.lit "ls") 30000 Scenario.launch_error
           [Blocking.Close (Some (-2))] _ c eq_refl E).
Defined.



(** X17. The timer of [runCommand] sends at most one SIGTERM, exactly when
    it fires, and it cannot fire once it has fired or once the child has
    reported 'close' or 'error': no signal goes to a child that is gone. *)
Theorem runCommand_timer_once (command : Js.str)
    (events : list Blocking.Event) (c : Blocking.Call) :
  Blocking.deliver_all command events Blocking.started = Some c ->
  Blocking.sigterms c = (if existsb Blocking.is_timeout events then 1 else 0)%nat
  /\ Blocking.timedOut c = existsb Blocking.is_timeout events
  /\ (existsb Blocking.is_timeout events
      || existsb Blocking.is_resolver events = true ->
      Blocking.deliver_all command (events ++ [Blocking.Timeout])
        Blocking.started = None).
Proof.
  intros H.
  assert (timer_sound false Blocking.started) as H0.
  { repeat split; simpl; auto; discriminate. }
  destruct (BlockingMore.deliver_all_timer_sound _ _ _ _ _ H H0)
    as (H1 & _ & H3).
  destruct (BlockingFacts.deliver_all_locals _ _ _ _ H) as (_ & _ & Ht).
  simpl in Ht, H3. rewrite H1, Ht.
  split; [reflexivity|]. split; [reflexivity|].
  intros Hseen. rewrite BlockingFacts.deliver_all_app, H. simpl.
  rewrite (H3 Hseen). reflexivity.
Qed.

Lemma runCommand_timer_once_witness :
  Blocking.deliver_all (Js.lit "sleep 5")
    [Blocking.Timeout; Blocking.Close None] Blocking.started
  = Some {| Blocking.stdout := []; Blocking.stderr := [];
            Blocking.timedOut := true; Blocking.timer_pending := false;
            Blocking.sigterms := 1;
            Blocking.resolved :=
              Blocking.runCommand (Js.lit "sleep 5") 100
                [Blocking.Timeout; Blocking.Close None] |}
  /\ Blocking.deliver_all (Js.lit "sleep 5")
       ([Blocking.Timeout; Blocking.Close None] ++ [Blocking.Timeout])
       Blocking.started = None.
Proof.
  assert (Blocking.deliver_all (Js.lit "sleep 5")
            [Blocking.Timeout; Blocking.Close None] Blocking.started
          = Some {| Blocking.stdout := []; Blocking.stderr := [];
                    Blocking.timedOut := true; Blocking.timer_pending := false;
                    Blocking.sigterms := 1;
                    Blocking.resolved :=
                      Blocking.runCommand (Js.lit "sleep 5") 100
                        [Blocking.Timeout; Blocking.Close None] |}) as H
    by reflexivity.
  split; [exact H|].
  apply (proj2 (proj2 (runCommand_timer_once _ _ _ H))). reflexivity.
Defined.

(** X18. When 'close' settles the promise of [runCommand], the result is
    exactly: [success] (no timeout and code 0), the exit code, everything
    the child wrote to each stream before the close, in order and trimmed,
    the [timed_out] flag, and the command as given. *)
Theorem runCommand_close_result (command : Js.str) (timeout : Z)
    (before : list Blocking.Event) (code : option Z) (c : Blocking.Call) :
  Blocking.deliver_all command before Blocking.started = Some c ->
  existsb Blocking.is_resolver before = false ->
  Blocking.runCommand command timeout (before ++ [Blocking.Close code])
  = Some [ ("success",
            JBool (negb (existsb Blocking.is_timeout before)
                   && Blocking.is_zero code));
           ("exit_code", num_or_null code);
           ("stdout", JStr (Js.trim (Blocking.captured_stdout before)));
           ("stderr", JStr (Js.trim (Blocking.captured_stderr before)));
           ("timed_out", JBool (existsb Blocking.is_timeout before));
           ("command", JStr command) ].
Proof.
  intros Hrun Hres.
  pose proof (BlockingFacts.deliver_all_locals _ _ _ _ Hrun) as (Ho & He & Ht).
  pose proof (BlockingFacts.deliver_all_pending _ _ _ _ Hrun eq_refl Hres) as Hp.
  simpl in Ho, He, Ht.
  unfold Blocking.runCommand. rewrite BlockingFacts.deliver_all_app, Hrun.
  simpl. unfold Blocking.resolve. simpl. rewrite Hp. simpl.
  unfold Blocking.close_result. simpl. rewrite Ho, He, Ht. reflexivity.
Qed.

Lemma runCommand_close_result_witness :
  Blocking.deliver_all (Js.lit "make")
    [Blocking.Stdout (Js.lit "cc a.c"); Blocking.Stderr (Js.lit "warning ");
     Blocking.Stdout [Js.LF]] Blocking.started
  = Some {| Blocking.stdout := Js.lit "cc a.c" ++ [Js.LF];
            Blocking.stderr := Js.lit "warning ";
            Blocking.timedOut := false; Blocking.timer_pending := true;
            Blocking.sigterms := 0; Blocking.resolved := None |}
  /\ existsb Blocking.is_resolver
       [Blocking.Stdout (Js.lit "cc a.c"); Blocking.Stderr (Js.lit "warning ");
        Blocking.Stdout [Js.LF]] = false
  /\ Blocking.runCommand (Js.lit "make") 30000
       ([Blocking.Stdout (Js.lit "cc a.c"); Blocking.Stderr (Js.lit "warning ");
         Blocking.Stdout [Js.LF]] ++ [Blocking.Close (Some 2)])
     = Some [ ("success", JBool false); ("exit_code", JNum 2);
              ("stdout", JStr (Js.lit "cc a.c"));
              ("stderr", JStr (Js.lit "warning"));
              ("timed_out", JBool false);
              ("command", JStr (Js.lit "make")) ].
Proof.
  split; [reflexivity|]. split; [reflexivity|].
  exact (runCommand_close_result (Js.lit "make") 30000
           [Blocking.Stdout (Js.lit "cc a.c"); Blocking.Stderr (Js.lit "warning ");
            Blocking.Stdout [Js.LF]] (Some 2) _ eq_refl eq_refl).
Defined.

(* ===================================================================== *)
(** ** The text [getOutput] reports *)
(* ===================================================================== *)

Lemma drop_while_split {A} (p : A -> bool) (l : list A) :
  exists pre, l = pre ++ Js.drop_while p l.
Proof.
  induction l as [|x l [pre IH]]; simpl; [exists []; reflexivity|].
  destruct (p x); [|exists []; reflexivity].
  exists (x :: pre). simpl. rewrite <- IH. reflexivity.
Qed.

Lemma drop_while_head {A} (p : A -> bool) (l : list A) c :
  head (Js.drop_while p l) = Some c -> p c = false.
Proof.
  induction l as [|x l IH]; simpl; [discriminate|].
  destruct (p x) eqn:E; [exact IH|]. simpl. intros [= <-]. exact E.
Qed.

Lemma last_rev_head {A} (l : list A) : last (rev l) = head l.
Proof. destruct l as [|x l]; [reflexivity|]. simpl. apply last_snoc. Qed.

Lemma trimEnd_split (s : Js.str) : exists post, s = Js.trimEnd s ++ post.
Proof.
  unfold Js.trimEnd. destruct (drop_while_split Js.is_white (rev s)) as [q Hq].
  exists (rev q). rewrite <- rev_app_distr, <- Hq, rev_involutive. reflexivity.
Qed.

Lemma trim_piece (s : Js.str) : piece_of (Js.trim s) s.
Proof.
  unfold Js.trim, Js.trimStart.
  destruct (drop_while_split Js.is_white s) as [pre Hpre].
  destruct (trimEnd_split (Js.drop_while Js.is_white s)) as [post Hpost].
  exists pre, post. rewrite <- Hpost. exact Hpre.
Qed.

Lemma trim_clean (s : Js.str) : text_clean (Js.trim s).
Proof.
  unfold Js.trim, Js.trimStart. split.
  - intros c Hc.
    destruct (trimEnd_split (Js.drop_while Js.is_white s)) as [post Hpost].
    apply (drop_while_head Js.is_white s). rewrite Hpost.
    destruct (Js.trimEnd (Js.drop_while Js.is_white s)); [discriminate|].
    exact Hc.
  - unfold Js.trimEnd. intros c Hc. rewrite last_rev_head in Hc.
    exact (drop_while_head _ _ _ Hc).
Qed.

Lemma join_split (sep : N) (s : Js.str) : Js.join sep (Js.split sep s) = s.
Proof.
  induction s as [|c s IH]; [reflexivity|]. simpl.
  destruct (N.eqb_spec c sep) as [->|Hne].
  - destruct (Js.split sep s) as [|p ps] eqn:E.
    + pose proof (split_length sep s) as Hl. rewrite E in Hl. discriminate.
    + change (Js.join sep ([] :: p :: ps)) with (sep :: Js.join sep (p :: ps)).
      rewrite IH. reflexivity.
  - destruct (Js.split sep s) as [|p ps] eqn:E.
    + pose proof (split_length sep s) as Hl. rewrite E in Hl. discriminate.
    + rewrite <- IH. destruct ps; reflexivity.
Qed.

Lemma join_skipn_suffix (sep : N) : forall (k : nat) (ps : list Js.str),
  Js.join sep (skipn k ps) `suffix_of` Js.join sep ps.
Proof.
  induction k as [|k IH]; intros ps; [reflexivity|].
  destruct ps as [|p ps]; [reflexivity|]. simpl skipn.
  etransitivity; [apply IH|].
  destruct ps as [|q qs].
  - simpl. apply suffix_nil.
  - change (Js.join sep (p :: q :: qs))
      with (p ++ sep :: Js.join sep (q :: qs)).
    exists (p ++ [sep]). rewrite <- app_assoc. reflexivity.
Qed.

Lemma tail_lines_suffix (tail : Z) (buffer : Js.str) :
  tail_lines tail buffer `suffix_of` buffer.
Proof.
  unfold tail_lines. destruct (0 <? tail); [|reflexivity].
  unfold Js.slice.
  pose proof (join_skipn_suffix Js.LF
    (Z.to_nat
       (if - tail <? 0
        then Z.max (Z.of_nat (length (Js.split Js.LF buffer)) + - tail) 0
        else Z.min (- tail) (Z.of_nat (length (Js.split Js.LF buffer)))))
    (Js.split Js.LF buffer)) as H.
  rewrite join_split in H. exact H.
Qed.

Lemma tail_lines_all (tail : Z) (buffer : Js.str) :
  Z.of_nat (Js.lines buffer) <= tail -> tail_lines tail buffer = buffer.
Proof.
  intros H. unfold tail_lines, Js.lines in *.
  destruct (0 <? tail); [|reflexivity]. unfold Js.slice.
  replace (- tail <? 0) with true by (symmetry; apply Z.ltb_lt;
    pose proof (split_length Js.LF buffer); lia).
  replace (Z.to_nat (Z.max (Z.of_nat (length (Js.split Js.LF buffer)) + - tail) 0))
    with 0%nat by lia.
  simpl. apply join_split.
Qed.

(** X19. The [stdout] and [stderr] that [getOutput] reports for a tracked
    record are contiguous pieces of the stored buffers, and they neither
    begin nor end with a whitespace code unit. *)
Theorem getOutput_text (processId : Js.str) (tail : Z) (w : World)
    (ref : nat) (info : ProcessInfo) :
  lookup_process processId w = Some (ref, info) ->
  exists out err,
    get_field "stdout" (fst (getOutput processId tail w)) = Some (JStr out)
    /\ get_field "stderr" (fst (getOutput processId tail w)) = Some (JStr err)
    /\ piece_of out (stdout info) /\ piece_of err (stderr info)
    /\ text_clean out /\ text_clean err.
Proof.
  intros Hl.
  assert (forall buffer, piece_of (Js.trim (tail_lines tail buffer)) buffer)
    as Hpiece.
  { intros buffer.
    destruct (trim_piece (tail_lines tail buffer)) as (pre & post & H).
    destruct (tail_lines_suffix tail buffer) as [before Hb].
    exists (before ++ pre), post. rewrite Hb, H at 1.
    rewrite <- app_assoc. reflexivity. }
  exists (Js.trim (tail_lines tail (stdout info))),
         (Js.trim (tail_lines tail (stderr info))).
  unfold getOutput. rewrite Hl. simpl.
  split; [destruct (pid info); reflexivity|].
  split; [destruct (pid info); reflexivity|].
  split; [apply Hpiece|]. split; [apply Hpiece|].
  split; apply trim_clean.
Qed.

Lemma getOutput_text_witness :
  lookup_process Scenario.p2 Story.busy = Some (1%nat, Scenario.echo_info)
  /\ exists out,
       get_field "stdout" (fst (getOutput Scenario.p2 0 Story.busy))
       = Some (JStr out)
       /\ text_clean out.
Proof.
  assert (lookup_process Scenario.p2 Story.busy
          = Some (1%nat, Scenario.echo_info)) as Hl
    by (vm_compute; reflexivity).
  split; [exact Hl|].
  destruct (getOutput_text Scenario.p2 0 Story.busy _ _ Hl)
    as (out & err & Ho & _ & _ & _ & Hc & _).
  exists out. split; [exact Ho|exact Hc].
Defined.

(** X20. A [tail] that is at least the number of lines of both buffers
    cuts nothing: [getOutput] answers what it answers with [tail = 0]. A
    [tail] below zero does the same. *)
Theorem getOutput_tail_covers (processId : Js.str) (tail : Z) (w : World)
    (ref : nat) (info : ProcessInfo) :
  lookup_process processId w = Some (ref, info) ->
  tail < 0
  \/ (Z.of_nat (Js.lines (stdout info)) <= tail
      /\ Z.of_nat (Js.lines (stderr info)) <= tail) ->
  getOutput processId tail w = getOutput processId 0 w.
Proof.
  intros Hl Ht. unfold getOutput. rewrite Hl.
  assert (tail_lines tail (stdout info) = stdout info
          /\ tail_lines tail (stderr info) = stderr info) as [-> ->].
  { destruct Ht as [Hneg|[Ho He]].
    - unfold tail_lines.
      replace (0 <? tail) with false by (symmetry; apply Z.ltb_ge; lia).
      auto.
    - split; apply tail_lines_all; assumption. }
  reflexivity.
Qed.

Lemma getOutput_tail_covers_witness :
  lookup_process Scenario.p2 Story.busy = Some (1%nat, Scenario.echo_info)
  /\ Z.of_nat (Js.lines (stdout Scenario.echo_info)) <= 2
  /\ Z.of_nat (Js.lines (stderr Scenario.echo_info)) <= 2
  /\ getOutput Scenario.p2 2 Story.busy = getOutput Scenario.p2 0 Story.busy.
Proof.
  assert (lookup_process Scenario.p2 Story.busy
          = Some (1%nat, Scenario.echo_info)) as Hl
    by (vm_compute; reflexivity).
  assert (Z.of_nat (Js.lines (stdout Scenario.echo_info)) <= 2) as Ho
    by (vm_compute; discriminate).
  assert (Z.of_nat (Js.lines (stderr Scenario.echo_info)) <= 2) as He
    by (vm_compute; discriminate).
  split; [exact Hl|]. split; [exact Ho|]. split; [exact He|].
  exact (getOutput_tail_covers Scenario.p2 2 Story.busy _ _ Hl
           (or_intror (conj Ho He))).
Defined.

(* ===================================================================== *)
(** ** The port on the command line *)
(* ===================================================================== *)

Module HttpServerFacts.
Import HttpServer.

Lemma digit_char_value (d : Decimal.uint) : forall acc : nat,
  fold_left (fun a c => 10 * a + (Z.of_N c - 48))
            (Js.lit (NilEmpty.string_of_uint d)) (Z.of_nat acc)
  = Z.of_nat (Nat.of_uint_acc d acc).
Proof.
  induction d; intros acc; simpl; try reflexivity;
    rewrite <- IHd; f_equal; rewrite Nat.tail_mul_spec; lia.
Qed.

Lemma of_nat_value (n : nat) : digits_value (Js.of_nat n) = Z.of_nat n.
Proof.
  unfold digits_value, Js.of_nat.
  pose proof (digit_char_value (Nat.to_uint n) 0) as H.
  change (Z.of_nat 0) with 0 in H. rewrite H.
  change (Nat.of_uint_acc (Nat.to_uint n) 0) with (Nat.of_uint (Nat.to_uint n)).
  rewrite DecimalNat.Unsigned.of_to. reflexivity.
Qed.

Lemma uint_digits (d : Decimal.uint) :
  forallb is_digit (Js.lit (NilEmpty.string_of_uint d)) = true.
Proof. induction d; simpl; auto. Qed.

Lemma of_nat_digits (n : nat) : forallb is_digit (Js.of_nat n) = true.
Proof. apply uint_digits. Qed.

Lemma of_nat_nonempty (n : nat) : Js.of_nat n <> [].
Proof.
  intros H. pose proof (of_nat_value n) as Hv. rewrite H in Hv.
  destruct n; [discriminate H|].
  change (digits_value []) with 0 in Hv. lia.
Qed.

Lemma take_while_digits (ds rest : Js.str) :
  forallb is_digit ds = true -> stops_digits rest = true ->
  take_while is_digit (ds ++ rest) = ds.
Proof.
  intros Hd Hr. induction ds as [|c ds IH]; simpl in *.
  - destruct rest as [|c rest]; [reflexivity|]. simpl in *.
    apply negb_true_iff in Hr. rewrite Hr. reflexivity.
  - apply andb_true_iff in Hd. destruct Hd as [Hc Hd]. rewrite Hc, IH; auto.
Qed.

Lemma take_while_none {A} (p : A -> bool) (l : list A) :
  forallb (fun x => negb (p x)) l = true -> take_while p l = [].
Proof.
  destruct l as [|x l]; simpl; [reflexivity|]. intros H.
  apply andb_true_iff in H. destruct H as [H _].
  apply negb_true_iff in H. rewrite H. reflexivity.
Qed.

(** The first piece of [split]: the text before the first separator. *)
Lemma split_first (sep : N) (s : Js.str) :
  head (Js.split sep s) = Some (take_while (fun c => negb (c =? sep)%N) s).
Proof.
  induction s as [|c s IH]; simpl; [reflexivity|].
  destruct (c =? sep)%N; simpl; [reflexivity|].
  destruct (Js.split sep s) as [|p ps]; simpl in *; [discriminate|].
  injection IH as ->. reflexivity.
Qed.

(** The second piece of [split('=')] of a port argument. *)
Lemma port_piece (text : Js.str) :
  nth_error (Js.split 61%N (Js.lit "--port=" ++ text)) 1
  = Some (take_while (fun c => negb (c =? 61)%N) text).
Proof.
  change (Js.split 61%N (Js.lit "--port=" ++ text))
    with (Js.lit "--port" :: Js.split 61%N text).
  simpl nth_error. pose proof (split_first 61%N text) as H.
  destruct (Js.split 61%N text); simpl in *; [discriminate|exact H].
Qed.

Lemma startsWith_app (prefix rest : Js.str) :
  startsWith prefix (prefix ++ rest) = true.
Proof.
  induction prefix as [|c prefix IH]; simpl; [reflexivity|].
  rewrite N.eqb_refl. exact IH.
Qed.

Lemma take_while_narrow {A} (p q : A -> bool) (l : list A) :
  (forall x, p x = true -> q x = true) ->
  take_while p (take_while q l) = take_while p l.
Proof.
  intros H. induction l as [|x l IH]; simpl; [reflexivity|].
  destruct (p x) eqn:Ep.
  - rewrite (H x Ep). simpl. rewrite Ep, IH. reflexivity.
  - destruct (q x); simpl; [rewrite Ep|]; reflexivity.
Qed.

Lemma digit_not_special (c : N) :
  is_digit c = true ->
  Js.is_white c = false /\ (c =? 45)%N = false /\ (c =? 43)%N = false
  /\ (c =? 61)%N = false.
Proof.
  unfold is_digit, Js.is_white. intros H.
  apply andb_true_iff in H. destruct H as [H1 H2].
  apply N.leb_le in H1. apply N.leb_le in H2.
  repeat split;
    repeat (apply orb_false_iff; split);
    try (apply N.eqb_neq; lia);
    apply andb_false_iff; left; apply N.leb_gt; lia.
Qed.

(** A port argument whose value is the decimal form of [n], followed by
    text that does not continue the digits. *)
Lemma port_value_of_nat (n : nat) (junk : Js.str) :
  Z.of_nat n <= max_exact ->
  stops_digits junk = true ->
  port_value (Js.lit "--port=" ++ Js.of_nat n ++ junk) = Int (Z.of_nat n).
Proof.
  intros Hn Hj. unfold port_value. rewrite port_piece.
  unfold parseInt.
  pose proof (of_nat_digits n) as Hd. pose proof (of_nat_nonempty n) as Hne.
  pose proof (of_nat_value n) as Hv.
  destruct (Js.of_nat n) as [|c ds] eqn:E; [contradiction|].
  simpl in Hd. apply andb_true_iff in Hd. destruct Hd as [Hc Hds].
  destruct (digit_not_special c Hc) as (Hw & Hm & Hp & He).
  assert (take_while (fun x => negb (x =? 61)%N) ((c :: ds) ++ junk)
          = c :: take_while (fun x => negb (x =? 61)%N) (ds ++ junk)) as ->.
  { simpl. rewrite He. reflexivity. }
  unfold Js.trimStart. simpl Js.drop_while. rewrite Hw, Hm, Hp. simpl orb.
  cbn [take_while]. rewrite Hc.
  rewrite take_while_narrow.
  - rewrite take_while_digits by assumption.
    rewrite Hv. replace (Z.of_nat n <=? max_exact) with true
      by (symmetry; apply Z.leb_le; exact Hn).
    f_equal. lia.
  - intros x Hx. destruct (digit_not_special x Hx) as (_ & _ & _ & ->).
    reflexivity.
Qed.

Lemma drop_while_no_digit (p : N -> bool) (s : Js.str) :
  no_digit s = true -> no_digit (Js.drop_while p s) = true.
Proof.
  induction s as [|c s IH]; simpl; [reflexivity|]. intros H.
  destruct (p c); [|exact H].
  apply andb_true_iff in H. apply IH. tauto.
Qed.

Lemma take_while_no_digit (p : N -> bool) (s : Js.str) :
  no_digit s = true -> no_digit (take_while p s) = true.
Proof.
  induction s as [|c s IH]; simpl; [reflexivity|]. intros H.
  apply andb_true_iff in H. destruct H as [Hc Hs].
  destruct (p c); [|reflexivity]. simpl. rewrite Hc. apply IH. exact Hs.
Qed.

Lemma parseInt_no_digit (s : Js.str) : no_digit s = true -> parseInt s = NaN.
Proof.
  intros H. unfold parseInt, Js.trimStart.
  pose proof (drop_while_no_digit Js.is_white s H) as Ht.
  destruct (Js.drop_while Js.is_white s) as [|c rest]; [reflexivity|].
  assert (no_digit (if (c =? 45)%N || (c =? 43)%N then rest else c :: rest)
          = true) as Hr.
  { destruct ((c =? 45)%N || (c =? 43)%N); [|exact Ht].
    simpl in Ht. apply andb_true_iff in Ht. tauto. }
  rewrite (take_while_none is_digit _ Hr). reflexivity.
Qed.

Lemma scan_app (before rest : list Js.str) : forall PORT PORT',
  scan before PORT = Listen PORT' ->
  scan (before ++ rest) PORT = scan rest PORT'.
Proof.
  induction before as [|arg before IH]; intros PORT PORT' H;
    cbn [scan app] in *.
  - injection H as <-. reflexivity.
  - destruct (startsWith (Js.lit "--port=") arg); [|apply IH; exact H].
    destruct (port_value arg); [discriminate| |]; apply IH; exact H.
Qed.

Lemma scan_no_port (args : list Js.str) : forall PORT,
  no_port_args args = true -> scan args PORT = Listen PORT.
Proof.
  induction args as [|arg args IH]; intros PORT H;
    cbn [scan no_port_args forallb] in *; [reflexivity|].
  apply andb_true_iff in H. destruct H as [Ha Hr].
  apply negb_true_iff in Ha. rewrite Ha. apply IH. exact Hr.
Qed.

End HttpServerFacts.

(** X21. Without a [--port=] argument after the program and the script,
    the server listens on port 8123, whatever the other arguments are. *)
Theorem startup_default_port (argv : list Js.str) :
  HttpServer.no_port_args (skipn 2 argv) = true ->
  HttpServer.startup argv = HttpServer.Listen (HttpServer.Int 8123).
Proof. intros H. apply HttpServerFacts.scan_no_port. exact H. Qed.

Lemma startup_default_port_witness :
  HttpServer.no_port_args
    (skipn 2 [Js.lit "node"; Js.lit "http-server.js"; Js.lit "--verbose";
              Js.lit "--Port=9000"]) = true
  /\ HttpServer.startup
       [Js.lit "node"; Js.lit "http-server.js"; Js.lit "--verbose";
        Js.lit "--Port=9000"]
     = HttpServer.Listen (HttpServer.Int 8123).
Proof.
  split; [reflexivity|].
  apply (startup_default_port
           [Js.lit "node"; Js.lit "http-server.js"; Js.lit "--verbose";
            Js.lit "--Port=9000"]).
  reflexivity.
Defined.

(** X22. The port round trip: [--port=] followed by the decimal form of a
    number up to 2^53 makes that number the port the loop hands to
    [app.listen]. Text after the digits that does not start with a digit is
    ignored (also a second [=] and what follows it), the last port argument
    wins, and the arguments that are not port arguments do not matter. The
    loop checks no range: whether Node then listens on the number (it takes
    0 for any free port and refuses a number above 65535) is not part of
    this file. *)
Theorem startup_port_round_trip (program script : Js.str)
    (before after : list Js.str) (earlier : HttpServer.number)
    (n : nat) (junk : Js.str) :
  HttpServer.scan before (HttpServer.Int 8123) = HttpServer.Listen earlier ->
  Z.of_nat n <= HttpServer.max_exact ->
  HttpServer.stops_digits junk = true ->
  HttpServer.no_port_args after = true ->
  HttpServer.startup
    (program :: script :: before
     ++ (Js.lit "--port=" ++ Js.of_nat n ++ junk) :: after)
  = HttpServer.Listen (HttpServer.Int (Z.of_nat n)).
Proof.
  intros Hb Hn Hj Ha. unfold HttpServer.startup. cbn [skipn].
  etransitivity; [exact (HttpServerFacts.scan_app before _ _ _ Hb)|].
  cbn [HttpServer.scan].
  rewrite HttpServerFacts.startsWith_app.
  rewrite (HttpServerFacts.port_value_of_nat n junk Hn Hj).
  apply HttpServerFacts.scan_no_port. exact Ha.
Qed.

Lemma startup_port_round_trip_witness :
  HttpServer.scan [Js.lit "--port=9000"] (HttpServer.Int 8123)
  = HttpServer.Listen (HttpServer.Int 9000)
  /\ Z.of_nat 3000 <= HttpServer.max_exact
  /\ HttpServer.stops_digits (Js.lit "=tcp") = true
  /\ HttpServer.no_port_args [Js.lit "--quiet"] = true
  /\ HttpServer.startup
       (Js.lit "node" :: Js.lit "http-server.js" :: [Js.lit "--port=9000"]
        ++ (Js.lit "--port=" ++ Js.of_nat 3000 ++ Js.lit "=tcp")
           :: [Js.lit "--quiet"])
     = HttpServer.Listen (HttpServer.Int 3000).
Proof.
  assert (Z.of_nat 3000 <= HttpServer.max_exact) as Hn
    by (vm_compute; discriminate).
  split; [reflexivity|]. split; [exact Hn|]. split; [reflexivity|].
  split; [reflexivity|].
  exact (startup_port_round_trip (Js.lit "node") (Js.lit "http-server.js")
           [Js.lit "--port=9000"] [Js.lit "--quiet"] (HttpServer.Int 9000)
           3000 (Js.lit "=tcp") eq_refl Hn eq_refl eq_refl).
Defined.

(** X23. A port argument whose value has no decimal digit ends the process
    with exit code 1, whatever follows it, a valid port argument included;
    the arguments before it must have passed. *)
Theorem startup_bad_port_exits (program script : Js.str)
    (before after : list Js.str) (earlier : HttpServer.number)
    (text : Js.str) :
  HttpServer.scan before (HttpServer.Int 8123) = HttpServer.Listen earlier ->
  HttpServer.no_digit text = true ->
  HttpServer.startup
    (program :: script :: before ++ (Js.lit "--port=" ++ text) :: after)
  = HttpServer.Exit 1.
Proof.
  intros Hb Ht. unfold HttpServer.startup. cbn [skipn].
  etransitivity; [exact (HttpServerFacts.scan_app before _ _ _ Hb)|].
  cbn [HttpServer.scan].
  rewrite HttpServerFacts.startsWith_app.
  unfold HttpServer.port_value. rewrite HttpServerFacts.port_piece.
  rewrite HttpServerFacts.parseInt_no_digit; [reflexivity|].
  apply HttpServerFacts.take_while_no_digit. exact Ht.
Qed.

Lemma startup_bad_port_exits_witness :
  HttpServer.scan [] (HttpServer.Int 8123)
  = HttpServer.Listen (HttpServer.Int 8123)
  /\ HttpServer.no_digit (Js.lit "http") = true
  /\ HttpServer.startup
       (Js.lit "node" :: Js.lit "http-server.js" :: []
        ++ (Js.lit "--port=" ++ Js.lit "http") :: [Js.lit "--port=8080"])
     = HttpServer.Exit 1.
Proof.
  split; [reflexivity|]. split; [reflexivity|].
  exact (startup_bad_port_exits (Js.lit "node") (Js.lit "http-server.js")
           [] [Js.lit "--port=8080"] (HttpServer.Int 8123) (Js.lit "http")
           eq_refl eq_refl).
Defined.

(* ===================================================================== *)
(** ** HTTP sessions *)
(* ===================================================================== *)

Module SessionsFacts.
Import Sessions.

Lemma route_table m req transports :
  snd (route m req transports) = transports
  \/ exists key,
       newSessionId req = Some key
       /\ snd (route m req transports)
          = map_set key (fresh_transport req) transports.
Proof.
  destruct m; simpl.
  - unfold handleGetRequest.
    destruct (if truthy (sessionId req) then sessionId req else None);
      [|auto].
    destruct (lookup transports s) as [[t|]|]; auto.
  - unfold handlePostRequest.
    destruct (match (if truthy (sessionId req) then sessionId req else None)
              with Some key => lookup transports key | None => None end)
      as [[t|]|]; auto.
    destruct (negb (truthy (sessionId req)) && is_initialize req); [|auto].
    destruct (throws req); [auto|]. simpl.
    destruct (newSessionId req) as [key|] eqn:E; [|auto].
    destruct (truthy (Some key)); [|auto].
    right. exists key. auto.
Qed.

Lemma serve_keys key : forall requests transports,
  In key (List.map fst (serve requests transports)) ->
  In key (List.map fst transports) \/ In key (issued requests).
Proof.
  induction requests as [|[m req] rest IH]; intros transports H; simpl in *.
  - auto.
  - destruct (IH _ H) as [Hk|Hk].
    + destruct (route_table m req transports) as [->|(k & Hn & ->)] in Hk.
      * auto.
      * rewrite Hn. apply map_set_key_in in Hk.
        destruct Hk as [->|Hk]; simpl; auto.
    + destruct (newSessionId req); simpl; auto.
Qed.

Lemma lookup_unknown transports key :
  ~ In key (List.map fst transports) ->
  existsb (key_eqb key) prototype_keys = false ->
  lookup transports key = None.
Proof.
  intros Hk Hp. unfold lookup. rewrite map_get_absent by exact Hk.
  rewrite Hp. reflexivity.
Qed.

Lemma lookup_own_kept m req transports key t :
  lookup transports key = Some (Own t) ->
  match newSessionId req with
  | Some k => negb (key_eqb k key)
  | None => true
  end = true ->
  lookup (snd (route m req transports)) key = Some (Own t).
Proof.
  intros Hl Hn.
  destruct (route_table m req transports) as [->|(k & Hk & ->)]; [exact Hl|].
  rewrite Hk in Hn. apply negb_true_iff in Hn.
  unfold lookup in *. rewrite map_get_set_other; [exact Hl|].
  intros ->. rewrite key_eqb_refl in Hn. discriminate.
Qed.

Lemma serve_own_kept key t : forall requests transports,
  lookup transports key = Some (Own t) ->
  never_reissued key requests = true ->
  lookup (serve requests transports) key = Some (Own t).
Proof.
  induction requests as [|[m req] rest IH]; intros transports Hl Hn;
    simpl in *; [exact Hl|].
  apply andb_true_iff in Hn. destruct Hn as [H1 H2].
  apply IH; [|exact H2]. apply lookup_own_kept; assumption.
Qed.

Lemma truthy_some (key : Js.str) :
  key <> [] -> (if truthy (Some key) then Some key else None) = Some key.
Proof. destruct key; [contradiction|reflexivity]. Qed.

End SessionsFacts.

(** X24. A session id that no transport of the history reported, and that
    is not a property name of [Object.prototype], is unknown to the server
    after any sequence of requests: GET and POST with it are answered with
    status 400 and the JSON-RPC error -32000 'Bad Request: invalid session
    ID or method.', also when the body of the POST is an initialize request,
    and the table of sessions stays as it is. (The session ids of the
    history are [randomUUID()]s; none of them is [__proto__].) *)
Theorem unknown_session_rejected
    (history : list (Sessions.Method * Sessions.Request))
    (m : Sessions.Method) (req : Sessions.Request) (key : Js.str) :
  ~ In (Js.lit "__proto__") (Sessions.issued history) ->
  Sessions.sessionId req = Some key ->
  key <> [] ->
  ~ In key (Sessions.issued history) ->
  existsb (key_eqb key) Sessions.prototype_keys = false ->
  Sessions.route m req (Sessions.serve history [])
  = (Sessions.Json 400
       [ ("jsonrpc", JStr (Js.lit "2.0"));
         ("error", JObj [ ("code", JNum (-32000));
                          ("message", JStr Sessions.bad_request) ]);
         ("id", JStr (Sessions.uuid req)) ],
     Sessions.serve history []).
Proof.
  intros _ Hs Hne Hi Hp.
  assert (Sessions.lookup (Sessions.serve history []) key = None) as Hl.
  { apply SessionsFacts.lookup_unknown; [|exact Hp].
    intros Hin. destruct (SessionsFacts.serve_keys key _ _ Hin) as [[]|H].
    contradiction. }
  destruct m; simpl.
  - unfold Sessions.handleGetRequest.
    rewrite Hs, (SessionsFacts.truthy_some key Hne), Hl. reflexivity.
  - unfold Sessions.handlePostRequest.
    rewrite Hs, (SessionsFacts.truthy_some key Hne), Hl.
    destruct key; [contradiction|]. reflexivity.
Qed.

Lemma unknown_session_rejected_witness :
  ~ In (Js.lit "__proto__") (Sessions.issued [(Sessions.POST, Story.init_post)])
  /\ Sessions.sessionId (Story.with_session (Js.lit "not-a-session"))
  = Some (Js.lit "not-a-session")
  /\ Js.lit "not-a-session" <> []
  /\ ~ In (Js.lit "not-a-session")
         (Sessions.issued [(Sessions.POST, Story.init_post)])
  /\ existsb (key_eqb (Js.lit "not-a-session")) Sessions.prototype_keys = false
  /\ fst (Sessions.route Sessions.POST
            (Story.with_session (Js.lit "not-a-session"))
            (Sessions.serve [(Sessions.POST, Story.init_post)] []))
     = Sessions.Json 400
         (Sessions.createErrorResponse Sessions.bad_request
            (Js.lit "b2a6f1c0-0002")).
Proof.
  assert (Js.lit "not-a-session" <> []) as Hne by (vm_compute; discriminate).
  assert (~ In (Js.lit "not-a-session")
            (Sessions.issued [(Sessions.POST, Story.init_post)])) as Hi.
  { vm_compute. intros [H|[]]. discriminate. }
  assert (existsb (key_eqb (Js.lit "not-a-session")) Sessions.prototype_keys
          = false) as Hp by (vm_compute; reflexivity).
  assert (~ In (Js.lit "__proto__")
            (Sessions.issued [(Sessions.POST, Story.init_post)])) as Hproto.
  { vm_compute. intros [H|[]]. discriminate. }
  split; [exact Hproto|].
  split; [reflexivity|]. split; [exact Hne|]. split; [exact Hi|].
  split; [exact Hp|].
  rewrite (unknown_session_rejected [(Sessions.POST, Story.init_post)]
             Sessions.POST (Story.with_session (Js.lit "not-a-session"))
             (Js.lit "not-a-session") Hproto eq_refl Hne Hi Hp).
  reflexivity.
Defined.

(** X25. The session round trip: a POST without a session header whose
    body is an initialize request is handed to a new transport, and the
    session id that transport reports then leads to it. After any further
    requests that create no session under the same id, GET and POST with
    that id in the header are handed to the same transport: the server never
    drops a session. *)
Theorem session_round_trip (transports : list (Js.str * nat))
    (init : Sessions.Request) (key : Js.str)
    (later : list (Sessions.Method * Sessions.Request))
    (m : Sessions.Method) (req : Sessions.Request) :
  truthy (Sessions.sessionId init) = false ->
  Sessions.is_initialize init = true ->
  Sessions.throws init = false ->
  Sessions.newSessionId init = Some key ->
  key <> [] ->
  Sessions.never_reissued key later = true ->
  Sessions.sessionId req = Some key ->
  Sessions.throws req = false ->
  fst (Sessions.route Sessions.POST init transports)
  = Sessions.Forward (Sessions.fresh_transport init)
  /\ Sessions.route m req
       (Sessions.serve later (snd (Sessions.route Sessions.POST init transports)))
     = (Sessions.Forward (Sessions.fresh_transport init),
        Sessions.serve later (snd (Sessions.route Sessions.POST init transports))).
Proof.
  intros Hs Hi Ht Hn Hne Hlater Hreq Hthrows.
  assert (Sessions.route Sessions.POST init transports
          = (Sessions.Forward (Sessions.fresh_transport init),
             map_set key (Sessions.fresh_transport init) transports)) as Hinit.
  { simpl. unfold Sessions.handlePostRequest.
    rewrite Hs, Hi, Ht, Hn, (SessionsFacts.truthy_some key Hne).
    reflexivity. }
  rewrite Hinit. cbn [fst snd]. split; [reflexivity|].
  assert (Sessions.lookup
            (Sessions.serve later
               (map_set key (Sessions.fresh_transport init) transports)) key
          = Some (Sessions.Own (Sessions.fresh_transport init))) as Hl.
  { apply SessionsFacts.serve_own_kept; [|exact Hlater].
    unfold Sessions.lookup. rewrite map_get_set_same. reflexivity. }
  destruct m; simpl.
  - unfold Sessions.handleGetRequest.
    rewrite Hreq, (SessionsFacts.truthy_some key Hne), Hl, Hthrows.
    reflexivity.
  - unfold Sessions.handlePostRequest.
    rewrite Hreq, (SessionsFacts.truthy_some key Hne), Hl, Hthrows.
    reflexivity.
Qed.

Lemma session_round_trip_witness :
  truthy (Sessions.sessionId Story.init_post) = false
  /\ Sessions.never_reissued Story.session
       [(Sessions.GET, Story.with_session (Js.lit "not-a-session"))] = true
  /\ fst (Sessions.route Sessions.GET (Story.with_session Story.session)
            (Sessions.serve
               [(Sessions.GET, Story.with_session (Js.lit "not-a-session"))]
               (snd (Sessions.route Sessions.POST Story.init_post []))))
     = Sessions.Forward 0.
Proof.
  assert (Story.session <> []) as Hne by (vm_compute; discriminate).
  split; [reflexivity|]. split; [reflexivity|].
  rewrite (proj2 (session_round_trip [] Story.init_post Story.session
                    [(Sessions.GET, Story.with_session (Js.lit "not-a-session"))]
                    Sessions.GET (Story.with_session Story.session)
                    eq_refl eq_refl eq_refl eq_refl Hne eq_refl eq_refl
                    eq_refl)).
  reflexivity.
Defined.

(** X26. The table of sessions is a plain object, so a session id that is
    a property name of [Object.prototype] ('constructor', 'toString', ...)
    and names no session passes the test for a known session: GET with it
    is not answered with 400 but ends in an exception that leaves the
    handler, and POST with it is answered with status 500 'Internal server
    error.'; no session is created. *)
Theorem inherited_name_passes_for_session (transports : list (Js.str * nat))
    (req : Sessions.Request) (key : Js.str) :
  Sessions.sessionId req = Some key ->
  existsb (key_eqb key) Sessions.prototype_keys = true ->
  map_get key transports = None ->
  Sessions.route Sessions.GET req transports
  = (Sessions.Unanswered, transports)
  /\ Sessions.route Sessions.POST req transports
     = (Sessions.Json 500
          [ ("jsonrpc", JStr (Js.lit "2.0"));
            ("error", JObj [ ("code", JNum (-32000));
                             ("message",
                              JStr (Js.lit "Internal server error.")) ]);
            ("id", JStr (Sessions.uuid req)) ],
        transports).
Proof.
  intros Hs Hp Hm.
  assert (key <> []) as Hne by (intros ->; vm_compute in Hp; discriminate).
  assert (Sessions.lookup transports key = Some Sessions.Inherited) as Hl.
  { unfold Sessions.lookup. rewrite Hm, Hp. reflexivity. }
  split; simpl.
  - unfold Sessions.handleGetRequest.
    rewrite Hs, (SessionsFacts.truthy_some key Hne), Hl. reflexivity.
  - unfold Sessions.handlePostRequest.
    rewrite Hs, (SessionsFacts.truthy_some key Hne), Hl. reflexivity.
Qed.

Lemma inherited_name_passes_for_session_witness :
  Sessions.sessionId (Story.with_session (Js.lit "constructor"))
  = Some (Js.lit "constructor")
  /\ existsb (key_eqb (Js.lit "constructor")) Sessions.prototype_keys = true
  /\ map_get (Js.lit "constructor")
       (snd (Sessions.route Sessions.POST Story.init_post [])) = None
  /\ fst (Sessions.route Sessions.GET
            (Story.with_session (Js.lit "constructor"))
            (snd (Sessions.route Sessions.POST Story.init_post [])))
     = Sessions.Unanswered.
Proof.
  assert (existsb (key_eqb (Js.lit "constructor")) Sessions.prototype_keys
          = true) as Hp by (vm_compute; reflexivity).
  assert (map_get (Js.lit "constructor")
            (snd (Sessions.route Sessions.POST Story.init_post [])) = None)
    as Hm by (vm_compute; reflexivity).
  split; [reflexivity|]. split; [exact Hp|]. split; [exact Hm|].
  rewrite (proj1 (inherited_name_passes_for_session _
                    (Story.with_session (Js.lit "constructor"))
                    (Js.lit "constructor") eq_refl Hp Hm)).
  reflexivity.
Defined.

(* ===================================================================== *)
(** ** [getOutput]: what is reported of a buffer, and when a second call
    reports the same *)
(* ===================================================================== *)

Lemma drop_while_white (s : Js.str) :
  exists pre, s = pre ++ Js.drop_while Js.is_white s /\ all_white pre = true.
Proof.
  induction s as [|c s (pre & IH & Hw)]; simpl;
    [exists []; split; reflexivity|].
  destruct (Js.is_white c) eqn:E; [|exists []; split; reflexivity].
  exists (c :: pre). split; [simpl; rewrite <- IH; reflexivity|].
  unfold all_white. simpl. rewrite E. exact Hw.
Qed.

Lemma all_white_rev (s : Js.str) : all_white (rev s) = all_white s.
Proof.
  unfold all_white. induction s as [|c s IH]; simpl; [reflexivity|].
  rewrite forallb_app, IH. simpl. rewrite andb_true_r. apply andb_comm.
Qed.

Lemma trim_white (s : Js.str) :
  exists before after,
    s = before ++ Js.trim s ++ after
    /\ all_white before = true /\ all_white after = true.
Proof.
  unfold Js.trim, Js.trimStart, Js.trimEnd.
  destruct (drop_while_white s) as (before & Hb & Hwb).
  destruct (drop_while_white (rev (Js.drop_while Js.is_white s)))
    as (q & Hq & Hwq).
  exists before, (rev q).
  split; [|split; [exact Hwb | rewrite all_white_rev; exact Hwq]].
  rewrite <- rev_app_distr, <- Hq, rev_involutive. exact Hb.
Qed.

(** Dropping the first [k] pieces of a joined text drops a prefix that ends
    with the separator. *)
Lemma join_skipn_boundary (sep : N) : forall (k : nat) (ps : list Js.str),
  (k < length ps)%nat ->
  exists dropped,
    Js.join sep ps = dropped ++ Js.join sep (skipn k ps)
    /\ (dropped = [] \/ last dropped = Some sep).
Proof.
  induction k as [|k IH]; intros ps Hk.
  - exists []. split; [reflexivity | left; reflexivity].
  - destruct ps as [|p ps]; [simpl in Hk; lia|].
    destruct ps as [|q qs]; [simpl in Hk; lia|].
    destruct (IH (q :: qs)) as (d & Hd & Hl); [simpl in *; lia|].
    exists (p ++ sep :: d). split.
    + change (Js.join sep (p :: q :: qs))
        with (p ++ sep :: Js.join sep (q :: qs)).
      rewrite Hd. cbn [skipn]. rewrite <- app_assoc. reflexivity.
    + right. destruct Hl as [->|Hl].
      * apply last_snoc.
      * rewrite last_app, last_cons, Hl. reflexivity.
Qed.

Lemma tail_lines_kept (tail : Z) (buffer : Js.str) :
  0 < tail ->
  exists dropped,
    buffer = dropped ++ tail_lines tail buffer
    /\ (dropped = [] \/ last dropped = Some Js.LF)
    /\ line_count (tail_lines tail buffer)
       = Nat.min (Z.to_nat tail) (line_count buffer).
Proof.
  intros Hn. unfold tail_lines, line_count.
  replace (0 <? tail) with true by (symmetry; apply Z.ltb_lt; lia).
  unfold Js.slice.
  replace (- tail <? 0) with true by (symmetry; apply Z.ltb_lt; lia).
  pose proof (split_length Js.LF buffer) as Hl.
  remember (Js.split Js.LF buffer) as ps eqn:Eps.
  remember (Z.to_nat (Z.max (Z.of_nat (length ps) + - tail) 0)) as k eqn:Ek.
  assert (k < length ps)%nat as Hk by lia.
  destruct (join_skipn_boundary Js.LF k ps Hk) as (d & Hd & Hb).
  exists d. split; [|split; [exact Hb|]].
  - rewrite <- Hd, Eps. symmetry. apply join_split.
  - rewrite join_count
      by (apply Forall_drop; rewrite Eps; apply split_pieces).
    rewrite length_skipn, <- Hl. lia.
Qed.

(** The text [getOutput] computes from a buffer is the projection of the
    buffer. *)
Lemma trim_tail_projects (tail : Z) (buffer : Js.str) :
  projects tail buffer (Js.trim (tail_lines tail buffer)).
Proof.
  destruct (trim_white (tail_lines tail buffer))
    as (before & after & Hs & Hb & Ha).
  unfold projects. destruct (Z.ltb_spec 0 tail) as [Hn|Hn].
  - destruct (tail_lines_kept tail buffer Hn) as (d & Hd & Hl & Hc).
    exists d, before, after. rewrite <- Hs.
    split; [exact Hd|]. split; [exact Hb|]. split; [exact Ha|].
    split; [apply trim_clean|]. split; [exact Hl|exact Hc].
  - exists [], before, after. rewrite <- Hs.
    split; [|split; [exact Hb|split; [exact Ha|split; [apply trim_clean|]]]].
    + unfold tail_lines.
      replace (0 <? tail) with false by (symmetry; apply Z.ltb_ge; lia).
      reflexivity.
    + reflexivity.
Qed.

Lemma projects_bound (tail : Z) (buffer out : Js.str) :
  0 < tail -> projects tail buffer out -> Z.of_nat (line_count out) <= tail.
Proof.
  intros Hn (d & b & a & _ & _ & _ & _ & H).
  replace (0 <? tail) with true in H by (symmetry; apply Z.ltb_lt; lia).
  destruct H as [_ H]. unfold line_count in *.
  rewrite !count_occ_app in H. lia.
Qed.

(** A turn that leaves the record alone leaves the lookup alone. *)
Lemma lookup_process_kept (processId : Js.str) (ref : nat) (w w' : World) :
  map_get processId (processes w) = Some ref ->
  map_get processId (processes w') = Some ref ->
  heap w' !! ref = heap w !! ref ->
  lookup_process processId w' = lookup_process processId w.
Proof.
  intros Hm Hm' Hh. unfold lookup_process, deref. rewrite Hm, Hm', Hh.
  reflexivity.
Qed.

Lemma step_leaves_alone (processId : Js.str) (ref : nat) (info : ProcessInfo)
    (a : Action) (w w' : World) :
  lookup_process processId w = Some (ref, info) ->
  status info <> Running ->
  leaves_alone processId ref a = true ->
  step a w = Some w' ->
  lookup_process processId w' = Some (ref, info).
Proof.
  intros Hl Hs Ha Hstep. rewrite <- Hl.
  destruct (lookup_process_inv _ _ _ _ Hl) as (Hm & c & Hc & Hi).
  pose proof (lookup_lt_Some _ _ _ Hc) as Hlt.
  destruct a as [command timeout uuid child_pid now|pid' tail|filter
                 |pid' thrown now|[[|k key]|]|r|r data|r data|r code now
                 |r message now];
    cbn [leaves_alone] in Ha; try discriminate; cbn [step] in Hstep.
  - injection Hstep as <-.
    apply negb_true_iff in Ha. unfold key_eqb in Ha.
    apply bool_decide_eq_false in Ha.
    apply (lookup_process_kept processId ref); [exact Hm| |].
    + unfold startCommand. cbn [snd store processes].
      rewrite map_get_set_other by (intros E; apply Ha; symmetry; exact E).
      exact Hm.
    + unfold startCommand. cbn [snd store heap].
      rewrite list_lookup_insert_ne by lia.
      apply lookup_app_l. exact Hlt.
  - injection Hstep as <-. rewrite getOutput_world. reflexivity.
  - injection Hstep as <-. reflexivity.
  - injection Hstep as <-. unfold killProcess.
    destruct (lookup_process pid' w) as [[r' i']|] eqn:El; [|reflexivity].
    destruct (negb (Status_eqb (status i') Running)) eqn:Er; [reflexivity|].
    destruct (lookup_process_inv _ _ _ _ El) as (Hm' & c' & Hc' & Hi').
    assert (r' <> ref) as Hne.
    { intros ->. rewrite Hc in Hc'. injection Hc' as <-.
      rewrite Hi in Hi'. subst i'.
      apply negb_false_iff in Er. apply Hs.
      destruct (status info); try discriminate; reflexivity. }
    destruct thrown as [message|]; cbn [snd].
    + reflexivity.
    + apply (lookup_process_kept processId ref); [exact Hm|exact Hm|].
      unfold assign, send. cbn [heap].
      apply list_lookup_alter_ne. exact Hne.
  - injection Hstep as <-.
    apply negb_true_iff in Ha. unfold key_eqb in Ha.
    apply bool_decide_eq_false in Ha.
    unfold clearProcesses. cbn [truthy].
    destruct (lookup_process (k :: key) w) as [[r' i']|]; [|reflexivity].
    cbn [snd]. apply lookup_process_delete_other.
    intros E. apply Ha. symmetry. exact E.
  - apply negb_true_iff, Nat.eqb_neq in Ha. unfold on_timeout in Hstep.
    destruct (heap w !! r) as [c'|]; [|discriminate].
    destruct (timer_pending c'); [|discriminate]. injection Hstep as <-.
    apply (lookup_process_kept processId ref); [exact Hm|exact Hm|].
    unfold send, store. cbn [heap]. apply list_lookup_insert_ne. exact Ha.
  - apply negb_true_iff, Nat.eqb_neq in Ha. unfold on_stdout in Hstep.
    destruct (heap w !! r) as [c'|]; [|discriminate]. injection Hstep as <-.
    apply (lookup_process_kept processId ref); [exact Hm|exact Hm|].
    unfold store. cbn [heap]. apply list_lookup_insert_ne. exact Ha.
  - apply negb_true_iff, Nat.eqb_neq in Ha. unfold on_stderr in Hstep.
    destruct (heap w !! r) as [c'|]; [|discriminate]. injection Hstep as <-.
    apply (lookup_process_kept processId ref); [exact Hm|exact Hm|].
    unfold store. cbn [heap]. apply list_lookup_insert_ne. exact Ha.
  - apply negb_true_iff, Nat.eqb_neq in Ha. unfold on_close in Hstep.
    destruct (heap w !! r) as [c'|]; [|discriminate]. injection Hstep as <-.
    apply (lookup_process_kept processId ref); [exact Hm|exact Hm|].
    unfold store. cbn [heap]. apply list_lookup_insert_ne. exact Ha.
  - apply negb_true_iff, Nat.eqb_neq in Ha. unfold on_error in Hstep.
    destruct (heap w !! r) as [c'|]; [|discriminate]. injection Hstep as <-.
    apply (lookup_process_kept processId ref); [exact Hm|exact Hm|].
    unfold store. cbn [heap]. apply list_lookup_insert_ne. exact Ha.
Qed.

Lemma run_leaves_alone (processId : Js.str) (ref : nat) (info : ProcessInfo) :
  status info <> Running ->
  forall (between : list Action) (w w' : World),
    lookup_process processId w = Some (ref, info) ->
    forallb (leaves_alone processId ref) between = true ->
    run between w = Some w' ->
    lookup_process processId w' = Some (ref, info).
Proof.
  intros Hs. induction between as [|a rest IH]; intros w w' Hl Hb Hr.
  - injection Hr as <-. exact Hl.
  - cbn [forallb] in Hb. apply andb_true_iff in Hb as [Ha Hb].
    cbn [run] in Hr. destruct (step a w) as [w1|] eqn:E; [|discriminate].
    apply (IH w1 w'); [|exact Hb|exact Hr].
    exact (step_leaves_alone _ _ _ _ _ _ Hl Hs Ha E).
Qed.

(** C5, as the claim states it, fails in its last part: a status other
    than 'running' does not freeze the buffers, since the 'data' callbacks
    (lines 51-57) append whatever the status is. The sleep was killed and
    has not closed; it writes once more, and [getOutput] with the same
    [tail] answers another [stdout]. *)
Lemma getOutput_changes_when_not_running :
  lookup_process Scenario.p1 Story.killed = Some (0%nat, Story.sleep_killed)
  /\ status Story.sleep_killed = Killed
  /\ step Story.late_output Story.killed = Some Story.killed_late
  /\ get_field "stdout" (fst (getOutput Scenario.p1 0 Story.killed))
     = Some (JStr [])
  /\ get_field "stdout" (fst (getOutput Scenario.p1 0 Story.killed_late))
     = Some (JStr (Js.lit "late")).
Proof. repeat split; vm_compute; reflexivity. Qed.

(** C5, amended. For a tracked record, [getOutput] reports of each buffer
    its projection: with [tail > 0] the last [tail] lines of the buffer (all
    of it when it has fewer), otherwise the whole buffer, in both cases
    without the whitespace at its two ends, so that with [tail > 0] each
    reported text has at most [tail] lines. The call leaves the engine as it
    was: trimming and cutting happen on what is read, not on what is
    stored. A later call with the same [tail] on a record that is not
    running gives the same answer when every turn in between leaves the
    record alone: no callback of its child, no [startCommand] reusing the
    identifier, no [clearProcesses] of it; the status alone does not
    ensure it. *)
Theorem getOutput_projection (processId : Js.str) (tail : Z) (w : World)
    (ref : nat) (info : ProcessInfo) :
  lookup_process processId w = Some (ref, info) ->
  exists out err,
    get_field "stdout" (fst (getOutput processId tail w)) = Some (JStr out)
    /\ get_field "stderr" (fst (getOutput processId tail w)) = Some (JStr err)
    /\ projects tail (stdout info) out
    /\ projects tail (stderr info) err
    /\ (0 < tail ->
        Z.of_nat (line_count out) <= tail
        /\ Z.of_nat (line_count err) <= tail)
    /\ snd (getOutput processId tail w) = w
    /\ (status info <> Running ->
        forall (between : list Action) (w' : World),
          forallb (leaves_alone processId ref) between = true ->
          run between w = Some w' ->
          getOutput processId tail w'
          = (fst (getOutput processId tail w), w')).
Proof.
  intros Hl.
  exists (Js.trim (tail_lines tail (stdout info))),
         (Js.trim (tail_lines tail (stderr info))).
  split; [unfold getOutput; rewrite Hl; destruct (pid info); reflexivity|].
  split; [unfold getOutput; rewrite Hl; destruct (pid info); reflexivity|].
  split; [apply trim_tail_projects|].
  split; [apply trim_tail_projects|].
  split.
  { intros Hn. split; eapply projects_bound; try exact Hn;
      apply trim_tail_projects. }
  split; [apply getOutput_world|].
  intros Hs between w' Hb Hr.
  pose proof (run_leaves_alone processId ref info Hs between w w' Hl Hb Hr)
    as Hl'.
  unfold getOutput. rewrite Hl, Hl'. reflexivity.
Qed.

Lemma getOutput_projection_witness :
  lookup_process Scenario.p2 Story.busy = Some (1%nat, Scenario.echo_info)
  /\ get_field "stdout" (fst (getOutput Scenario.p2 2 Story.busy))
     = Some (JStr (Js.lit "hi"))
  /\ projects 2 (Js.lit "hi" ++ [Js.LF]) (Js.lit "hi")
  /\ status Scenario.echo_info <> Running
  /\ forallb (leaves_alone Scenario.p2 1) Story.around_echo = true
  /\ run Story.around_echo Story.busy = Some Story.after_around_echo
  /\ getOutput Scenario.p2 2 Story.after_around_echo
     = (fst (getOutput Scenario.p2 2 Story.busy), Story.after_around_echo).
Proof.
  assert (lookup_process Scenario.p2 Story.busy
          = Some (1%nat, Scenario.echo_info)) as Hl
    by (vm_compute; reflexivity).
  assert (status Scenario.echo_info <> Running) as Hs by discriminate.
  assert (forallb (leaves_alone Scenario.p2 1) Story.around_echo = true)
    as Hb by (vm_compute; reflexivity).
  assert (run Story.around_echo Story.busy = Some Story.after_around_echo)
    as Hr by (vm_compute; reflexivity).
  destruct (getOutput_projection Scenario.p2 2 Story.busy 1
              Scenario.echo_info Hl)
    as (out & err & Ho & _ & Hp & _ & _ & _ & Hrep).
  assert (out = Js.lit "hi") as ->.
  { assert (get_field "stdout" (fst (getOutput Scenario.p2 2 Story.busy))
            = Some (JStr (Js.lit "hi"))) as E by (vm_compute; reflexivity).
    rewrite E in Ho. injection Ho as <-. reflexivity. }
  split; [exact Hl|]. split; [exact Ho|]. split; [exact Hp|].
  split; [exact Hs|]. split; [exact Hb|]. split; [exact Hr|].
  exact (Hrep Hs _ _ Hb Hr).
Defined.
